(** * AI-to-Webflow: the style compiler, the tree compiler and the chunker

    A shallow embedding of [lib/css-parser.ts] (the revision that resolves
    custom properties and collects the advanced rules) and of
    [lib/html-parser.ts] (the revision that tracks form context and splits
    the nodes into chunks), with the properties their specification states.

    Conventions of the embedding.
    - A JavaScript string is a Rocq [string]; a character is a UTF-16 code
      unit below 256 (an [ascii]).
    - [uuidv4()] is a supply of fresh identifiers: the k-th identifier drawn
      in a run is [uuidv4 k], and the counter is threaded through the state.
    - [htmlparser2.parseDocument] is an external library: the compiler is
      parameterised by it and works on the DOM it returns.
    - A JavaScript exception (here only [RangeError], from unbounded
      recursion) is the result [None] of a function that carries the
      available call depth as a natural number. *)

From Stdlib Require Import Ascii String ZArith Lia.
From stdpp Require Import base option list gmap strings pretty.

Local Open Scope string_scope.
Local Open Scope list_scope.
Set Warnings "-register-all,-clear-no-such-hyp".

(** ** JavaScript string built-ins used by the two parsers *)

Module JS.

Definition code (c : ascii) : N := N_of_ascii c.

(** White space and line terminators, as [String.prototype.trim] and the
    regular-expression class [\s] see them (code units below 256). *)
Definition is_ws (c : ascii) : bool :=
  let n := code c in
  ((9 <=? n) && (n <=? 13) || (n =? 32) || (n =? 160))%N.

Definition is_digit (c : ascii) : bool :=
  let n := code c in ((48 <=? n) && (n <=? 57))%N.

Definition is_upper (c : ascii) : bool :=
  let n := code c in ((65 <=? n) && (n <=? 90))%N.

Definition is_lower (c : ascii) : bool :=
  let n := code c in ((97 <=? n) && (n <=? 122))%N.

(** The class [\w], and the class [[\w-]] of the variable regexes. *)
Definition is_word (c : ascii) : bool :=
  is_digit c || is_upper c || is_lower c || (code c =? 95)%N.

Definition is_word_dash (c : ascii) : bool :=
  is_word c || (code c =? 45)%N.

Definition lower_char (c : ascii) : ascii :=
  let n := code c in
  if is_upper c then ascii_of_N (n + 32)
  else if ((192 <=? n) && (n <=? 222) && negb (n =? 215))%N
       then ascii_of_N (n + 32)
       else c.

Fixpoint toLowerCase (s : string) : string :=
  match s with
  | "" => ""
  | String c r => String (lower_char c) (toLowerCase r)
  end.

Fixpoint trimStart (s : string) : string :=
  match s with
  | "" => ""
  | String c r => if is_ws c then trimStart r else s
  end.

Fixpoint trimEnd (s : string) : string :=
  match s with
  | "" => ""
  | String c r =>
      match trimEnd r with
      | "" => if is_ws c then "" else String c ""
      | r' => String c r'
      end
  end.

Definition trim (s : string) : string := trimEnd (trimStart s).

Fixpoint startsWith (p s : string) : bool :=
  match p, s with
  | "", _ => true
  | String a p', String b s' => if ascii_dec a b then startsWith p' s' else false
  | String _ _, "" => false
  end.

Fixpoint includes (sub s : string) : bool :=
  startsWith sub s ||
  match s with
  | "" => false
  | String _ r => includes sub r
  end.

(** [s.indexOf(sub, from)]; [None] stands for [-1]. *)
Fixpoint indexOf_aux (sub s : string) (pos : nat) : option nat :=
  if startsWith sub s then Some pos
  else match s with
       | "" => None
       | String _ r => indexOf_aux sub r (S pos)
       end.

Fixpoint drop (n : nat) (s : string) : string :=
  match n, s with
  | O, _ => s
  | S n', String _ r => drop n' r
  | S _, "" => ""
  end.

Fixpoint take (n : nat) (s : string) : string :=
  match n, s with
  | O, _ => ""
  | S n', String c r => String c (take n' r)
  | S _, "" => ""
  end.

Definition indexOf (sub s : string) (from : nat) : option nat :=
  indexOf_aux sub (drop from s) (Nat.min from (String.length s)).

(** [s.substring(a, b)] for [a <= b]. *)
Definition substring (a b : nat) (s : string) : string :=
  take (b - a) (drop a s).

(** [s.split(sep)] for a one-character separator. *)
Fixpoint split (sep : ascii) (s : string) : list string :=
  match s with
  | "" => [""]
  | String c r =>
      if ascii_dec c sep then "" :: split sep r
      else match split sep r with
           | h :: t => String c h :: t
           | [] => [String c ""]
           end
  end.

(** [s.split(/\s+/)]: the pieces between maximal runs of white space; the
    flag says that the previous character belonged to a separator. *)
Fixpoint split_ws_from (in_sep : bool) (s : string) : list string :=
  match s with
  | "" => [""]
  | String c r =>
      if is_ws c then
        (if in_sep then split_ws_from true r else "" :: split_ws_from true r)
      else match split_ws_from false r with
           | h :: t => String c h :: t
           | [] => [String c ""]
           end
  end.

Definition split_ws (s : string) : list string := split_ws_from false s.

(** [parts.join(sep)] *)
Fixpoint join (sep : string) (parts : list string) : string :=
  match parts with
  | [] => ""
  | [p] => p
  | p :: rest => p +:+ sep +:+ join sep rest
  end.

(** *** [parseInt(s)] with no radix argument

    Leading white space is skipped, an optional sign is read, a [0x] or
    [0X] prefix selects radix 16, and the longest run of digits of the
    radix is taken; an empty run gives [NaN], here [None].  The result is
    the exact integer: JavaScript rounds it to a double, which changes
    nothing below 2^53 (every decimal string of at most 15 characters). *)

Definition digit_value (radix : Z) (c : ascii) : option Z :=
  let n := Z.of_N (code c) in
  let v := if is_digit c then Some (n - 48)%Z
           else if is_lower c then Some (n - 87)%Z
           else if is_upper c then Some (n - 55)%Z
           else None in
  match v with
  | Some d => if (d <? radix)%Z then Some d else None
  | None => None
  end.

(** Reads the longest run of digits; [None] when the run is empty. *)
Fixpoint read_digits (radix : Z) (s : string) (acc : option Z) : option Z :=
  match s with
  | "" => acc
  | String c r =>
      match digit_value radix c with
      | Some d => read_digits radix r (Some (default 0%Z acc * radix + d)%Z)
      | None => acc
      end
  end.

Definition parseInt (input : string) : option Z :=
  let s := trimStart input in
  let '(sign, s) :=
    match s with
    | String c r =>
        if ascii_dec c "-" then ((-1)%Z, r)
        else if ascii_dec c "+" then (1%Z, r)
        else (1%Z, s)
    | "" => (1%Z, s)
    end in
  let '(radix, s) :=
    if startsWith "0x" s || startsWith "0X" s then (16%Z, drop 2 s) else (10%Z, s) in
  match read_digits radix s None with
  | Some m => Some (sign * m)%Z
  | None => None
  end.

(** [parseInt(x)] for an argument that may be [undefined], which
    [parseInt] first converts to the string ["undefined"]. *)
Definition parseInt_arg (x : option string) : option Z :=
  parseInt (default "undefined" x).

(** [n || d] for a number [n]: [NaN] and zero are falsy. *)
Definition number_or (n : option Z) (d : Z) : Z :=
  match n with
  | Some z => if (z =? 0)%Z then d else z
  | None => d
  end.

End JS.

(** ** Regular expressions

    Every regular expression of the two parsers is given by its anchored
    matcher: the match that the backtracking engine finds when it starts at
    the first character of the text, with its length and what the code reads
    from its groups.  The search of a global regex ([exec] in a loop,
    [replace]) is the same for all of them. *)

Module Regex.

(** The longest prefix of characters that satisfy [p], and the rest. *)
Fixpoint span (p : ascii -> bool) (s : string) : string * string :=
  match s with
  | "" => ("", "")
  | String c r =>
      if p c then let '(a, b) := span p r in (String c a, b) else ("", s)
  end.

Definition is_not (x : ascii) (c : ascii) : bool :=
  if ascii_dec c x then false else true.

Fixpoint last_char (s : string) : string :=
  match s with
  | "" => ""
  | String c "" => String c ""
  | String _ r => last_char r
  end.

(** The group of [\s*([^x]+)] when the two together matched [all]: the
    white space goes to [\s*], unless nothing would be left for the group,
    which then takes the last character. *)
Definition group_after_ws (all : string) : string :=
  match JS.trimStart all with
  | "" => last_char all
  | g => g
  end.

(** The leftmost, non-overlapping matches of a global regex over a text:
    a character that starts no match is passed over, and the search resumes
    after a match.  [skip] counts the characters of the current match that
    are still to be passed. *)
Fixpoint scan_from {A : Type} (match_at : string -> option (nat * A)) (skip : nat)
    (s : string) : list (ascii + A) :=
  match s with
  | "" => []
  | String c r =>
      match skip with
      | S k => scan_from match_at k r
      | O =>
          match match_at s with
          | Some (len, x) => inr x :: scan_from match_at (len - 1) r
          | None => inl c :: scan_from match_at 0 r
          end
      end
  end.

Definition scan {A : Type} (match_at : string -> option (nat * A)) (s : string)
  : list (ascii + A) :=
  scan_from match_at 0 s.

(** [while ((match = regex.exec(text)) !== null)]: the matches in order. *)
Definition exec_all {A : Type} (match_at : string -> option (nat * A)) (s : string) : list A :=
  omap (fun piece => match piece with inr x => Some x | inl _ => None end)
       (scan match_at s).

(** [text.replace(regex, callback)] for a global regex. *)
Definition replace_all {A : Type} (match_at : string -> option (nat * A))
    (callback : A -> string) (s : string) : string :=
  fold_right
    (fun piece out => match piece with
                      | inl c => String c out
                      | inr x => callback x +:+ out
                      end)
    "" (scan match_at s).

End Regex.

(** ** Values of the output format *)

(** A JSON value: the [data] payload of an element node is assembled field
    by field, so an object keeps its fields in insertion order. *)
Inductive Json : Type :=
  | JStr (s : string)
  | JNum (z : Z)
  | JBool (b : bool)
  | JArr (items : list Json)
  | JObj (fields : list (string * Json)).

(** [obj[key] = v]: an existing field is overwritten in place, a new one is
    appended. *)
Fixpoint obj_set {V : Type} (key : string) (v : V) (fields : list (string * V))
  : list (string * V) :=
  match fields with
  | [] => [(key, v)]
  | (k, w) :: rest =>
      if String.eqb k key then (k, v) :: rest else (k, w) :: obj_set key v rest
  end.

(** [Object.assign(target, source)] *)
Definition obj_assign {V : Type} (target source : list (string * V)) : list (string * V) :=
  fold_left (fun acc kv => obj_set (fst kv) (snd kv) acc) source target.

Fixpoint obj_get {V : Type} (key : string) (fields : list (string * V)) : option V :=
  match fields with
  | [] => None
  | (k, w) :: rest => if String.eqb k key then Some w else obj_get key rest
  end.

(** What [table[key]] evaluates to when [table] is an object literal used as
    a lookup table: the own entry when there is one, and otherwise the
    member that every object inherits from [Object.prototype] under this
    key, if any.  All these values are truthy. *)
Inductive Member : Type :=
  | Own (s : string)
  | FromPrototype (key : string).

Definition object_prototype_keys : list string :=
  [ "constructor"; "__defineGetter__"; "__defineSetter__"; "hasOwnProperty";
    "__lookupGetter__"; "__lookupSetter__"; "isPrototypeOf";
    "propertyIsEnumerable"; "toString"; "valueOf"; "__proto__";
    "toLocaleString" ].

Fixpoint assoc (key : string) (table : list (string * string)) : option string :=
  match table with
  | [] => None
  | (k, v) :: rest => if String.eqb k key then Some v else assoc key rest
  end.

Definition mem (x : string) (l : list string) : bool :=
  existsb (String.eqb x) l.

Definition table_get (table : list (string * string)) (key : string) : option Member :=
  match assoc key table with
  | Some v => Some (Own v)
  | None => if mem key object_prototype_keys then Some (FromPrototype key) else None
  end.

(** [t === name] for a looked-up value [t] *)
Definition is_type (t : Member) (name : string) : bool :=
  match t with
  | Own s => String.eqb s name
  | FromPrototype _ => false
  end.

(** [WebflowNode]: an element node, or a text node (which has [text: true]
    and an empty [children] array). *)
Inductive WebflowNode : Type :=
  | ElementNode (_id : string) (classes : list string) (type : Member)
                (tag : string) (data : list (string * Json)) (children : list string)
  | TextNode (_id : string) (v : string).

Definition node_id (n : WebflowNode) : string :=
  match n with
  | ElementNode i _ _ _ _ _ => i
  | TextNode i _ => i
  end.

Definition node_children (n : WebflowNode) : list string :=
  match n with
  | ElementNode _ _ _ _ _ cs => cs
  | TextNode _ _ => []
  end.

Definition is_text (n : WebflowNode) : bool :=
  match n with
  | TextNode _ _ => true
  | ElementNode _ _ _ _ _ _ => false
  end.

(** [webflowNode.children = childIds] *)
Definition set_children (cs : list string) (n : WebflowNode) : WebflowNode :=
  match n with
  | ElementNode i cl ty tg d _ => ElementNode i cl ty tg d cs
  | TextNode i v => TextNode i v
  end.

(** ** The DOM that [htmlparser2] hands to the compiler *)

(** An element has a name, its attributes (the entries of the [attribs]
    object, in the order [Object.entries] lists them) and child nodes; the
    other nodes are text, or something that is neither an [Element] nor a
    [Text] (comment, directive, CDATA section). *)
Inductive Element : Type :=
  | mkElement (name : string) (attribs : list (string * string)) (children : list DomNode)
with DomNode : Type :=
  | NElement (e : Element)
  | NText (data : string)
  | NOther.

Definition name (e : Element) : string :=
  match e with mkElement n _ _ => n end.
Definition attribs (e : Element) : list (string * string) :=
  match e with mkElement _ a _ => a end.
Definition children (e : Element) : list DomNode :=
  match e with mkElement _ _ c => c end.

(** [element.attribs[key]] *)
Definition attr (e : Element) (key : string) : option string :=
  assoc key (attribs e).

(** [x || d] for a string or [undefined] *)
Definition or_else (x : option string) (d : string) : string :=
  match x with
  | Some s => if String.eqb s "" then d else s
  | None => d
  end.

(** [x !== undefined] *)
Definition defined (x : option string) : bool :=
  match x with Some _ => true | None => false end.

(** ** lib/html-parser.ts *)

Definition TAG_TO_TYPE_MAP : list (string * string) :=
  [ ("div", "Block"); ("section", "Section"); ("article", "Block");
    ("aside", "Block"); ("nav", "Block"); ("header", "Block");
    ("footer", "Block"); ("main", "Block");
    ("h1", "Heading"); ("h2", "Heading"); ("h3", "Heading");
    ("h4", "Heading"); ("h5", "Heading"); ("h6", "Heading");
    ("p", "Paragraph"); ("span", "Block"); ("strong", "Block");
    ("em", "Block"); ("b", "Block"); ("i", "Block");
    ("a", "Link");
    ("img", "Image");
    ("ul", "List"); ("ol", "List"); ("li", "ListItem");
    ("form", "FormForm"); ("input", "FormTextInput"); ("button", "Block");
    ("textarea", "FormTextarea"); ("select", "FormSelect");
    ("label", "FormBlockLabel");
    ("container", "Container") ].

Definition DOCUMENT_STRUCTURE_TAGS : list string :=
  [ "html"; "head"; "body"; "title"; "meta"; "link"; "script"; "style"; "base" ].

Definition getWebflowType (tag : string) (element : Element) (insideForm : bool) : Member :=
  if String.eqb tag "input" then
    let inputType :=
      match attr element "type" with
      | Some t => or_else (Some (JS.toLowerCase t)) "text"
      | None => "text"
      end in
    if String.eqb inputType "submit" || String.eqb inputType "button" then
      if insideForm then Own "FormButton" else Own "Block"
    else if String.eqb inputType "radio" then
      if insideForm then Own "FormRadioInput" else Own "Block"
    else if String.eqb inputType "checkbox" then
      if insideForm then Own "FormCheckboxInput" else Own "Block"
    else
      if insideForm then Own "FormTextInput" else Own "Block"
  else if String.eqb tag "textarea" then
    if insideForm then Own "FormTextarea" else Own "Block"
  else if String.eqb tag "select" then
    if insideForm then Own "FormSelect" else Own "Block"
  else if String.eqb tag "label" then
    if insideForm then Own "FormBlockLabel" else Own "Block"
  else
    match table_get TAG_TO_TYPE_MAP tag with
    | Some t => t
    | None => Own "DOM"
    end.

Definition extractClassNames (element : Element) : list string :=
  match attr element "class" with
  | None => []
  | Some classAttr =>
      if String.eqb classAttr "" then []
      else List.filter (fun c => negb (String.length c =? 0)%nat)
             (map JS.trim (JS.split_ws classAttr))
  end.

Definition extractAttributes (element : Element) (tag : string) : list (string * Json) :=
  let a := attr element in
  let attributes := [("id", JStr (or_else (a "id") ""))] in
  if String.eqb tag "img" then
    let attributes := obj_set "width" (JStr (or_else (a "width") "auto")) attributes in
    let attributes := obj_set "height" (JStr (or_else (a "height") "auto")) attributes in
    let attributes := obj_set "alt" (JStr (or_else (a "alt") "")) attributes in
    let attributes := obj_set "src" (JStr (or_else (a "src") "")) attributes in
    let loadingAttr := a "loading" in
    obj_set "loading"
      (JStr (if decide (loadingAttr = Some "eager") then "eager" else "lazy")) attributes
  else if String.eqb tag "a" then
    attributes
  else if String.eqb tag "form" then
    let attributes := obj_set "name" (JStr (or_else (a "name") "")) attributes in
    let attributes :=
      obj_set "data-name" (JStr (or_else (a "data-name") (or_else (a "name") ""))) attributes in
    let attributes := obj_set "action" (JStr (or_else (a "action") "")) attributes in
    let attributes := obj_set "method" (JStr (or_else (a "method") "get")) attributes in
    let attributes := obj_set "redirect" (JStr (or_else (a "redirect") "")) attributes in
    obj_set "data-redirect" (JStr (or_else (a "data-redirect") "")) attributes
  else if String.eqb tag "input" then
    let inputType := or_else (a "type") "text" in
    let attributes := obj_set "type" (JStr inputType) attributes in
    let attributes := obj_set "name" (JStr (or_else (a "name") "")) attributes in
    let attributes :=
      obj_set "data-name" (JStr (or_else (a "data-name") (or_else (a "name") ""))) attributes in
    let attributes := obj_set "placeholder" (JStr (or_else (a "placeholder") "")) attributes in
    let attributes := obj_set "required" (JBool (defined (a "required"))) attributes in
    let attributes := obj_set "disabled" (JBool (defined (a "disabled"))) attributes in
    let attributes := obj_set "autofocus" (JBool (defined (a "autofocus"))) attributes in
    if String.eqb inputType "submit" || String.eqb inputType "button" then
      let attributes := obj_set "value" (JStr (or_else (a "value") "Submit")) attributes in
      obj_set "data-wait" (JStr (or_else (a "data-wait") "Please wait...")) attributes
    else if String.eqb inputType "radio" || String.eqb inputType "checkbox" then
      let attributes := obj_set "value" (JStr (or_else (a "value") "")) attributes in
      obj_set "checked" (JBool (defined (a "checked"))) attributes
    else
      obj_set "maxlength" (JNum (JS.number_or (JS.parseInt_arg (a "maxlength")) 256)) attributes
  else if String.eqb tag "textarea" then
    let attributes := obj_set "name" (JStr (or_else (a "name") "")) attributes in
    let attributes :=
      obj_set "data-name" (JStr (or_else (a "data-name") (or_else (a "name") ""))) attributes in
    let attributes := obj_set "placeholder" (JStr (or_else (a "placeholder") "")) attributes in
    let attributes := obj_set "required" (JBool (defined (a "required"))) attributes in
    let attributes := obj_set "autofocus" (JBool (defined (a "autofocus"))) attributes in
    obj_set "maxlength" (JNum (JS.number_or (JS.parseInt_arg (a "maxlength")) 5000)) attributes
  else if String.eqb tag "select" then
    let attributes := obj_set "name" (JStr (or_else (a "name") "")) attributes in
    let attributes :=
      obj_set "data-name" (JStr (or_else (a "data-name") (or_else (a "name") ""))) attributes in
    let attributes := obj_set "required" (JBool (defined (a "required"))) attributes in
    obj_set "multiple" (JBool (defined (a "multiple"))) attributes
  else if String.eqb tag "button" then
    obj_set "type" (JStr (or_else (a "type") "button")) attributes
  else if String.eqb tag "label" then
    obj_set "for" (JStr (or_else (a "for") "")) attributes
  else attributes.

(** The [switch (type)] of [getTypeSpecificData]; a value inherited from
    [Object.prototype] matches no case. *)
Definition getTypeSpecificData (element : Element) (tag : string) (type : Member)
  : list (string * Json) :=
  let a := attr element in
  let form (fields : list (string * Json)) := ("form", JObj fields) in
  match type with
  | FromPrototype _ => []
  | Own ty =>
      if String.eqb ty "Link" then
        [ ("button", JBool (match a "class" with
                            | Some c => JS.includes "button" c
                            | None => false
                            end));
          ("block", JStr "");
          ("link", JObj [ ("mode", JStr (match a "href" with
                                         | Some h => if JS.startsWith "http" h
                                                     then "external" else "internal"
                                         | None => "internal"
                                         end));
                          ("url", JStr (or_else (a "href") "#")) ]);
          ("eventIds", JArr []) ]
      else if String.eqb ty "Image" then
        [ ("img", JObj [("id", JStr "")]);
          ("srcsetDisabled", JBool false);
          ("sizes", JArr []) ]
      else if String.eqb ty "Grid" then
        [ ("grid", JStr "two-by-two") ]
      else if String.eqb ty "FormWrapper" then
        [ form [("type", JStr "wrapper")] ]
      else if String.eqb ty "FormForm" then
        [ form [ ("type", JStr "form");
                 ("name", JStr (or_else (a "name") (or_else (a "id") "Form"))) ];
          ("Source", JObj [("tag", JStr "Default form"); ("val", JObj [])]) ]
      else if String.eqb ty "FormButton" then
        [ ("style", JObj [("base", JObj [("main", JObj [("noPseudo",
             JObj [("justifySelf", JStr "start")])])])]);
          form [("type", JStr "button")];
          ("eventIds", JArr []) ]
      else if String.eqb ty "FormTextInput" then
        [ form [ ("type", JStr "input");
                 ("name", JStr (or_else (a "name") (or_else (a "id") "Field")));
                 ("passwordPage", JBool false) ] ]
      else if String.eqb ty "FormTextarea" then
        [ form [ ("type", JStr "textarea");
                 ("name", JStr (or_else (a "name") (or_else (a "id") "Message"))) ] ]
      else if String.eqb ty "FormSelect" then
        [ form [ ("type", JStr "select");
                 ("opts", JArr [ JObj [("v", JStr ""); ("t", JStr "Select one...")];
                                 JObj [("v", JStr "Option 1"); ("t", JStr "Option 1")] ]);
                 ("name", JStr (or_else (a "name") (or_else (a "id") "Select"))) ] ]
      else if String.eqb ty "FormBlockLabel" then
        [ form [("type", JStr "label"); ("passwordPage", JBool false)] ]
      else if String.eqb ty "FormInlineLabel" then
        [ form [("type", JStr "radio-label")] ]
      else if String.eqb ty "FormRadioInput" then
        [ form [ ("type", JStr "radio-input");
                 ("name", JStr (or_else (a "name") "Radio")) ];
          ("inputType", JStr "custom") ]
      else if String.eqb ty "FormCheckboxInput" then
        [ form [ ("type", JStr "checkbox-input");
                 ("name", JStr (or_else (a "name") "Checkbox")) ];
          ("inputType", JStr "custom") ]
      else if String.eqb ty "FormRadioWrapper" then
        [ form [("type", JStr "radio")] ]
      else if String.eqb ty "FormCheckboxWrapper" then
        [ form [("type", JStr "checkbox")] ]
      else if String.eqb ty "FormSuccessMessage" then
        [ form [("type", JStr "msg-done")] ]
      else if String.eqb ty "FormErrorMessage" then
        [ form [("type", JStr "msg-fail")] ]
      else []
  end.

(** The k-th identifier that [uuidv4()] returns in a run. *)
Definition uuidv4 (k : nat) : string := "uuid-" +:+ pretty k.

(** The state of one compilation: how many identifiers were drawn so far in
    the run, and the [allNodes] array. *)
Record CompileState : Type := mkState {
  drawn : nat;
  allNodes : list WebflowNode
}.

(** The two branches of [processElement] that build [dataObject]: the data
    of a custom element (type [DOM]) and of a standard element. *)
Definition domData (element : Element) (tag : string) : list (string * Json) :=
  let htmlAttributes :=
    map (fun nv => JObj [ ("name", JStr (fst nv));
                          ("value", JStr (or_else (Some (snd nv)) " ")) ])
        (List.filter (fun nv => negb (String.eqb (fst nv) "class")
                                && negb (String.eqb (fst nv) "id"))
                     (attribs element)) in
  [ ("editable", JBool true); ("tag", JStr tag); ("attributes", JArr htmlAttributes) ].

Definition formTypes : list string :=
  [ "FormWrapper"; "FormForm"; "FormButton"; "FormTextInput"; "FormTextarea";
    "FormSelect"; "FormBlockLabel"; "FormInlineLabel"; "FormRadioWrapper";
    "FormRadioInput"; "FormCheckboxWrapper"; "FormCheckboxInput";
    "FormSuccessMessage"; "FormErrorMessage" ].

(** [list.includes(type)] *)
Definition type_in (type : Member) (l : list string) : bool :=
  existsb (is_type type) l.

Definition standardData (attributes : list (string * Json)) (element : Element)
    (tag : string) (type : Member) : list (string * Json) :=
  let dataObject := [ ("attr", JObj attributes); ("xattr", JArr []) ] in
  let needsTextAndTag := type_in type ["Block"; "Section"; "Container"] in
  let needsTagOnly := type_in type ["Heading"] in
  let dataObject :=
    if needsTextAndTag then
      obj_set "tag" (JStr tag) (obj_set "text" (JBool false) dataObject)
    else if needsTagOnly then
      obj_set "tag" (JStr tag) dataObject
    else dataObject in
  let typeSpecificData := getTypeSpecificData element tag type in
  let dataObject := obj_assign dataObject typeSpecificData in
  let dataObject :=
    obj_set "devlink" (JObj [("runtimeProps", JObj []); ("slot", JStr "")]) dataObject in
  let dataObject := obj_set "displayName" (JStr "") dataObject in
  let dataObject :=
    obj_set "search" (JObj [("exclude", JBool (is_type type "FormWrapper"))]) dataObject in
  obj_set "visibility" (JObj [("conditions", JArr [])]) dataObject.

Definition createTextNode (text : string) (st : CompileState) : string * CompileState :=
  let textNodeId := uuidv4 (drawn st) in
  let textNode := TextNode textNodeId text in
  (textNodeId, mkState (S (drawn st)) (allNodes st ++ [textNode])).

(** The loop over [element.children] in [processElement]; [process] is the
    recursive call on a child element. *)
Definition process_children (process : Element -> CompileState -> string * CompileState)
  : list DomNode -> list string -> CompileState -> list string * CompileState :=
  fix each (cs : list DomNode) (childIds : list string) (st : CompileState) :=
    match cs with
    | [] => (childIds, st)
    | NElement child :: cs' =>
        let '(childId, st) := process child st in
        each cs' (childIds ++ [childId]) st
    | NText data :: cs' =>
        let textContent := JS.trim data in
        if (0 <? String.length textContent)%nat then
          let '(textNodeId, st) := createTextNode textContent st in
          each cs' (childIds ++ [textNodeId]) st
        else each cs' childIds st
    | NOther :: cs' => each cs' childIds st
    end.

(** [processElement]: the node is pushed with an empty [children] array,
    the children are processed, and the array of the pushed object is then
    replaced; the object sits at the index it was pushed at. *)
Fixpoint processElement (element : Element) (classToIdMap : gmap string string)
    (insideForm : bool) (st : CompileState) {struct element} : string * CompileState :=
  match element with
  | mkElement element_name _ element_children =>
      let nodeId := uuidv4 (drawn st) in
      let tag := JS.toLowerCase element_name in
      let type := getWebflowType tag element insideForm in
      let classNames := extractClassNames element in
      let classUUIDs := omap (fun className => classToIdMap !! className) classNames in
      let attributes := extractAttributes element tag in
      let dataObject :=
        if is_type type "DOM" then domData element tag
        else standardData attributes element tag type in
      let webflowNode :=
        ElementNode nodeId classUUIDs type
                    (if is_type type "DOM" then "div" else tag) dataObject [] in
      let index := length (allNodes st) in
      let st := mkState (S (drawn st)) (allNodes st ++ [webflowNode]) in
      let childrenInsideForm := String.eqb tag "form" || insideForm in
      let '(childIds, st) :=
        process_children
          (fun child st => processElement child classToIdMap childrenInsideForm st)
          element_children [] st in
      (nodeId, mkState (drawn st) (alter (set_children childIds) index (allNodes st)))
  end.

(** [extractContentElements]: [traverse] pushes to [contentElements]. *)
Fixpoint traverse (node : Element) (contentElements : list Element) {struct node}
  : list Element :=
  match node with
  | mkElement node_name _ node_children =>
      let tag := JS.toLowerCase node_name in
      if String.eqb tag "body" then
        fold_left
          (fun acc child =>
             match child with
             | NElement c =>
                 let childTag := JS.toLowerCase (name c) in
                 if negb (String.eqb childTag "script") && negb (String.eqb childTag "style")
                 then acc ++ [c] else acc
             | _ => acc
             end) node_children contentElements
      else if mem tag DOCUMENT_STRUCTURE_TAGS then
        (fix each (cs : list DomNode) (acc : list Element) : list Element :=
           match cs with
           | [] => acc
           | NElement c :: cs' => each cs' (traverse c acc)
           | _ :: cs' => each cs' acc
           end) node_children contentElements
      else contentElements ++ [node]
  end.

Definition extractContentElements (dom : list DomNode) : list Element :=
  fold_left
    (fun acc child =>
       match child with
       | NElement e => traverse e acc
       | _ => acc
       end) dom [].

Record CompileHTMLResult : Type := mkResult {
  nodes : list WebflowNode;
  rootNodeIds : list string
}.

Section Compiler.

(** [htmlparser2.parseDocument(htmlString, options).children] *)
Variable parseDocument : string -> list DomNode.

Definition compileHTMLToNodes (drawn : nat) (htmlString : string)
    (classToIdMap : gmap string string) : CompileHTMLResult :=
  let dom := parseDocument htmlString in
  let contentElements := extractContentElements dom in
  let '(rootNodeIds, st) :=
    fold_left
      (fun acc element =>
         let '(rootNodeIds, st) := acc in
         let '(nodeId, st) := processElement element classToIdMap false st in
         if String.eqb nodeId "" then (rootNodeIds, st)
         else (rootNodeIds ++ [nodeId], st))
      contentElements ([], mkState drawn []) in
  mkResult (allNodes st) rootNodeIds.

End Compiler.

(** *** The chunker *)

Record WebflowChunk : Type := mkChunk {
  label : Member;
  chunk_nodes : list WebflowNode;
  nodeCount : nat
}.

(** [nodes.find((n) => n._id === nodeId)] *)
Definition find_node (nodes : list WebflowNode) (nodeId : string) : option WebflowNode :=
  List.find (fun n => String.eqb (node_id n) nodeId) nodes.

(** The two recursive helpers take the call depth that is left; running out
    of it is the [RangeError] of a recursion that does not end. *)
Fixpoint countNodesInSubtree (depth : nat) (nodes : list WebflowNode) (nodeId : string)
  : option nat :=
  match depth with
  | O => None
  | S depth =>
      match find_node nodes nodeId with
      | None => Some 0
      | Some node =>
          fold_left
            (fun count childId =>
               c ← count; k ← countNodesInSubtree depth nodes childId; Some (c + k))
            (node_children node) (Some 1)
      end
  end.

Fixpoint collectSubtreeNodes (depth : nat) (nodes : list WebflowNode) (nodeId : string)
    (collected : gset string) : option (gset string) :=
  match depth with
  | O => None
  | S depth =>
      let collected := {[ nodeId ]} ∪ collected in
      match find_node nodes nodeId with
      | None => Some collected
      | Some node =>
          fold_left
            (fun acc childId => c ← acc; collectSubtreeNodes depth nodes childId c)
            (node_children node) (Some collected)
      end
  end.

Definition labelMap : list (string * string) :=
  [ ("header", "Header"); ("nav", "Navigation"); ("section", "Section");
    ("footer", "Footer"); ("main", "Main Content"); ("article", "Article");
    ("aside", "Sidebar"); ("form", "Form") ].

Definition getNodeLabel (nodes : list WebflowNode) (nodeId : string) : Member :=
  match find_node nodes nodeId with
  | None | Some (TextNode _ _) => Own "Content"
  | Some (ElementNode _ _ _ tag _ _) =>
      default (Own "Content") (table_get labelMap (JS.toLowerCase tag))
  end.

(** The variables of the loop of [splitIntoChunks]. *)
Record ChunkState : Type := mkChunkState {
  chunks : list WebflowChunk;
  currentChunkNodes : gset string;
  currentChunkRoots : list string;
  chunkIndex : nat
}.

(** [nodes.filter((n) => currentChunkNodes.has(n._id))] *)
Definition chunk_of (nodes : list WebflowNode) (ids : gset string) : list WebflowNode :=
  List.filter (fun n => bool_decide (node_id n ∈ ids)) nodes.

Definition chunk_label (nodes : list WebflowNode) (roots : list string) (otherwise : string)
  : Member :=
  match roots with
  | [root] => getNodeLabel nodes root
  | _ => Own otherwise
  end.

Definition chunk_step (depth : nat) (nodes : list WebflowNode) (maxNodesPerChunk : Z)
    (st : ChunkState) (rootId : string) : option ChunkState :=
  subtreeSize ← countNodesInSubtree depth nodes rootId;
  let st :=
    if (0 <? size (currentChunkNodes st))%nat
       && (maxNodesPerChunk <? Z.of_nat (size (currentChunkNodes st) + subtreeSize))%Z
    then
      let chunkNodes := chunk_of nodes (currentChunkNodes st) in
      let label :=
        chunk_label nodes (currentChunkRoots st) ("Chunk " +:+ pretty (chunkIndex st)) in
      mkChunkState (chunks st ++ [mkChunk label chunkNodes (length chunkNodes)])
                   ∅ [] (S (chunkIndex st))
    else st in
  collected ← collectSubtreeNodes depth nodes rootId (currentChunkNodes st);
  Some (mkChunkState (chunks st) collected (currentChunkRoots st ++ [rootId]) (chunkIndex st)).

Definition splitIntoChunks (depth : nat) (nodes : list WebflowNode) (rootNodeIds : list string)
    (maxNodesPerChunk : Z) : option (list WebflowChunk) :=
  st ← fold_left (fun acc rootId => st ← acc; chunk_step depth nodes maxNodesPerChunk st rootId)
         rootNodeIds (Some (mkChunkState [] ∅ [] 1));
  if (0 <? size (currentChunkNodes st))%nat then
    let chunkNodes := chunk_of nodes (currentChunkNodes st) in
    let label :=
      chunk_label nodes (currentChunkRoots st)
        (if (chunkIndex st =? 1)%nat then "Complete Page"
         else "Chunk " +:+ pretty (chunkIndex st)) in
    Some (chunks st ++ [mkChunk label chunkNodes (length chunkNodes)])
  else Some (chunks st).

(** ** lib/css-parser.ts *)

Record CSSRule : Type := mkRule {
  selector : string;
  properties : list string
}.

(** [WebflowStyle]; [variants] maps a breakpoint to the [styleLess] of its
    variant, in insertion order. *)
Record WebflowStyle : Type := mkStyle {
  _id : string;
  fake : bool;
  type : string;
  style_name : string;
  namespace : string;
  comb : string;
  styleLess : string;
  variants : list (string * string);
  style_children : list string;
  origin : option string;
  style_selector : option string
}.

Record ParsedCSSResult : Type := mkParsed {
  classToIdMap : gmap string string;
  styles : list WebflowStyle;
  customCSS : option string
}.

(** [/\/\*[\s\S]*?\*\//]: from an opening mark to the first closing mark
    after it. *)
Definition match_comment (s : string) : option (nat * unit) :=
  if JS.startsWith "/*" s then
    match JS.indexOf "*/" (JS.drop 2 s) 0 with
    | Some j => Some (2 + j + 2, tt)
    | None => None
    end
  else None.

(** [cssString.replace(/\/\*[\s\S]*?\*\//g, "")] *)
Definition removeComments (cssString : string) : string :=
  Regex.replace_all match_comment (fun _ => "") cssString.

(** [/([^{]+)\{([^}]+)\}/]: both groups are maximal runs, since a shorter
    run is followed by a character of the run and not by the brace. *)
Definition match_rule (s : string) : option (nat * (string * string)) :=
  let '(g1, r1) := Regex.span (Regex.is_not "{") s in
  match g1, r1 with
  | String _ _, String _ r2 =>
      let '(g2, r3) := Regex.span (Regex.is_not "}") r2 in
      match g2, r3 with
      | String _ _, String _ _ =>
          Some (String.length g1 + 1 + String.length g2 + 1, (g1, g2))
      | _, _ => None
      end
  | _, _ => None
  end.

Definition nonempty (s : string) : bool := (0 <? String.length s)%nat.

Definition parseCSSRules (cssString : string) : list CSSRule :=
  let cleanedCSS := removeComments cssString in
  map (fun m : string * string =>
         let selector := JS.trim (fst m) in
         let propertiesBlock := JS.trim (snd m) in
         let properties :=
           List.filter nonempty (map JS.trim (JS.split ";" propertiesBlock)) in
         mkRule selector properties)
      (Regex.exec_all match_rule cleanedCSS).

Definition findRuleForClass (rules : list CSSRule) (className : string) : option CSSRule :=
  let targetSelector := "." +:+ className in
  List.find
    (fun rule =>
       String.eqb (selector rule) targetSelector
       || JS.startsWith (targetSelector +:+ " ") (selector rule)
       || JS.startsWith (targetSelector +:+ ":") (selector rule)
       || JS.startsWith (targetSelector +:+ ".") (selector rule))
    rules.

(** [prop.replace(/[{}]/g, "")] *)
Fixpoint remove_braces (s : string) : string :=
  match s with
  | "" => ""
  | String c r =>
      if ascii_dec c "{" then remove_braces r
      else if ascii_dec c "}" then remove_braces r
      else String c (remove_braces r)
  end.

(** [/\s*:\s*/] anchored: white space, a colon, white space; gives the text
    after the match. *)
Definition match_colon (s : string) : option string :=
  match JS.trimStart s with
  | String ":" r => Some (JS.trimStart r)
  | _ => None
  end.

(** [prop.replace(/\s*:\s*/, ": ")]: the first match only. *)
Fixpoint space_colon (s : string) : string :=
  match match_colon s with
  | Some rest => ": " +:+ rest
  | None =>
      match s with
      | "" => ""
      | String c r => String c (space_colon r)
      end
  end.

(** [prop.replace(/;$/, "")] *)
Fixpoint remove_final_semicolon (s : string) : string :=
  match s with
  | "" => ""
  | String ";" "" => ""
  | String c r => String c (remove_final_semicolon r)
  end.

Definition convertToStyleLess (properties : list string) : string :=
  let cleaned :=
    map (fun prop =>
           remove_final_semicolon (space_colon (remove_braces (JS.trim prop))))
        properties in
  JS.join "; " (List.filter nonempty cleaned).

(** The loop of [extractCSSVariables] that counts braces, over the text
    from [currentPos] on; it stops at the brace that brings the count to
    zero. *)
Fixpoint find_close (s : string) (braceCount currentPos : nat) : option nat :=
  match s with
  | "" => None
  | String c r =>
      let braceCount := if ascii_dec c "{" then S braceCount else braceCount in
      let braceCount := if ascii_dec c "}" then pred braceCount else braceCount in
      if (braceCount =? 0)%nat then Some currentPos
      else find_close r braceCount (S currentPos)
  end.

(** [/--([\w-]+)\s*:\s*([^;]+);/]: name and value. *)
Definition match_variable (s : string) : option (nat * (string * string)) :=
  if JS.startsWith "--" s then
    let '(name, r1) := Regex.span JS.is_word_dash (JS.drop 2 s) in
    let '(ws, r2) := Regex.span JS.is_ws r1 in
    match name, r2 with
    | String _ _, String ":" r3 =>
        let '(all, r4) := Regex.span (Regex.is_not ";") r3 in
        match all, r4 with
        | String _ _, String _ _ =>
            Some (2 + String.length name + String.length ws + 1
                  + String.length all + 1,
                  (name, Regex.group_after_ws all))
        | _, _ => None
        end
    | _, _ => None
    end
  else None.

Definition extractCSSVariables (cssString : string) : gmap string string :=
  let cleanedCSS := removeComments cssString in
  match JS.indexOf ":root" cleanedCSS 0 with
  | None => ∅
  | Some rootStart =>
      match JS.indexOf "{" cleanedCSS rootStart with
      | None => ∅
      | Some openBrace =>
          match find_close (JS.drop (openBrace + 1) cleanedCSS) 1 (openBrace + 1) with
          | None => ∅
          | Some closeBrace =>
              let rootContent := JS.substring (openBrace + 1) closeBrace cleanedCSS in
              fold_left
                (fun variables m =>
                   <[ JS.trim (fst m) := JS.trim (snd m) ]> variables)
                (Regex.exec_all match_variable rootContent) ∅
          end
      end
  end.

(** [/var\(\s*--([\w-]+)\s*(?:,\s*([^)]+))?\)/]: the matched text, the name
    and the fallback. *)
Definition match_var (s : string) : option (nat * (string * string * option string)) :=
  if JS.startsWith "var(" s then
    let '(ws1, r1) := Regex.span JS.is_ws (JS.drop 4 s) in
    if JS.startsWith "--" r1 then
      let '(name, r2) := Regex.span JS.is_word_dash (JS.drop 2 r1) in
      let '(ws2, r3) := Regex.span JS.is_ws r2 in
      let before := 4 + String.length ws1 + 2 + String.length name + String.length ws2 in
      match name, r3 with
      | String _ _, String ")" _ =>
          Some (before + 1, (JS.take (before + 1) s, name, None))
      | String _ _, String "," r4 =>
          let '(all, r5) := Regex.span (Regex.is_not ")") r4 in
          match all, r5 with
          | String _ _, String _ _ =>
              let len := before + 1 + String.length all + 1 in
              Some (len, (JS.take len s, name, Some (Regex.group_after_ws all)))
          | _, _ => None
          end
      | _, _ => None
      end
    else None
  else None.

(** [resolveCSSVariables]; [depth] is the call depth that is left, and
    [None] the [RangeError] of running out of it. *)
Fixpoint resolveCSSVariables (depth : nat) (property : string)
    (variables : gmap string string) : option string :=
  match depth with
  | O => None
  | S depth =>
      fold_right
        (fun piece rest =>
           out ← rest;
           match piece with
           | inl c => Some (String c out)
           | inr (matched, varName, fallback) =>
               replacement ←
                 match variables !! varName with
                 | Some value =>
                     if JS.includes "var(" value
                     then resolveCSSVariables depth value variables
                     else Some value
                 | None =>
                     match fallback with
                     | Some f => if nonempty f then Some (JS.trim f) else Some matched
                     | None => Some matched
                     end
                 end;
               Some (replacement +:+ out)
           end)
        (Some "") (Regex.scan match_var property)
  end.

Definition newline : ascii := ascii_of_nat 10.

(** [/@media\s*([^{]+)\{([\s\S]*?)\n\}/]: the condition, and the content up
    to the first closing brace that directly follows a line break. *)
Definition match_media (s : string) : option (nat * (string * string)) :=
  if JS.startsWith "@media" s then
    let '(all, r1) := Regex.span (Regex.is_not "{") (JS.drop 6 s) in
    match all, r1 with
    | String _ _, String _ r2 =>
        match JS.indexOf (String newline "}") r2 0 with
        | Some j =>
            Some (6 + String.length all + 1 + j + 2,
                  (Regex.group_after_ws all, JS.take j r2))
        | None => None
        end
    | _, _ => None
    end
  else None.

Definition mapMediaQueryToBreakpoint (mediaCondition : string) : option string :=
  let condition := JS.toLowerCase mediaCondition in
  if JS.includes "max-width" condition then
    if JS.includes "479px" condition || JS.includes "480px" condition then Some "tiny"
    else if JS.includes "767px" condition || JS.includes "768px" condition then Some "small"
    else if JS.includes "991px" condition || JS.includes "992px" condition then Some "medium"
    else None
  else None.

Definition parseMediaQueries (cssString : string) : list (string * list CSSRule) :=
  let cleanedCSS := removeComments cssString in
  fold_left
    (fun mediaQueries m =>
       let mediaCondition := JS.trim (fst m) in
       let mediaContent := snd m in
       match mapMediaQueryToBreakpoint mediaCondition with
       | Some breakpoint => obj_set breakpoint (parseCSSRules mediaContent) mediaQueries
       | None => mediaQueries
       end)
    (Regex.exec_all match_media cleanedCSS) [].

(** [/@media[^{]+\{[\s\S]*?\n\}/] and [/@keyframes[^{]+\{[\s\S]*?\n\}/]:
    the matched text. *)
Definition match_at_rule (keyword : string) (s : string) : option (nat * string) :=
  if JS.startsWith keyword s then
    let '(all, r1) := Regex.span (Regex.is_not "{") (JS.drop (String.length keyword) s) in
    match all, r1 with
    | String _ _, String _ r2 =>
        match JS.indexOf (String newline "}") r2 0 with
        | Some j =>
            let len := String.length keyword + String.length all + 1 + j + 2 in
            Some (len, JS.take len s)
        | None => None
        end
    | _, _ => None
    end
  else None.

Definition pseudo_selectors : list string :=
  [ ":hover"; ":focus"; ":active"; ":visited"; ":disabled"; "::before"; "::after";
    "::placeholder"; ":first-child"; ":last-child"; ":nth-child" ].

(** The character class of the first group of the pseudo-selector regex:
    dot, hash, word characters, dash, white space, comma, the combinators,
    square brackets, the equals sign, both quotes and the colon. *)
Definition is_selector_char (c : ascii) : bool :=
  JS.is_word_dash c || JS.is_ws c
  || existsb (fun x => if ascii_dec c x then true else false)
       [ "."; "#"; ","; ">"; "+"; "~"; "["; "]"; "="; ascii_of_nat 34; "'"; ":" ]%char.

(** The rest of the pseudo-selector regex once the first group has taken
    [k] characters: a pseudo selector, any characters up to an opening
    brace, and a non-empty body up to the closing brace. *)
Definition match_pseudo_at (k : nat) (s : string) : option (nat * string) :=
  let rest := JS.drop k s in
  match List.find (fun alt => JS.startsWith alt rest) pseudo_selectors with
  | None => None
  | Some alt =>
      let '(g3, r1) := Regex.span (Regex.is_not "{") (JS.drop (String.length alt) rest) in
      match r1 with
      | String _ r2 =>
          let '(g4, r3) := Regex.span (Regex.is_not "}") r2 in
          match g4, r3 with
          | String _ _, String _ _ =>
              let selector := JS.trim (JS.take k s) +:+ alt +:+ g3 in
              Some (k + String.length alt + String.length g3 + 1 + String.length g4 + 1,
                    selector +:+ " {" +:+ String newline g4 +:+ String newline "}")
          | _, _ => None
          end
      | "" => None
      end
  end.

(** The greedy first group gives characters back one at a time. *)
Fixpoint match_pseudo_upto (k : nat) (s : string) : option (nat * string) :=
  match k with
  | O => None
  | S k' =>
      match match_pseudo_at k s with
      | Some m => Some m
      | None => match_pseudo_upto k' s
      end
  end.

Definition match_pseudo (s : string) : option (nat * string) :=
  let '(g1, _) := Regex.span is_selector_char s in
  match_pseudo_upto (String.length g1) s.

Definition extractAdvancedCSS (cssString : string) : string :=
  let cleanedCSS := removeComments cssString in
  let advancedCSS :=
    Regex.exec_all (match_at_rule "@media") cleanedCSS
    ++ Regex.exec_all (match_at_rule "@keyframes") cleanedCSS
    ++ Regex.exec_all match_pseudo cleanedCSS in
  JS.join (String newline (String newline "")) advancedCSS.

Definition classStyle (uuid className styleLess : string) (variants : list (string * string))
  : WebflowStyle :=
  mkStyle uuid false "class" className "" "" styleLess variants [] None None.

(** [parseCSSToWebflow]; [drawn] is the number of identifiers drawn before
    the call, [depth] the call depth that is left for
    [resolveCSSVariables].  The loop over [classNames] carries the number of
    identifiers drawn, the map and the styles. *)
Definition parseCSSToWebflow (depth drawn : nat) (cssString : string)
    (classNames : list string) : option ParsedCSSResult :=
  let cssVariables := extractCSSVariables cssString in
  let cssRules := parseCSSRules cssString in
  '(_, classToIdMap, styles) ←
    fold_left
      (fun acc className =>
         '(drawn, classToIdMap, styles) ← acc;
         let uuid := uuidv4 drawn in
         let classToIdMap := <[ className := uuid ]> classToIdMap in
         match findRuleForClass cssRules className with
         | Some rule =>
             resolvedProperties ←
               mapM (fun prop => resolveCSSVariables depth prop cssVariables)
                    (properties rule);
             let styleLess := convertToStyleLess resolvedProperties in
             Some (S drawn, classToIdMap, styles ++ [classStyle uuid className styleLess []])
         | None =>
             Some (S drawn, classToIdMap, styles ++ [classStyle uuid className "" []])
         end)
      classNames (Some (drawn, ∅, []));
  let customCSS := extractAdvancedCSS cssString in
  Some (mkParsed classToIdMap styles (Some customCSS)).

Definition parseCSSWithMediaQueries (depth drawn : nat) (cssString : string)
    (classNames : list string) : option ParsedCSSResult :=
  let cssVariables := extractCSSVariables cssString in
  let baseCSSRules := parseCSSRules cssString in
  let mediaQueries := parseMediaQueries cssString in
  let resolved (rule : CSSRule) : option string :=
    convertToStyleLess <$>
      mapM (fun prop => resolveCSSVariables depth prop cssVariables) (properties rule) in
  '(_, classToIdMap, styles) ←
    fold_left
      (fun acc className =>
         '(drawn, classToIdMap, styles) ← acc;
         let uuid := uuidv4 drawn in
         let classToIdMap := <[ className := uuid ]> classToIdMap in
         baseStyleLess ←
           match findRuleForClass baseCSSRules className with
           | Some baseRule => resolved baseRule
           | None => Some ""
           end;
         variants ←
           fold_left
             (fun acc entry =>
                variants ← acc;
                match findRuleForClass (snd entry) className with
                | Some variantRule =>
                    styleLess ← resolved variantRule;
                    Some (obj_set (fst entry) styleLess variants)
                | None => Some variants
                end)
             mediaQueries (Some []);
         Some (S drawn, classToIdMap,
               styles ++ [classStyle uuid className baseStyleLess variants]))
      classNames (Some (drawn, ∅, []));
  Some (mkParsed classToIdMap styles None).

(** * Properties *)

(** ** The compiled nodes as the pre-order flattening of a tree

    [processElement] pushes a node and patches its [children] afterwards.
    Its effect is described without state: the tree of the nodes that an
    element gives rise to, laid out in pre-order with consecutive
    identifiers. *)

Inductive WTree : Type :=
  | WText (v : string)
  | WElem (element : Element) (insideForm : bool) (kids : list WTree).

Fixpoint tree_size (t : WTree) : nat :=
  match t with
  | WText _ => 1
  | WElem _ _ kids => S (list_sum (map tree_size kids))
  end.

Definition forest_size (ts : list WTree) : nat := list_sum (map tree_size ts).

(** The tree of an element: text children are trimmed and kept when not
    empty; an element child is inside a form when its parent is a form or is
    inside one. *)
Fixpoint tree_of (element : Element) (insideForm : bool) {struct element} : WTree :=
  match element with
  | mkElement element_name _ element_children =>
      let childrenInsideForm :=
        String.eqb (JS.toLowerCase element_name) "form" || insideForm in
      WElem element insideForm
        ((fix each (cs : list DomNode) : list WTree :=
            match cs with
            | [] => []
            | NElement child :: cs' => tree_of child childrenInsideForm :: each cs'
            | NText data :: cs' =>
                if (0 <? String.length (JS.trim data))%nat
                then WText (JS.trim data) :: each cs' else each cs'
            | NOther :: cs' => each cs'
            end) element_children)
  end.

(** The identifiers of the roots of a forest laid out from index [k]. *)
Fixpoint root_ids (k : nat) (ts : list WTree) : list string :=
  match ts with
  | [] => []
  | t :: ts' => uuidv4 k :: root_ids (k + tree_size t) ts'
  end.

(** What [processElement] puts in the node of an element. *)
Definition element_node (element : Element) (classToIdMap : gmap string string)
    (insideForm : bool) (nodeId : string) (childIds : list string) : WebflowNode :=
  let tag := JS.toLowerCase (name element) in
  let type := getWebflowType tag element insideForm in
  let classUUIDs :=
    omap (fun className => classToIdMap !! className) (extractClassNames element) in
  let dataObject :=
    if is_type type "DOM" then domData element tag
    else standardData (extractAttributes element tag) element tag type in
  ElementNode nodeId classUUIDs type (if is_type type "DOM" then "div" else tag)
              dataObject childIds.

Definition flatten_forest (flat : nat -> WTree -> list WebflowNode)
  : nat -> list WTree -> list WebflowNode :=
  fix go (k : nat) (ts : list WTree) :=
    match ts with
    | [] => []
    | t :: ts' => flat k t ++ go (k + tree_size t) ts'
    end.

Fixpoint flatten (classToIdMap : gmap string string) (k : nat) (t : WTree)
  : list WebflowNode :=
  match t with
  | WText v => [TextNode (uuidv4 k) v]
  | WElem element insideForm kids =>
      element_node element classToIdMap insideForm (uuidv4 k) (root_ids (S k) kids)
      :: flatten_forest (flatten classToIdMap) (S k) kids
  end.

(** Induction on an element, with the property available for the element
    children. *)
Definition child_holds (P : Element -> Prop) (c : DomNode) : Prop :=
  match c with
  | NElement e => P e
  | _ => True
  end.

Fixpoint Element_children_ind (P : Element -> Prop)
    (step : forall n a cs, Forall (child_holds P) cs -> P (mkElement n a cs))
    (e : Element) {struct e} : P e :=
  match e with
  | mkElement n a cs =>
      step n a cs
        ((fix go (cs : list DomNode) : Forall (child_holds P) cs :=
            match cs with
            | [] => List.Forall_nil _
            | c :: cs' =>
                List.Forall_cons _ c cs'
                  (match c return child_holds P c with
                   | NElement e' => Element_children_ind P step e'
                   | NText _ => I
                   | NOther => I
                   end)
                  (go cs')
            end) cs)
  end.

(** The same for trees. *)
Fixpoint WTree_kids_ind (P : WTree -> Prop)
    (text : forall v, P (WText v))
    (elem : forall e f kids, Forall P kids -> P (WElem e f kids))
    (t : WTree) {struct t} : P t :=
  match t with
  | WText v => text v
  | WElem e f kids =>
      elem e f kids
        ((fix go (ts : list WTree) : Forall P ts :=
            match ts with
            | [] => List.Forall_nil _
            | t' :: ts' => List.Forall_cons _ t' ts' (WTree_kids_ind P text elem t') (go ts')
            end) kids)
  end.

(** The children loop of [tree_of]. *)
Definition child_trees (childrenInsideForm : bool) : list DomNode -> list WTree :=
  fix each (cs : list DomNode) : list WTree :=
    match cs with
    | [] => []
    | NElement child :: cs' => tree_of child childrenInsideForm :: each cs'
    | NText data :: cs' =>
        if (0 <? String.length (JS.trim data))%nat
        then WText (JS.trim data) :: each cs' else each cs'
    | NOther :: cs' => each cs'
    end.

(** The trees of the root elements of a document. *)
Definition content_trees (dom : list DomNode) : list WTree :=
  map (fun e => tree_of e false) (extractContentElements dom).

(** The identifiers of a node list are the consecutive draws from [k] on. *)
Definition laid_out (k : nat) (nodes : list WebflowNode) : Prop :=
  map node_id nodes = map uuidv4 (seq k (length nodes)).

(** [c] is in the [children] array of the node of [nodes] with identifier
    [p]. *)
Definition child_of (nodes : list WebflowNode) (p c : string) : Prop :=
  exists n, n ∈ nodes /\ node_id n = p /\ c ∈ node_children n.

(** A document with three levels of nesting. *)
Definition dom_nested : list DomNode :=
  [ NElement (mkElement "section" []
      [ NElement (mkElement "div" [] [ NElement (mkElement "p" [] [ NText "deep" ]) ]) ]) ].

(** A string that consists of white space only (the empty string does). *)
Fixpoint whitespace_only (s : string) : bool :=
  match s with
  | "" => true
  | String c r => JS.is_ws c && whitespace_only r
  end.

(** The double quote, and the HTML inputs of the examples. *)
Definition dq : string := String (ascii_of_nat 34) "".

Definition html_blank : string := "<div>   </div>".
Definition dom_blank : list DomNode :=
  [ NElement (mkElement "div" [] [ NText "   " ]) ].

Definition html_hello : string :=
  "<div class=" +:+ dq +:+ "c" +:+ dq +:+ "><p>Hello</p></div>".
Definition dom_hello : list DomNode :=
  [ NElement (mkElement "div" [("class", "c")]
      [ NElement (mkElement "p" [] [ NText "Hello" ]) ]) ].

(** The fields that close the data of every standard element. *)
Definition closing_fields (searchExclude : bool) : list (string * Json) :=
  [ ("devlink", JObj [("runtimeProps", JObj []); ("slot", JStr "")]);
    ("displayName", JStr "");
    ("search", JObj [("exclude", JBool searchExclude)]);
    ("visibility", JObj [("conditions", JArr [])]) ].

(** Is this the node of a text? *)
Definition text_of (n : WebflowNode) : option string :=
  match n with
  | TextNode _ v => Some v
  | ElementNode _ _ _ _ _ _ => None
  end.

(** What holds of the value of a text node. *)
Definition text_ok (n : WebflowNode) : Prop :=
  match n with
  | TextNode _ v => v <> "" /\ JS.trim v = v /\ whitespace_only v = false
  | ElementNode _ _ _ _ _ _ => True
  end.


(** The elements that the compiler visits at and below [e], in document
    order, each with the lower-cased tags of its ancestors (nearest
    first). *)
Fixpoint elements_in_context (e : Element) (ancestors : list string) {struct e}
  : list (Element * list string) :=
  match e with
  | mkElement n _ cs =>
      (e, ancestors)
      :: (fix each (cs : list DomNode) : list (Element * list string) :=
            match cs with
            | [] => []
            | NElement c :: cs' =>
                elements_in_context c (JS.toLowerCase n :: ancestors) ++ each cs'
            | _ :: cs' => each cs'
            end) cs
  end.

Definition child_elements_in_context (ancestors : list string)
  : list DomNode -> list (Element * list string) :=
  fix each (cs : list DomNode) : list (Element * list string) :=
    match cs with
    | [] => []
    | NElement c :: cs' => elements_in_context c ancestors ++ each cs'
    | _ :: cs' => each cs'
    end.

Definition compiled_elements (dom : list DomNode) : list (Element * list string) :=
  flat_map (fun e => elements_in_context e []) (extractContentElements dom).

(** Being a descendant of a form element. *)
Definition has_form_ancestor (ancestors : list string) : bool := mem "form" ancestors.

(** An element node without its identifier and its children. *)
Definition contents (n : WebflowNode) : option WebflowNode :=
  match n with
  | ElementNode _ cl ty tg d _ => Some (ElementNode "" cl ty tg d [])
  | TextNode _ _ => None
  end.

Definition node_type (n : WebflowNode) : option Member :=
  match n with
  | ElementNode _ _ ty _ _ _ => Some ty
  | TextNode _ _ => None
  end.

Definition node_data (n : WebflowNode) : list (string * Json) :=
  match n with
  | ElementNode _ _ _ _ d _ => d
  | TextNode _ _ => []
  end.

(** The attributes of an element reproduced verbatim as name/value pairs,
    without [class] and [id]. *)
Definition verbatim_attributes (e : Element) : list Json :=
  map (fun nv => JObj [("name", JStr (fst nv)); ("value", JStr (snd nv))])
      (List.filter (fun nv => negb (String.eqb (fst nv) "class")
                              && negb (String.eqb (fst nv) "id"))
                   (attribs e)).

(** The same with an empty value replaced by one space. *)
Definition spaced_attributes (e : Element) : list Json :=
  map (fun nv => JObj [("name", JStr (fst nv));
                       ("value", JStr (if String.eqb (snd nv) "" then " " else snd nv))])
      (List.filter (fun nv => negb (String.eqb (fst nv) "class")
                              && negb (String.eqb (fst nv) "id"))
                   (attribs e)).

(** The rule for [maxlength]: the integer that [parseInt] reads when there
    is one and it is not zero, and the default otherwise. *)
Definition maxlength_rule (value : option string) (dflt : Z) : Z :=
  match value with
  | None => dflt
  | Some v =>
      match JS.parseInt v with
      | None => dflt
      | Some z => if (z =? 0)%Z then dflt else z
      end
  end.

(** A decimal numeral and its value. *)
Fixpoint all_digits (s : string) : bool :=
  match s with
  | "" => true
  | String c r => JS.is_digit c && all_digits r
  end.

Fixpoint decimal_from (acc : Z) (s : string) : Z :=
  match s with
  | "" => acc
  | String c r => decimal_from (10 * acc + (Z.of_N (JS.code c) - 48))%Z r
  end.

Definition decimal_value (s : string) : Z := decimal_from 0 s.

Definition video_controls : Element := mkElement "video" [("controls", "")] [].
Definition input_zero : Element := mkElement "input" [("type", "text"); ("maxlength", "0")] [].
Definition input_forty : Element := mkElement "input" [("maxlength", "40")] [].
Definition dom_form : list DomNode :=
  [ NElement (mkElement "input" [("type", "text")] []);
    NElement (mkElement "form" []
      [ NElement (mkElement "div" [] [ NElement (mkElement "input" [("type", "text")] []) ]) ]) ].

(** The style sheet of the media-query test of the repository
    ([css-parser.test.ts]), with its indentation. *)
Definition css_responsive : string := "
        .responsive {
          font-size: 16px;
          padding: 20px;
        }

        @media (max-width: 767px) {
          .responsive {
            font-size: 14px;
            padding: 10px;
          }
        }

        @media (max-width: 479px) {
          .responsive {
            font-size: 12px;
            padding: 5px;
          }
        }
      ".

(** A style sheet whose media block is closed by a brace in the first
    column. *)
Definition css_unindented : string := ".t { color: red; }
@media (max-width: 767px) {
  .t { color: blue; }
}
".

(** A custom property defined by itself. *)
Definition css_cycle : string := ":root { --a: var(--a); } .x { color: var(--a); }".

(** The example of the specification. *)
Definition css_red : string := ":root { --c: red; }  .x { color: var(--c); }".

(** *** Declarations with references to custom properties

    A reference is written [var(], white space, two dashes and a name,
    white space, and then either a closing parenthesis or a comma, a
    fallback and a closing parenthesis.  A declaration is text in which
    references stand. *)

Record Reference : Type := mkReference {
  ref_space1 : string;
  ref_name : string;
  ref_space2 : string;
  ref_fallback : option string
}.

Definition reference_text (r : Reference) : string :=
  "var(" +:+ ref_space1 r +:+ "--" +:+ ref_name r +:+ ref_space2 r +:+
  match ref_fallback r with
  | None => ")"
  | Some f => "," +:+ f +:+ ")"
  end.

Fixpoint all_chars (p : ascii -> bool) (s : string) : bool :=
  match s with
  | "" => true
  | String c r => p c && all_chars p r
  end.


Inductive Declaration : Type :=
  | Plain (text : string)
  | Referring (text : string) (r : Reference) (rest : Declaration).

Fixpoint declaration_text (d : Declaration) : string :=
  match d with
  | Plain text => text
  | Referring text r rest => text +:+ reference_text r +:+ declaration_text rest
  end.


(** Resolution as the specification words it: a reference to a variable of
    the table is replaced by the value of the variable, itself resolved when
    it holds a reference; a reference to no variable of the table is replaced
    by its trimmed fallback, and left as it is written when it has none. *)
Definition resolve_reference (depth : nat) (variables : gmap string string) (r : Reference)
  : option string :=
  match variables !! ref_name r with
  | Some value =>
      if JS.includes "var(" value then resolveCSSVariables depth value variables
      else Some value
  | None =>
      match ref_fallback r with
      | Some f => Some (JS.trim f)
      | None => Some (reference_text r)
      end
  end.

Fixpoint resolve_declaration (depth : nat) (variables : gmap string string) (d : Declaration)
  : option string :=
  match d with
  | Plain text => Some text
  | Referring text r rest =>
      a ← resolve_reference depth variables r;
      b ← resolve_declaration depth variables rest;
      Some (text +:+ a +:+ b)
  end.

(** A style sheet whose reference has a fallback with parentheses in it, and
    the declaration of its class [x]. *)
Definition css_fallback : string :=
  ":root { --c: red; } .x { color: var(--c, rgb(0,0,0)); }".

Definition fallback_declaration : Declaration :=
  Referring "color: " (mkReference "" "c" "" (Some " rgb(0,0,0)")) (Plain "").

(** The names that the references of a text refer to. *)
Definition references_of (s : string) : list string :=
  map (fun m : string * string * option string => snd (fst m)) (Regex.exec_all match_var s).

(** No chain of references comes back to a variable: references go down in
    rank. *)
Definition ranked (variables : gmap string string) (rank : string -> nat) : Prop :=
  forall n v n',
    variables !! n = Some v -> n' ∈ references_of v -> is_Some (variables !! n') ->
    rank n' < rank n.


(** The callback of [resolveCSSVariables] on one piece of the scan, and the
    assembly of the result from the pieces. *)
Definition replace_piece (depth : nat) (variables : gmap string string)
    (piece : ascii + (string * string * option string)) (rest : option string)
  : option string :=
  out ← rest;
  match piece with
  | inl c => Some (String c out)
  | inr (matched, varName, fallback) =>
      replacement ←
        match variables !! varName with
        | Some value =>
            if JS.includes "var(" value
            then resolveCSSVariables depth value variables
            else Some value
        | None =>
            match fallback with
            | Some f => if nonempty f then Some (JS.trim f) else Some matched
            | None => Some matched
            end
        end;
      Some (replacement +:+ out)
  end.

Definition resolve_pieces (depth : nat) (variables : gmap string string)
    (pieces : list (ascii + (string * string * option string))) : option string :=
  fold_right (replace_piece depth variables) (Some "") pieces.

(** *** Notions for the chunker *)

(** The identifiers drawn from [k] on, [n] of them, as a set. *)
Definition idset (k n : nat) : gset string := list_to_set (map uuidv4 (seq k n)).

(** The tree [t] lies in [nodes] (whose first identifier is the [k]-th) from
    the [j]-th identifier on. *)
Definition embedded (m : gmap string string) (nodes : list WebflowNode) (k j : nat)
    (t : WTree) : Prop :=
  exists pre post, nodes = pre ++ flatten m j t ++ post /\ j = k + length pre.

(** The node lists and the root identifiers of consecutive groups of trees
    laid out from [k] on. *)
Fixpoint group_nodes (m : gmap string string) (k : nat) (gs : list (list WTree))
  : list (list WebflowNode) :=
  match gs with
  | [] => []
  | g :: gs' => flatten_forest (flatten m) k g :: group_nodes m (k + forest_size g) gs'
  end.

Fixpoint group_roots (k : nat) (gs : list (list WTree)) : list (list string) :=
  match gs with
  | [] => []
  | g :: gs' => root_ids k g :: group_roots (k + forest_size g) gs'
  end.

(** Two nodes of which the second is no root and no child. *)
Definition stray_nodes : list WebflowNode := [ TextNode "a" "x"; TextNode "b" "y" ].




(** A document with two root elements. *)
Definition dom_two_roots : list DomNode :=
  [ NElement (mkElement "div" [("class", "c")]
      [ NElement (mkElement "p" [] [ NText "Hello" ]) ]);
    NElement (mkElement "header" [] [ NText "x" ]) ].

(** One turn of the loop of [parseCSSToWebflow] over the class names. *)
Definition class_step (depth : nat) (cssVariables : gmap string string)
    (cssRules : list CSSRule)
    (acc : option (nat * gmap string string * list WebflowStyle)) (className : string)
  : option (nat * gmap string string * list WebflowStyle) :=
  '(drawn, classToIdMap, styles) ← acc;
  let uuid := uuidv4 drawn in
  let classToIdMap := <[ className := uuid ]> classToIdMap in
  match findRuleForClass cssRules className with
  | Some rule =>
      resolvedProperties ←
        mapM (fun prop => resolveCSSVariables depth prop cssVariables) (properties rule);
      let styleLess := convertToStyleLess resolvedProperties in
      Some (S drawn, classToIdMap, styles ++ [classStyle uuid className styleLess []])
  | None =>
      Some (S drawn, classToIdMap, styles ++ [classStyle uuid className "" []])
  end.

(** Every element of a document with the lower-cased tags of all its
    ancestors. *)
Definition document_elements (dom : list DomNode) : list (Element * list string) :=
  child_elements_in_context [] dom.

Definition structure_tag (tag : string) : Prop := mem tag DOCUMENT_STRUCTURE_TAGS = true.

(** * Further properties of the two parsers and of the code around them *)

(** ** Notions for the compiler *)

(** The values of the text nodes that an element gives rise to, in document
    order: the trimmed text children that are not empty, at any depth. *)
Fixpoint element_texts (e : Element) {struct e} : list string :=
  match e with
  | mkElement _ _ cs =>
      (fix each (cs : list DomNode) : list string :=
         match cs with
         | [] => []
         | NElement c :: cs' => element_texts c ++ each cs'
         | NText data :: cs' =>
             if (0 <? String.length (JS.trim data))%nat
             then JS.trim data :: each cs' else each cs'
         | NOther :: cs' => each cs'
         end) cs
  end.

Definition child_texts : list DomNode -> list string :=
  fix each (cs : list DomNode) : list string :=
    match cs with
    | [] => []
    | NElement c :: cs' => element_texts c ++ each cs'
    | NText data :: cs' =>
        if (0 <? String.length (JS.trim data))%nat
        then JS.trim data :: each cs' else each cs'
    | NOther :: cs' => each cs'
    end.

(** The element nodes of a document's top level. *)
Definition top_elements (dom : list DomNode) : list Element :=
  omap (fun c => match c with NElement e => Some e | _ => None end) dom.

Definition tag_of (e : Element) : string := JS.toLowerCase (name e).

Definition node_classes (n : WebflowNode) : list string :=
  match n with
  | ElementNode _ cl _ _ _ _ => cl
  | TextNode _ _ => []
  end.

(** A document with a head, and a body that holds a script next to its
    content. *)
Definition dom_page : list DomNode :=
  [ NElement (mkElement "html" []
      [ NElement (mkElement "head" [] [ NElement (mkElement "title" [] []) ]);
        NElement (mkElement "BODY" []
          [ NElement (mkElement "script" [] [ NText "x()" ]);
            NElement (mkElement "div" [] []) ]) ]) ].

(** A heading, and the node it is compiled to as the first node of a run. *)
Definition h1_element : Element := mkElement "h1" [] [].
Definition h1_node : WebflowNode :=
  ElementNode (uuidv4 0) [] (Own "Heading") "h1"
    (standardData (extractAttributes h1_element "h1") h1_element "h1" (Own "Heading")) [].

(** ** Notions for the chunker *)

(** The loop of [splitIntoChunks] seen on the trees of the roots: [gs] are
    the groups of the closed chunks, [cur] is the group of the open chunk;
    a tree opens a new group when the open one is not empty and would grow
    beyond the limit. *)
Definition pack_step (maxNodesPerChunk : Z) (acc : list (list WTree) * list WTree)
    (t : WTree) : list (list WTree) * list WTree :=
  let '(gs, cur) := acc in
  if (0 <? forest_size cur)%nat
     && (maxNodesPerChunk <? Z.of_nat (forest_size cur + tree_size t))%Z
  then (gs ++ [cur], [t])
  else (gs, cur ++ [t]).

(** The loop variables of [splitIntoChunks] when the closed chunks hold the
    groups [gs] and the open chunk holds [cur]. *)
Definition packed (m : gmap string string) (k : nat) (gs : list (list WTree))
    (cur : list WTree) (st : ChunkState) : Prop :=
  map chunk_nodes (chunks st) = group_nodes m k gs
  /\ Forall (fun c => nodeCount c = length (chunk_nodes c)) (chunks st)
  /\ currentChunkNodes st = idset (k + forest_size (concat gs)) (forest_size cur)
  /\ currentChunkRoots st = root_ids (k + forest_size (concat gs)) cur
  /\ chunkIndex st = S (length gs).

(** A group is within the limit, or holds one tree at most. *)
Definition within (maxNodesPerChunk : Z) (g : list WTree) : Prop :=
  length g <= 1 \/ (Z.of_nat (forest_size g) <= maxNodesPerChunk)%Z.

(** ** Notions for the style parser *)

(** A character other than the two curly braces. *)
Definition no_brace (c : ascii) : bool := Regex.is_not "{" c && Regex.is_not "}" c.

(** The names of the breakpoints. *)
Definition breakpoints : list string := [ "tiny"; "small"; "medium" ].

(** What [parseCSSToWebflow] returns for the example of the specification
    and the class [x], as the first call of a run. *)
Definition css_red_result : ParsedCSSResult :=
  mkParsed (<[ "x" := uuidv4 0 ]> ∅) [ classStyle (uuidv4 0) "x" "color: red" [] ] (Some "").

(** What [parseCSSWithMediaQueries] returns for [css_unindented] and the
    class [t], as the first call of a run. *)
Definition css_unindented_result : ParsedCSSResult :=
  mkParsed (<[ "t" := uuidv4 0 ]> ∅)
    [ classStyle (uuidv4 0) "t" "color: red" [ ("small", "color: blue") ] ] None.

(** *** Declarations as they are written and as they are normalised

    A declaration is written as a name, white space, a colon, white space
    and a value.  The name is not empty and holds no white space, colon or
    brace; the value is not empty, neither starts nor ends with white space,
    and holds no brace and no semicolon. *)
Record Written : Type := mkWritten {
  w_name : string;
  w_space1 : string;
  w_space2 : string;
  w_value : string
}.

Definition name_char (c : ascii) : bool :=
  negb (JS.is_ws c) && Regex.is_not ":" c && no_brace c.

Definition written_ok (d : Written) : Prop :=
  w_name d <> "" /\ all_chars name_char (w_name d) = true
  /\ all_chars JS.is_ws (w_space1 d) = true
  /\ all_chars JS.is_ws (w_space2 d) = true
  /\ w_value d <> "" /\ JS.trimStart (w_value d) = w_value d
  /\ JS.trimEnd (w_value d) = w_value d
  /\ all_chars no_brace (w_value d) = true
  /\ all_chars (Regex.is_not ";") (w_value d) = true.

Definition written_text (d : Written) : string :=
  w_name d +:+ w_space1 d +:+ ":" +:+ w_space2 d +:+ w_value d.

Definition normal_text (d : Written) : string :=
  w_name d +:+ ": " +:+ w_value d.



(** A style sheet in which a custom property refers to another one. *)
Definition css_chain : string :=
  ":root { --a: var(--b); --b: red; } .x { color: var(--a); }".

(** ** More of lib/css-parser.ts and lib/html-parser.ts, and their callers *)

(** [classNames.add(x)] on a [Set] of strings, kept in insertion order (the
    order in which [Array.from] lists it). *)
Definition set_add (x : string) (l : list string) : list string :=
  if mem x l then l else l ++ [x].

Definition is_alpha (c : ascii) : bool := JS.is_upper c || JS.is_lower c.

(** The class regex of [extractClassNamesFromCSS]: a dot, a letter, and the
    longest run of letters, digits, underscores and dashes; the name is what
    follows the dot. *)
Definition match_class (s : string) : option (nat * string) :=
  match s with
  | String d (String c r) =>
      if ascii_dec d "." then
        if is_alpha c then
          let '(rest, _) := Regex.span JS.is_word_dash r in
          Some (2 + String.length rest, String c rest)
        else None
      else None
  | _ => None
  end.

(** [extractClassNamesFromCSS] *)
Definition extractClassNamesFromCSS (cssString : string) : list string :=
  let cleanedCSS := removeComments cssString in
  fold_left
    (fun classNames (m : string * string) =>
       let selector := JS.trim (fst m) in
       fold_left (fun classNames classMatch => set_add classMatch classNames)
                 (Regex.exec_all match_class selector) classNames)
    (Regex.exec_all match_rule cleanedCSS) [].

(** *** examples/full-conversion.ts *)

Record WebflowPayload : Type := mkPayload {
  payload_nodes : list WebflowNode;
  payload_styles : list WebflowStyle;
  assets : Json;
  ix1 : Json;
  ix2 : Json
}.

Record WebflowClipboardData : Type := mkClipboardData {
  data_type : string;
  payload : WebflowPayload;
  meta : Json
}.

(** [convertToWebflow]; the calls of [console.log] are left out.  [drawn] is
    the number of identifiers drawn before the call; [None] is the
    [RangeError] of [parseCSSToWebflow]. *)
Definition convertToWebflow (parseDocument : string -> list DomNode) (depth drawn : nat)
    (html css : string) : option WebflowClipboardData :=
  let classNames := extractClassNamesFromCSS css in
  parsed ← parseCSSToWebflow depth drawn css classNames;
  let compiled :=
    compileHTMLToNodes parseDocument (drawn + length classNames) html (classToIdMap parsed) in
  Some (mkClipboardData "@webflow/XscpData"
          (mkPayload (nodes compiled) (styles parsed) (JArr []) (JArr [])
             (JObj [ ("interactions", JArr []); ("events", JArr []);
                     ("actionLists", JArr []) ]))
          (JObj [ ("unlinkedSymbolCount", JNum 0); ("droppedLinks", JNum 0);
                  ("dynBindRemovedCount", JNum 0); ("dynListBindRemovedCount", JNum 0);
                  ("paginationRemovedCount", JNum 0) ])).

(** *** [compileHTMLWithStyles] *)

(** [extractClasses]: the class names of an element are added to the set,
    then those of its children. *)
Fixpoint extractClasses (node : Element) (classNames : list string) {struct node}
  : list string :=
  match node with
  | mkElement _ _ node_children =>
      let classNames :=
        match attr node "class" with
        | Some classAttr =>
            if String.eqb classAttr "" then classNames
            else fold_left (fun classNames className => set_add (JS.trim className) classNames)
                           (JS.split_ws classAttr) classNames
        | None => classNames
        end in
      (fix each (cs : list DomNode) (classNames : list string) : list string :=
         match cs with
         | [] => classNames
         | NElement c :: cs' => each cs' (extractClasses c classNames)
         | _ :: cs' => each cs' classNames
         end) node_children classNames
  end.

Record CompileWithStylesResult : Type := mkWithStyles {
  ws_nodes : list WebflowNode;
  ws_rootNodeIds : list string;
  ws_classToIdMap : gmap string string
}.

(** The loop that gives an identifier to each class name that is not
    empty. *)
Definition assign_ids (drawn : nat) (classNames : list string) : nat * gmap string string :=
  fold_left
    (fun (acc : nat * gmap string string) className =>
       if (0 <? String.length className)%nat
       then (S (fst acc), <[ className := uuidv4 (fst acc) ]> (snd acc))
       else acc)
    classNames (drawn, ∅).

Definition compileHTMLWithStyles (parseDocument : string -> list DomNode) (drawn : nat)
    (htmlString : string) : CompileWithStylesResult :=
  let dom := parseDocument htmlString in
  let classNames :=
    fold_left
      (fun classNames child =>
         match child with
         | NElement e => extractClasses e classNames
         | _ => classNames
         end) dom [] in
  let '(drawn, classToIdMap) := assign_ids drawn classNames in
  let result := compileHTMLToNodes parseDocument drawn htmlString classToIdMap in
  mkWithStyles (nodes result) (rootNodeIds result) classToIdMap.

(** *** [extractJavaScriptFromHTML] *)

(** The script regex: an opening [script] tag with its attributes (all
    that stands before the next [>]), and the content up to the first closing
    [script] tag; letters match in both cases. *)
Definition match_script (s : string) : option (nat * (string * string)) :=
  if JS.startsWith "<script" (JS.toLowerCase s) then
    let '(g1, r1) := Regex.span (Regex.is_not ">") (JS.drop 7 s) in
    match r1 with
    | String _ r2 =>
        match JS.indexOf "</script>" (JS.toLowerCase r2) 0 with
        | Some j => Some (7 + String.length g1 + 1 + j + 9, (g1, JS.take j r2))
        | None => None
        end
    | "" => None
    end
  else None.

Definition is_quote (c : ascii) : bool :=
  if ascii_dec c (ascii_of_nat 34) then true
  else if ascii_dec c "'" then true else false.

(** The regex for the address: [src] in either case, an equals sign with
    white space around it, a single or double quote, the address (not empty,
    no quote in it) and a single or double quote. *)
Definition match_src (s : string) : option (nat * string) :=
  if JS.startsWith "src" (JS.toLowerCase s) then
    let '(ws1, r1) := Regex.span JS.is_ws (JS.drop 3 s) in
    match r1 with
    | String e r2 =>
        if ascii_dec e "=" then
          let '(ws2, r3) := Regex.span JS.is_ws r2 in
          match r3 with
          | String q r4 =>
              if is_quote q then
                let '(g, r5) := Regex.span (fun c => negb (is_quote c)) r4 in
                match g, r5 with
                | String _ _, String _ _ =>
                    Some (3 + String.length ws1 + 1 + String.length ws2 + 1
                          + String.length g + 1, g)
                | _, _ => None
                end
              else None
          | "" => None
          end
        else None
    | "" => None
    end
  else None.

(** [text.match(regex)] for a regex that is not global: the first match. *)
Definition first_match {A : Type} (match_at : string -> option (nat * A)) (s : string)
  : option A :=
  head (Regex.exec_all match_at s).

(** [/^(https?:)?\/\//] *)
Definition is_external (srcUrl : string) : bool :=
  JS.startsWith "//" srcUrl || JS.startsWith "http://" srcUrl
  || JS.startsWith "https://" srcUrl.

Definition script_tag (srcUrl : string) : string :=
  "<script src=" +:+ dq +:+ srcUrl +:+ dq +:+ "></script>".

(** The array [scriptParts] at the end of the loop. *)
Definition scriptParts (htmlString : string) : list string :=
  flat_map
    (fun m : string * string =>
       let attributes := fst m in
       let scriptContent := JS.trim (snd m) in
       match first_match match_src attributes with
       | Some srcUrl => if is_external srcUrl then [script_tag srcUrl] else []
       | None => []
       end
       ++ (if (0 <? String.length scriptContent)%nat then [scriptContent] else []))
    (Regex.exec_all match_script htmlString).

Definition extractJavaScriptFromHTML (htmlString : string) : string :=
  JS.join (String newline (String newline "")) (scriptParts htmlString).

(** The text holds a script element written with [attributes] and
    [content]: an opening tag in any case of letters, the attributes up to
    the first [>], the content, in which no closing tag stands, and a closing
    tag in any case of letters. *)
Definition script_written (htmlString attributes content : string) : Prop :=
  exists before opening closing after,
    htmlString
    = before +:+ opening +:+ attributes +:+ ">" +:+ content +:+ closing +:+ after
    /\ JS.toLowerCase opening = "<script"
    /\ JS.toLowerCase closing = "</script>"
    /\ all_chars (Regex.is_not ">") attributes = true
    /\ JS.includes "</script>" (JS.toLowerCase content) = false.

(** The attributes hold [src], an equals sign with white space around it,
    and the address between quotes. *)
Definition src_written (attributes srcUrl : string) : Prop :=
  exists before key ws1 ws2 q1 q2 after,
    attributes
    = before +:+ key +:+ ws1 +:+ "=" +:+ ws2 +:+ String q1 srcUrl +:+ String q2 after
    /\ JS.toLowerCase key = "src"
    /\ all_chars JS.is_ws ws1 = true /\ all_chars JS.is_ws ws2 = true
    /\ is_quote q1 = true /\ is_quote q2 = true
    /\ srcUrl <> "" /\ all_chars (fun c => negb (is_quote c)) srcUrl = true.

(** A script with an address on a network and a script with a local
    address. *)
Definition html_scripts : string :=
  "<script src='//cdn.example/x.js'>go()</script><SCRIPT SRC='app.js'> run() </SCRIPT>".

(** A style sheet with one rule for the class of [html_hello]. *)
Definition css_c : string := ".c { color: red; }".

(** The names that [extractClasses] adds for one element. *)
Definition own_classes (e : Element) : list string :=
  match attr e "class" with
  | Some classAttr =>
      if String.eqb classAttr "" then [] else map JS.trim (JS.split_ws classAttr)
  | None => []
  end.

(** The loop of [extractClasses] over the children. *)
Definition extractClasses_children : list DomNode -> list string -> list string :=
  fix each (cs : list DomNode) (classNames : list string) : list string :=
    match cs with
    | [] => classNames
    | NElement c :: cs' => each cs' (extractClasses c classNames)
    | _ :: cs' => each cs' classNames
    end.

(** ** The compiler builds the flattened tree *)

Lemma tree_of_unfold n a cs f :
  tree_of (mkElement n a cs) f =
  WElem (mkElement n a cs) f
        (child_trees (String.eqb (JS.toLowerCase n) "form" || f) cs).
Proof. reflexivity. Qed.

Lemma flatten_forest_app flat k ts1 ts2 :
  flatten_forest flat k (ts1 ++ ts2) =
  flatten_forest flat k ts1 ++ flatten_forest flat (k + forest_size ts1) ts2.
Proof.
  revert k. induction ts1 as [|t ts1 IH]; intros k; simpl.
  - by rewrite Nat.add_0_r.
  - rewrite IH, <- app_assoc. unfold forest_size. simpl.
    by rewrite Nat.add_assoc.
Qed.

Lemma root_ids_app k ts1 ts2 :
  root_ids k (ts1 ++ ts2) = root_ids k ts1 ++ root_ids (k + forest_size ts1) ts2.
Proof.
  revert k. induction ts1 as [|t ts1 IH]; intros k; simpl.
  - by rewrite Nat.add_0_r.
  - rewrite IH. unfold forest_size. simpl. by rewrite Nat.add_assoc.
Qed.

Lemma length_flatten m k t : length (flatten m k t) = tree_size t.
Proof.
  revert k. induction t as [v|e f kids IH] using WTree_kids_ind; intros k; [done|].
  simpl. f_equal. generalize (S k). induction IH as [|t ts Ht _ IHts]; intros j; [done|].
  simpl. by rewrite length_app, Ht, IHts.
Qed.

Lemma length_flatten_forest m k ts :
  length (flatten_forest (flatten m) k ts) = forest_size ts.
Proof.
  revert k. induction ts as [|t ts IH]; intros k; [done|].
  simpl. rewrite length_app, length_flatten, IH. done.
Qed.

(** The loop over the children appends the flattened child trees. *)
Lemma process_children_spec m f cs :
  Forall (child_holds (fun e => forall f st,
    processElement e m f st =
    (uuidv4 (drawn st),
     mkState (drawn st + tree_size (tree_of e f))
             (allNodes st ++ flatten m (drawn st) (tree_of e f))))) cs ->
  forall childIds st,
  process_children (fun child st => processElement child m f st) cs childIds st =
  (childIds ++ root_ids (drawn st) (child_trees f cs),
   mkState (drawn st + forest_size (child_trees f cs))
           (allNodes st ++ flatten_forest (flatten m) (drawn st) (child_trees f cs))).
Proof.
  induction 1 as [|c cs Hc _ IH]; intros childIds st.
  - simpl. rewrite !app_nil_r, Nat.add_0_r. by destruct st.
  - destruct c as [e|data|]; simpl in *.
    + rewrite Hc, IH. simpl. f_equal.
      * by rewrite <- app_assoc.
      * unfold forest_size. simpl. f_equal; [lia|].
        by rewrite <- app_assoc.
    + destruct (0 <? String.length (JS.trim data))%nat; [|apply IH].
      rewrite IH. simpl. rewrite <- !app_assoc. simpl.
      replace (drawn st + 1) with (S (drawn st)) by lia.
      unfold forest_size. simpl. do 2 f_equal. lia.
    + apply IH.
Qed.

Lemma processElement_spec m e : forall f st,
  processElement e m f st =
  (uuidv4 (drawn st),
   mkState (drawn st + tree_size (tree_of e f))
           (allNodes st ++ flatten m (drawn st) (tree_of e f))).
Proof.
  induction e as [n a cs IH] using Element_children_ind. intros f st.
  rewrite tree_of_unfold.
  cbn [processElement].
  rewrite (process_children_spec m _ cs IH). cbn [drawn allNodes].
  f_equal. f_equal.
  - cbn [tree_size]. unfold forest_size. lia.
  - rewrite <- app_assoc. rewrite alter_app_r_alt by lia.
    rewrite Nat.sub_diag. done.
Qed.

Lemma uuidv4_nonempty k : String.eqb (uuidv4 k) "" = false.
Proof. reflexivity. Qed.

Lemma uuidv4_inj i j : uuidv4 i = uuidv4 j -> i = j.
Proof.
  unfold uuidv4. intros H. apply (inj (String.app _)) in H.
  by apply (inj pretty) in H.
Qed.

Lemma compile_roots_spec m es : forall roots st,
  fold_left
    (fun acc element =>
       let '(rootNodeIds, st) := acc in
       let '(nodeId, st) := processElement element m false st in
       if String.eqb nodeId "" then (rootNodeIds, st)
       else (rootNodeIds ++ [nodeId], st))
    es (roots, st) =
  (roots ++ root_ids (drawn st) (map (fun e => tree_of e false) es),
   mkState (drawn st + forest_size (map (fun e => tree_of e false) es))
           (allNodes st
            ++ flatten_forest (flatten m) (drawn st) (map (fun e => tree_of e false) es))).
Proof.
  induction es as [|e es IH]; intros roots st.
  - simpl. rewrite !app_nil_r, Nat.add_0_r. by destruct st.
  - cbn [fold_left]. rewrite processElement_spec, uuidv4_nonempty, IH.
    cbn [drawn allNodes map root_ids flatten_forest]. unfold forest_size. cbn [map list_sum].
    rewrite <- !app_assoc. simpl. do 2 f_equal. lia.
Qed.

(** The result of a compilation is the pre-order layout of the trees of the
    root elements. *)
Lemma compileHTMLToNodes_spec parseDocument k html m :
  compileHTMLToNodes parseDocument k html m =
  mkResult (flatten_forest (flatten m) k (content_trees (parseDocument html)))
           (root_ids k (content_trees (parseDocument html))).
Proof.
  unfold compileHTMLToNodes. rewrite compile_roots_spec. done.
Qed.

(** ** Identifiers and positions in a flattened forest *)

Lemma tree_size_pos t : 0 < tree_size t.
Proof. destruct t; simpl; lia. Qed.

Lemma forest_size_cons t ts : forest_size (t :: ts) = tree_size t + forest_size ts.
Proof. reflexivity. Qed.

Lemma forest_size_app ts1 ts2 :
  forest_size (ts1 ++ ts2) = forest_size ts1 + forest_size ts2.
Proof. unfold forest_size. by rewrite map_app, list_sum_app. Qed.

Lemma element_node_id e m f i cs : node_id (element_node e m f i cs) = i.
Proof. reflexivity. Qed.

Lemma element_node_children e m f i cs : node_children (element_node e m f i cs) = cs.
Proof. reflexivity. Qed.

Lemma ids_flatten_forest_of m ts :
  Forall (fun t => forall k, map node_id (flatten m k t) = map uuidv4 (seq k (tree_size t))) ts ->
  forall k, map node_id (flatten_forest (flatten m) k ts) = map uuidv4 (seq k (forest_size ts)).
Proof.
  induction 1 as [|t ts Ht _ IH]; intros k; [done|].
  cbn [flatten_forest]. rewrite forest_size_cons, map_app, Ht, IH, seq_app, map_app. done.
Qed.

Lemma ids_flatten m t : forall k,
  map node_id (flatten m k t) = map uuidv4 (seq k (tree_size t)).
Proof.
  induction t as [v|e f kids IH] using WTree_kids_ind; intros k; [done|].
  cbn [flatten tree_size map seq]. rewrite element_node_id. f_equal.
  by apply ids_flatten_forest_of.
Qed.

Lemma ids_flatten_forest m ts k :
  map node_id (flatten_forest (flatten m) k ts) = map uuidv4 (seq k (forest_size ts)).
Proof. apply ids_flatten_forest_of, Forall_forall. intros t _. apply ids_flatten. Qed.

Lemma laid_out_flatten_forest m k ts : laid_out k (flatten_forest (flatten m) k ts).
Proof. unfold laid_out. by rewrite ids_flatten_forest, length_flatten_forest. Qed.

Lemma laid_out_lookup k nodes i n :
  laid_out k nodes -> nodes !! i = Some n -> node_id n = uuidv4 (k + i).
Proof.
  unfold laid_out. intros Hl Hi.
  assert (Hid : map node_id nodes !! i = Some (node_id n)) by by rewrite list_lookup_fmap, Hi.
  rewrite Hl, list_lookup_fmap in Hid.
  destruct (seq k (length nodes) !! i) as [j|] eqn:Hj; [|done].
  apply lookup_seq in Hj as [-> _]. by injection Hid as ->.
Qed.

Lemma laid_out_NoDup k nodes : laid_out k nodes -> NoDup (map node_id nodes).
Proof.
  unfold laid_out. intros ->. apply NoDup_fmap_2; [|apply NoDup_seq].
  intros i j. apply uuidv4_inj.
Qed.

Lemma find_node_laid_out k nodes i n :
  laid_out k nodes -> nodes !! i = Some n -> find_node nodes (uuidv4 (k + i)) = Some n.
Proof.
  revert k i. induction nodes as [|n0 nodes IH]; intros k i Hl Hi; [done|].
  assert (H0 : node_id n0 = uuidv4 k).
  { rewrite (laid_out_lookup k (n0 :: nodes) 0 n0 Hl eq_refl). f_equal. lia. }
  unfold find_node. cbn [find]. rewrite H0.
  destruct i as [|i].
  - rewrite Nat.add_0_r, String.eqb_refl. simpl in Hi. congruence.
  - destruct (String.eqb_spec (uuidv4 k) (uuidv4 (k + S i))) as [E|_].
    { apply uuidv4_inj in E. lia. }
    replace (k + S i) with (S k + i) by lia. apply IH; [|done].
    unfold laid_out in *. simpl in Hl. by injection Hl.
Qed.

Lemma find_node_Some nodes i n : find_node nodes i = Some n -> n ∈ nodes /\ node_id n = i.
Proof.
  unfold find_node. intros H. apply find_some in H as [Hin He].
  split; [by apply list_elem_of_In|]. by apply String.eqb_eq.
Qed.

Lemma root_ids_range k ts c :
  c ∈ root_ids k ts -> exists j, c = uuidv4 j /\ k <= j < k + forest_size ts.
Proof.
  revert k. induction ts as [|t ts IH]; intros k Hc; simpl in Hc.
  - by apply elem_of_nil in Hc.
  - rewrite forest_size_cons. pose proof (tree_size_pos t).
    apply elem_of_cons in Hc as [->|Hc].
    + exists k. split; [done|lia].
    + apply IH in Hc as (j & -> & Hj). exists j. split; [done|lia].
Qed.

(** The children of the node at position [i] of a flattened forest come
    later, within the forest. *)
Lemma children_range_forest_of m ts :
  Forall (fun t => forall k i n c,
            flatten m k t !! i = Some n -> c ∈ node_children n ->
            exists j, c = uuidv4 j /\ k + i < j < k + tree_size t) ts ->
  forall k i n c,
    flatten_forest (flatten m) k ts !! i = Some n -> c ∈ node_children n ->
    exists j, c = uuidv4 j /\ k + i < j < k + forest_size ts.
Proof.
  induction 1 as [|t ts Ht _ IH]; intros k i n c Hi Hc; [done|].
  cbn [flatten_forest] in Hi. rewrite forest_size_cons.
  apply lookup_app_Some in Hi as [Hi|[Hlen Hi]].
  - destruct (Ht _ _ _ _ Hi Hc) as (j & -> & Hj). exists j. split; [done|lia].
  - rewrite length_flatten in Hlen, Hi.
    destruct (IH _ _ _ _ Hi Hc) as (j & -> & Hj). exists j. split; [done|lia].
Qed.

Lemma children_range m t : forall k i n c,
  flatten m k t !! i = Some n -> c ∈ node_children n ->
  exists j, c = uuidv4 j /\ k + i < j < k + tree_size t.
Proof.
  induction t as [v|e f kids IH] using WTree_kids_ind; intros k i n c Hi Hc.
  - destruct i; simpl in Hi; [|done]. injection Hi as <-. by apply elem_of_nil in Hc.
  - cbn [flatten tree_size] in *. fold (forest_size kids). destruct i as [|i]; simpl in Hi.
    + injection Hi as <-. rewrite element_node_children in Hc.
      apply root_ids_range in Hc as (j & -> & Hj). exists j. split; [done|lia].
    + destruct (children_range_forest_of m kids IH _ _ _ _ Hi Hc) as (j & -> & Hj).
      exists j. split; [done|lia].
Qed.

Lemma children_range_forest m ts k i n c :
  flatten_forest (flatten m) k ts !! i = Some n -> c ∈ node_children n ->
  exists j, c = uuidv4 j /\ k + i < j < k + forest_size ts.
Proof.
  apply children_range_forest_of, Forall_forall. intros t _. apply children_range.
Qed.

(** The roots of a forest and the children of its nodes are, together, all
    the identifiers of the forest, each once. *)
Lemma children_perm_forest_of m ts :
  Forall (fun t => forall k,
            concat (map node_children (flatten m k t))
            ≡ₚ map uuidv4 (seq (S k) (tree_size t - 1))) ts ->
  forall k,
    root_ids k ts ++ concat (map node_children (flatten_forest (flatten m) k ts))
    ≡ₚ map uuidv4 (seq k (forest_size ts)).
Proof.
  induction 1 as [|t ts Ht _ IH]; intros k; [done|].
  cbn [flatten_forest root_ids]. rewrite forest_size_cons, map_app, concat_app, Ht.
  pose proof (tree_size_pos t).
  replace (tree_size t + forest_size ts) with (S (tree_size t - 1) + forest_size ts) by lia.
  cbn [Nat.add seq map]. rewrite seq_app, map_app, <- IH.
  replace (S k + (tree_size t - 1)) with (k + tree_size t) by lia.
  simpl. constructor. rewrite !app_assoc. apply Permutation_app_tail, Permutation_app_comm.
Qed.

Lemma children_perm m t : forall k,
  concat (map node_children (flatten m k t)) ≡ₚ map uuidv4 (seq (S k) (tree_size t - 1)).
Proof.
  induction t as [v|e f kids IH] using WTree_kids_ind; intros k; [done|].
  cbn [flatten tree_size map concat]. rewrite element_node_children, Nat.sub_succ, Nat.sub_0_r.
  by apply children_perm_forest_of.
Qed.

Lemma children_perm_forest m ts k :
  root_ids k ts ++ concat (map node_children (flatten_forest (flatten m) k ts))
  ≡ₚ map uuidv4 (seq k (forest_size ts)).
Proof.
  apply children_perm_forest_of, Forall_forall. intros t _. apply children_perm.
Qed.

Lemma NoDup_uuids k n : NoDup (map uuidv4 (seq k n)).
Proof. apply NoDup_fmap_2; [|apply NoDup_seq]. intros i j. apply uuidv4_inj. Qed.

(** ** Parents come first (C1) *)

Lemma child_of_forest_index m k ts x y :
  child_of (flatten_forest (flatten m) k ts) x y ->
  exists i j, x = uuidv4 i /\ y = uuidv4 j /\ k <= i < j /\ j < k + forest_size ts.
Proof.
  intros (n & Hn & <- & Hy). apply list_elem_of_lookup in Hn as [i Hi].
  destruct (children_range_forest _ _ _ _ _ _ Hi Hy) as (j & -> & Hj).
  exists (k + i), j. split; [|split; [done|lia]].
  by apply (laid_out_lookup k _ i n (laid_out_flatten_forest m k ts)).
Qed.

Lemma reach_forest_index m k ts x y :
  tc (child_of (flatten_forest (flatten m) k ts)) x y ->
  exists i j, x = uuidv4 i /\ y = uuidv4 j /\ k <= i < j /\ j < k + forest_size ts.
Proof.
  induction 1 as [x y H|x y z H _ IH].
  - by apply child_of_forest_index in H.
  - apply child_of_forest_index in H as (i & j & -> & -> & Hij & Hj).
    destruct IH as (i' & j' & E & -> & Hij' & Hj'). apply uuidv4_inj in E as <-.
    exists i, j'. repeat split; try done; lia.
Qed.

(** C1. In the node list returned by [compileHTMLToNodes], for every HTML
    input and every class map: an identifier occurs at most once in all the
    [children] arrays taken together (so in at most one parent's array, and
    there once), the nodes have distinct identifiers, and a node stands
    strictly before every node reachable from it through [children]
    arrays. *)
Theorem compile_parent_first (parseDocument : string -> list DomNode) (k : nat)
    (html : string) (classToIdMap : gmap string string) :
  let r := compileHTMLToNodes parseDocument k html classToIdMap in
  NoDup (concat (map node_children (nodes r)))
  /\ NoDup (map node_id (nodes r))
  /\ forall i j a b,
       nodes r !! i = Some a -> nodes r !! j = Some b ->
       tc (child_of (nodes r)) (node_id a) (node_id b) -> i < j.
Proof.
  rewrite compileHTMLToNodes_spec. cbn [nodes].
  set (ts := content_trees (parseDocument html)).
  pose proof (laid_out_flatten_forest classToIdMap k ts) as Hl.
  split; [|split].
  - pose proof (NoDup_uuids k (forest_size ts)) as Hnd.
    rewrite <- (children_perm_forest classToIdMap ts k) in Hnd.
    by apply NoDup_app in Hnd as (_ & _ & Hnd).
  - by apply (laid_out_NoDup k).
  - intros i j a b Hi Hj Hreach.
    apply reach_forest_index in Hreach as (i' & j' & Ea & Eb & Hij & _).
    rewrite (laid_out_lookup k _ i a Hl Hi) in Ea. apply uuidv4_inj in Ea.
    rewrite (laid_out_lookup k _ j b Hl Hj) in Eb. apply uuidv4_inj in Eb.
    lia.
Qed.

Lemma compile_parent_first_witness :
  let r := compileHTMLToNodes (fun _ => dom_nested) 0 "" ∅ in
  NoDup (concat (map node_children (nodes r))) /\ 0 < 3.
Proof.
  pose proof (compile_parent_first (fun _ => dom_nested) 0 "" ∅) as (H1 & _ & H3).
  split; [exact H1|].
  refine (H3 0 3 _ _ eq_refl eq_refl _).
  eapply tc_l; [|eapply tc_l; [|apply tc_once]].
  - eexists. split; [apply list_elem_of_here|]. split; [reflexivity|]. apply list_elem_of_here.
  - eexists. split; [apply list_elem_of_further, list_elem_of_here|].
    split; [reflexivity|]. apply list_elem_of_here.
  - eexists. split; [apply list_elem_of_further, list_elem_of_further, list_elem_of_here|].
    split; [reflexivity|]. apply list_elem_of_here.
Defined.

(** ** Trimming *)

Lemma trimEnd_head c r :
  JS.is_ws c = false -> exists r', JS.trimEnd (String c r) = String c r'.
Proof.
  intros Hc. cbn [JS.trimEnd]. rewrite Hc. destruct (JS.trimEnd r); eauto.
Qed.

Lemma trimEnd_idem s : JS.trimEnd (JS.trimEnd s) = JS.trimEnd s.
Proof.
  induction s as [|c r IH]; [done|].
  cbn [JS.trimEnd]. destruct (JS.trimEnd r) as [|c' r'] eqn:E.
  - destruct (JS.is_ws c) eqn:Hc; [done|]. cbn. by rewrite Hc.
  - cbn [JS.trimEnd]. cbn [JS.trimEnd] in IH. by rewrite IH.
Qed.

Lemma trimStart_head s :
  JS.trimStart s = "" \/ exists c r, JS.trimStart s = String c r /\ JS.is_ws c = false.
Proof.
  induction s as [|c r IH]; [by left|].
  cbn. destruct (JS.is_ws c) eqn:Hc; [done|]. right. eauto.
Qed.

Lemma trim_head s :
  JS.trim s = "" \/ exists c r, JS.trim s = String c r /\ JS.is_ws c = false.
Proof.
  unfold JS.trim. destruct (trimStart_head s) as [->|(c & r & -> & Hc)]; [by left|].
  right. destruct (trimEnd_head c r Hc) as [r' ->]. eauto.
Qed.

Lemma trim_idem s : JS.trim (JS.trim s) = JS.trim s.
Proof.
  destruct (trim_head s) as [->|(c & r & E & Hc)]; [done|].
  unfold JS.trim at 1. rewrite E. cbn [JS.trimStart]. rewrite Hc, <- E.
  unfold JS.trim. apply trimEnd_idem.
Qed.

(** A trimmed text that is not empty does not consist of white space. *)
Lemma trim_nonempty s :
  (0 <? String.length (JS.trim s))%nat = true ->
  JS.trim s <> "" /\ JS.trim (JS.trim s) = JS.trim s /\ whitespace_only (JS.trim s) = false.
Proof.
  intros H. rewrite trim_idem.
  destruct (trim_head s) as [E|(c & r & E & Hc)]; rewrite E in *; [done|].
  cbn. by rewrite Hc.
Qed.

(** ** No text node of white space (C8) *)

Lemma child_trees_texts_ok m f cs :
  Forall (child_holds (fun e => forall f k, Forall text_ok (flatten m k (tree_of e f)))) cs ->
  forall k, Forall text_ok (flatten_forest (flatten m) k (child_trees f cs)).
Proof.
  induction 1 as [|c cs Hc _ IH]; intros k; [constructor|].
  destruct c as [e|data|]; cbn [child_trees]; fold (child_trees f).
  - cbn [flatten_forest]. apply Forall_app. split; [apply Hc|apply IH].
  - destruct (0 <? String.length (JS.trim data))%nat eqn:E; [|apply IH].
    cbn [flatten_forest flatten]. constructor; [|apply IH].
    by apply trim_nonempty.
  - apply IH.
Qed.

Lemma tree_of_texts_ok m e : forall f k, Forall text_ok (flatten m k (tree_of e f)).
Proof.
  induction e as [n a cs IH] using Element_children_ind. intros f k.
  rewrite tree_of_unfold. cbn [flatten]. constructor; [done|].
  by apply child_trees_texts_ok.
Qed.

Lemma content_trees_texts_ok m dom k :
  Forall text_ok (flatten_forest (flatten m) k (content_trees dom)).
Proof.
  unfold content_trees. generalize (extractContentElements dom) as es. intros es. revert k.
  induction es as [|e es IH]; intros k; [constructor|].
  cbn [map flatten_forest]. apply Forall_app. split; [apply tree_of_texts_ok|apply IH].
Qed.

(** C8. No text node of the compiled list holds only white space: its value
    is not empty, is already trimmed, and does not consist of white space.
    In particular, when the parser reads [html_blank] as a [div] around
    three spaces, the result is the node of the [div] alone, with no
    children. *)
Theorem compile_drops_blank_text (parseDocument : string -> list DomNode) (k : nat)
    (classToIdMap : gmap string string) :
  (forall html i v,
     TextNode i v ∈ nodes (compileHTMLToNodes parseDocument k html classToIdMap) ->
     v <> "" /\ JS.trim v = v /\ whitespace_only v = false)
  /\ (parseDocument html_blank = dom_blank ->
      compileHTMLToNodes parseDocument k html_blank classToIdMap =
      mkResult
        [ ElementNode (uuidv4 k) [] (Own "Block") "div"
            ([ ("attr", JObj [("id", JStr "")]); ("xattr", JArr []);
               ("text", JBool false); ("tag", JStr "div") ] ++ closing_fields false)
            [] ]
        [ uuidv4 k ]).
Proof.
  split.
  - intros html i v Hin. rewrite compileHTMLToNodes_spec in Hin. cbn [nodes] in Hin.
    pose proof (content_trees_texts_ok classToIdMap (parseDocument html) k) as Hok.
    rewrite Forall_forall in Hok. exact (Hok _ Hin).
  - intros Hdom. rewrite compileHTMLToNodes_spec, Hdom. reflexivity.
Qed.

Lemma compile_drops_blank_text_witness :
  length (nodes (compileHTMLToNodes (fun _ => dom_blank) 0 html_blank ∅)) = 1
  /\ whitespace_only "Hello" = false.
Proof.
  pose proof (compile_drops_blank_text (fun _ => dom_hello) 0 ∅) as [Htext _].
  pose proof (compile_drops_blank_text (fun _ => dom_blank) 0 ∅) as [_ Hblank].
  split.
  - rewrite (Hblank eq_refl). reflexivity.
  - refine (proj2 (proj2 (Htext "" (uuidv4 2) "Hello" _))).
    apply list_elem_of_further, list_elem_of_further, list_elem_of_here.
Defined.

(** ** The two-element example (C7) *)

(** Evaluates the closed parts of a flattened tree and leaves the lookups
    in the class map. *)
Ltac eval_nodes dom :=
  let t := eval vm_compute in (content_trees dom) in
  change (content_trees dom) with t;
  cbn [flatten_forest flatten root_ids tree_size map list_sum app];
  unfold element_node;
  repeat match goal with
  | |- context [extractClassNames ?e] =>
      let t := eval vm_compute in (extractClassNames e) in
      change (extractClassNames e) with t
  | |- context [getWebflowType ?a ?e ?f] =>
      let t := eval vm_compute in (getWebflowType a e f) in
      change (getWebflowType a e f) with t
  | |- context [JS.toLowerCase ?e] =>
      let t := eval vm_compute in (JS.toLowerCase e) in
      change (JS.toLowerCase e) with t
  end;
  cbn [omap list_omap].

(** C7, as the code has it: the compiled list for [html_hello] has three
    nodes, since the text is a node of the list too. *)
Lemma compile_hello_three_nodes :
  length (nodes (compileHTMLToNodes (fun _ => dom_hello) 0 html_hello {[ "c" := "S" ]})) = 3
  /\ length (nodes (compileHTMLToNodes (fun _ => dom_hello) 0 html_hello {[ "c" := "S" ]})) <> 2.
Proof. split; [reflexivity|discriminate]. Qed.

(** C7, amended. When the parser reads [html_hello] as a [div] of class [c]
    around a [p] around the text, and the map sends [c] to [styleId], the
    result has exactly three nodes: the block element with style [styleId]
    and one child, that child, a paragraph element whose only child is the
    third node, and the text node with value Hello. *)
Theorem compile_hello (parseDocument : string -> list DomNode) (k : nat)
    (classToIdMap : gmap string string) (styleId : string) :
  parseDocument html_hello = dom_hello ->
  classToIdMap !! "c" = Some styleId ->
  compileHTMLToNodes parseDocument k html_hello classToIdMap =
  mkResult
    [ ElementNode (uuidv4 k) [styleId] (Own "Block") "div"
        ([ ("attr", JObj [("id", JStr "")]); ("xattr", JArr []);
           ("text", JBool false); ("tag", JStr "div") ] ++ closing_fields false)
        [ uuidv4 (k + 1) ];
      ElementNode (uuidv4 (k + 1)) [] (Own "Paragraph") "p"
        ([ ("attr", JObj [("id", JStr "")]); ("xattr", JArr []) ] ++ closing_fields false)
        [ uuidv4 (k + 2) ];
      TextNode (uuidv4 (k + 2)) "Hello" ]
    [ uuidv4 k ].
Proof.
  intros Hdom Hc. rewrite compileHTMLToNodes_spec, Hdom.
  eval_nodes dom_hello. rewrite Hc.
  replace (k + 1) with (S k) by lia. replace (k + 2) with (S (S k)) by lia.
  reflexivity.
Qed.

Lemma compile_hello_witness :
  map is_text (nodes (compileHTMLToNodes (fun _ => dom_hello) 0 html_hello {[ "c" := "S" ]}))
  = [false; false; true].
Proof.
  rewrite (compile_hello (fun _ => dom_hello) 0 {[ "c" := "S" ]} "S");
    [reflexivity | reflexivity | vm_compute; reflexivity].
Defined.

(** ** Element nodes follow the elements of the document *)

Lemma elements_in_context_unfold n a cs anc :
  elements_in_context (mkElement n a cs) anc =
  (mkElement n a cs, anc) :: child_elements_in_context (JS.toLowerCase n :: anc) cs.
Proof. reflexivity. Qed.

Lemma contents_children m f anc cs :
  f = has_form_ancestor anc ->
  Forall (child_holds (fun e => forall f anc k,
    f = has_form_ancestor anc ->
    omap contents (flatten m k (tree_of e f)) =
    map (fun ea => element_node (fst ea) m (has_form_ancestor (snd ea)) "" [])
        (elements_in_context e anc))) cs ->
  forall k,
  omap contents (flatten_forest (flatten m) k (child_trees f cs)) =
  map (fun ea => element_node (fst ea) m (has_form_ancestor (snd ea)) "" [])
      (child_elements_in_context anc cs).
Proof.
  intros Hf. induction 1 as [|c cs Hc _ IH]; intros k; [done|].
  destruct c as [e|data|]; cbn [child_trees child_elements_in_context];
    fold (child_trees f); fold (child_elements_in_context anc).
  - cbn [flatten_forest]. rewrite omap_app, map_app, (Hc f anc k Hf), IH. done.
  - destruct (0 <? String.length (JS.trim data))%nat; [|apply IH].
    cbn [flatten_forest flatten]. apply IH.
  - apply IH.
Qed.

Lemma contents_tree m e : forall f anc k,
  f = has_form_ancestor anc ->
  omap contents (flatten m k (tree_of e f)) =
  map (fun ea => element_node (fst ea) m (has_form_ancestor (snd ea)) "" [])
      (elements_in_context e anc).
Proof.
  induction e as [n a cs IH] using Element_children_ind. intros f anc k Hf.
  rewrite tree_of_unfold, elements_in_context_unfold. cbn [flatten map fst snd].
  rewrite <- Hf. change (omap contents (?x :: ?l)) with
    (match contents x with Some y => y :: omap contents l | None => omap contents l end).
  cbn [contents element_node]. f_equal.
  apply contents_children; [|done].
  subst f. unfold has_form_ancestor, mem. cbn [existsb].
  by rewrite (String.eqb_sym "form").
Qed.

(** The element nodes of a compilation, in order, are the nodes of the
    elements that the compiler visits, in document order; an element is
    compiled inside a form exactly when one of its ancestors is a form. *)
Lemma compile_contents parseDocument k html m :
  omap contents (nodes (compileHTMLToNodes parseDocument k html m)) =
  map (fun ea => element_node (fst ea) m (has_form_ancestor (snd ea)) "" [])
      (compiled_elements (parseDocument html)).
Proof.
  rewrite compileHTMLToNodes_spec. cbn [nodes]. unfold content_trees, compiled_elements.
  generalize (extractContentElements (parseDocument html)) as es. intros es. revert k.
  induction es as [|e es IH]; intros k; [done|].
  cbn [map flatten_forest flat_map].
  rewrite omap_app, map_app, IH. f_equal. by apply contents_tree.
Qed.

(** ** Form context (C4) *)

Lemma node_type_contents (l : list WebflowNode) :
  omap node_type l = omap node_type (omap contents l).
Proof.
  induction l as [|n l IH]; [done|]. destruct n; cbn; by rewrite ?IH.
Qed.

Lemma form_tag_outside e tag :
  tag ∈ ["input"; "textarea"; "select"; "label"] ->
  getWebflowType tag e false = Own "Block".
Proof.
  intros H. repeat (apply elem_of_cons in H as [->|H]); [..|by apply elem_of_nil in H];
    unfold getWebflowType; cbn; try done.
  repeat match goal with |- context [if ?b then _ else _] => destruct b end; done.
Qed.

Lemma form_tag_inside e tag :
  tag ∈ ["input"; "textarea"; "select"; "label"] ->
  exists t, getWebflowType tag e true = Own t /\ JS.startsWith "Form" t = true.
Proof.
  intros H. repeat (apply elem_of_cons in H as [->|H]); [..|by apply elem_of_nil in H];
    unfold getWebflowType; cbn; eauto.
  repeat match goal with |- context [if ?b then _ else _] => destruct b end; eauto.
Qed.

(** ** Root elements are not inside forms *)

Lemma child_elements_in_context_elem anc cs x a :
  (x, a) ∈ child_elements_in_context anc cs <->
  exists c, NElement c ∈ cs /\ (x, a) ∈ elements_in_context c anc.
Proof.
  induction cs as [|c cs IH]; cbn [child_elements_in_context].
  - split; [intros H; by apply elem_of_nil in H|intros (c & H & _); by apply elem_of_nil in H].
  - fold (child_elements_in_context anc).
    assert (Hskip : (forall e, c <> NElement e) ->
              (x, a) ∈ child_elements_in_context anc cs <->
              exists c0, NElement c0 ∈ c :: cs /\ (x, a) ∈ elements_in_context c0 anc).
    { intros Hc. rewrite IH. split; intros (c0 & H0 & H); exists c0; split; try done.
      - by apply list_elem_of_further.
      - apply elem_of_cons in H0 as [H0|H0]; [by destruct (Hc c0)|done]. }
    destruct c as [e|d|]; [|by apply Hskip..].
    rewrite elem_of_app, IH. split.
    + intros [H|(c & Hc & H)]; [exists e|exists c]; split; try done;
        [apply list_elem_of_here|by apply list_elem_of_further].
    + intros (c & Hc & H). apply elem_of_cons in Hc as [[= ->]|Hc]; [by left|right; eauto].
Qed.

Lemma elements_in_context_self e anc : (e, anc) ∈ elements_in_context e anc.
Proof. destruct e. rewrite elements_in_context_unfold. apply list_elem_of_here. Qed.

Lemma structure_tag_no_form outer :
  Forall structure_tag outer -> has_form_ancestor outer = false.
Proof.
  induction 1 as [|t outer Ht _ IH]; [done|].
  unfold has_form_ancestor, mem in *. cbn [existsb]. rewrite IH, orb_false_r.
  destruct (String.eqb_spec "form" t) as [<-|]; [done|done].
Qed.

(** What [traverse] adds to the content elements stands at or below [node],
    under document-structure tags only. *)
Lemma traverse_context node : forall path acc x,
  Forall structure_tag path ->
  x ∈ traverse node acc ->
  x ∈ acc \/ exists outer,
    (x, outer) ∈ elements_in_context node path /\ Forall structure_tag outer.
Proof.
  induction node as [n a cs IH] using Element_children_ind. intros path acc x Hpath.
  cbn [traverse]. rewrite elements_in_context_unfold.
  set (anc := JS.toLowerCase n :: path).
  destruct (String.eqb_spec (JS.toLowerCase n) "body") as [Hbody|_].
  - clear IH. intros Hx.
    assert (Hanc : Forall structure_tag anc) by (constructor; [by rewrite Hbody|done]).
    enough (x ∈ acc \/ (x, anc) ∈ child_elements_in_context anc cs) as [?|?];
      [by left|right; exists anc; split; [by apply list_elem_of_further|done]|].
    revert acc Hx. induction cs as [|c cs IHcs]; intros acc Hx; [by left|].
    cbn [fold_left] in Hx. apply IHcs in Hx as [Hx|Hx].
    + destruct c as [c|d|]; [|by left..].
      destruct (negb _ && negb _); [|by left].
      apply elem_of_app in Hx as [?|Hc]; [by left|].
      apply list_elem_of_singleton in Hc as ->. right.
      apply child_elements_in_context_elem. exists c.
      split; [apply list_elem_of_here|apply elements_in_context_self].
    + right. apply child_elements_in_context_elem in Hx as (c0 & H0 & Hx).
      apply child_elements_in_context_elem. exists c0. split; [by apply list_elem_of_further|done].
  - destruct (mem (JS.toLowerCase n) DOCUMENT_STRUCTURE_TAGS) eqn:Hs.
    + intros Hx.
      assert (Hanc : Forall structure_tag anc) by (by constructor).
      enough (x ∈ acc \/ exists outer,
                (x, outer) ∈ child_elements_in_context anc cs /\ Forall structure_tag outer)
        as [?|(outer & ? & ?)];
        [by left|right; exists outer; split; [by apply list_elem_of_further|done]|].
      revert acc Hx. induction IH as [|c cs Hc _ IHcs]; intros acc Hx; [by left|].
      assert (Hlater : (exists outer, (x, outer) ∈ child_elements_in_context anc cs
                          /\ Forall structure_tag outer) ->
                exists outer, (x, outer) ∈ child_elements_in_context anc (c :: cs)
                          /\ Forall structure_tag outer).
      { intros (outer & Ho & Hso). exists outer. split; [|done].
        apply child_elements_in_context_elem in Ho as (c0 & H0 & Ho).
        apply child_elements_in_context_elem. exists c0.
        split; [by apply list_elem_of_further|done]. }
      destruct c as [c|d|]; apply IHcs in Hx as [Hx|Hx]; try (by left); try (by right; apply Hlater).
      destruct (Hc anc acc x Hanc Hx) as [?|(outer & Ho & Hso)]; [by left|].
      right. exists outer. split; [|done].
      apply child_elements_in_context_elem. exists c. split; [apply list_elem_of_here|done].
    + intros Hx. apply elem_of_app in Hx as [?|Hx]; [by left|].
      apply list_elem_of_singleton in Hx as ->. right. exists path. split; [|done].
      apply list_elem_of_here.
Qed.

(** Each content root is an element of the document whose ancestors all
    carry document-structure tags. *)
Lemma content_elements_context dom x :
  x ∈ extractContentElements dom ->
  exists outer, (x, outer) ∈ document_elements dom /\ Forall structure_tag outer.
Proof.
  unfold extractContentElements, document_elements.
  enough (forall acc, x ∈ fold_left
            (fun acc child => match child with NElement e => traverse e acc | _ => acc end)
            dom acc ->
          x ∈ acc \/ exists outer,
            (x, outer) ∈ child_elements_in_context [] dom /\ Forall structure_tag outer) as H.
  { intros Hx. apply H in Hx as [Hx|Hx]; [by apply elem_of_nil in Hx|done]. }
  induction dom as [|c dom IH]; intros acc Hx; [by left|].
  cbn [fold_left] in Hx. apply IH in Hx as [Hx|(outer & Ho & Hso)].
  - destruct c as [c|d|]; [|by left..].
    destruct (traverse_context c [] acc x (List.Forall_nil _) Hx) as [?|(outer & Ho & Hso)];
      [by left|].
    right. exists outer. split; [|done].
    apply child_elements_in_context_elem. exists c. split; [apply list_elem_of_here|done].
  - right. exists outer. split; [|done].
    apply child_elements_in_context_elem in Ho as (c0 & H0 & Ho).
    apply child_elements_in_context_elem. exists c0. split; [by apply list_elem_of_further|done].
Qed.

Lemma elements_in_context_trans e anc x a y b :
  (x, a) ∈ elements_in_context e anc -> (y, b) ∈ elements_in_context x a ->
  (y, b) ∈ elements_in_context e anc.
Proof.
  revert anc. induction e as [n at_ cs IH] using Element_children_ind. intros anc Hx Hy.
  rewrite elements_in_context_unfold in Hx |- *.
  apply elem_of_cons in Hx as [[= -> ->]|Hx].
  { by rewrite elements_in_context_unfold in Hy. }
  apply list_elem_of_further. apply child_elements_in_context_elem in Hx as (c & Hc & Hx).
  apply child_elements_in_context_elem. exists c. split; [done|].
  rewrite Forall_forall in IH. by apply (IH (NElement c) Hc).
Qed.

(** The ancestors above the starting element are carried along unchanged. *)
Lemma elements_in_context_above e : forall anc outer x a,
  (x, a) ∈ elements_in_context e anc ->
  (x, a ++ outer) ∈ elements_in_context e (anc ++ outer).
Proof.
  induction e as [n at_ cs IH] using Element_children_ind. intros anc outer x a Hx.
  rewrite elements_in_context_unfold in Hx |- *.
  apply elem_of_cons in Hx as [[= -> ->]|Hx]; [apply list_elem_of_here|].
  apply list_elem_of_further. apply child_elements_in_context_elem in Hx as (c & Hc & Hx).
  apply child_elements_in_context_elem. exists c. split; [done|].
  rewrite Forall_forall in IH.
  by apply (IH (NElement c) Hc (JS.toLowerCase n :: anc) outer).
Qed.

Lemma has_form_ancestor_app anc outer :
  has_form_ancestor (anc ++ outer) = has_form_ancestor anc || has_form_ancestor outer.
Proof. apply existsb_app. Qed.

(** A compiled element is an element of the document, and it has a form
    among its ancestors in the document exactly when it has one among the
    ancestors that the compiler went through. *)
Lemma compiled_elements_context dom e anc :
  (e, anc) ∈ compiled_elements dom ->
  exists outer,
    (e, anc ++ outer) ∈ document_elements dom
    /\ has_form_ancestor (anc ++ outer) = has_form_ancestor anc.
Proof.
  unfold compiled_elements. intros H.
  apply list_elem_of_In, in_flat_map in H as (root & Hroot & H).
  apply list_elem_of_In in Hroot, H.
  apply content_elements_context in Hroot as (outer & Ho & Hso).
  exists outer. split.
  - unfold document_elements in *.
    apply child_elements_in_context_elem in Ho as (c & Hc & Ho).
    apply child_elements_in_context_elem. exists c. split; [done|].
    apply (elements_in_context_trans c [] root outer); [done|].
    by apply (elements_in_context_above root [] outer).
  - by rewrite has_form_ancestor_app, (structure_tag_no_form outer Hso), orb_false_r.
Qed.

(** C4. The types of the compiled element nodes are, in document order, the
    types of the visited elements, each classified as inside a form exactly
    when one of its ancestors is a [form] element; the ancestors that the
    compiler went through decide this as all the ancestors in the document
    do, since only document-structure elements stand above a root.  An
    [input], [textarea], [select] or [label] is a [Block] outside a form
    and has a Form type inside one; an [input] of type [text] is a
    [FormTextInput] inside a form. *)
Theorem form_context_classification (parseDocument : string -> list DomNode) (k : nat)
    (html : string) (classToIdMap : gmap string string) :
  omap node_type (nodes (compileHTMLToNodes parseDocument k html classToIdMap)) =
  map (fun ea => getWebflowType (JS.toLowerCase (name (fst ea))) (fst ea)
                                (has_form_ancestor (snd ea)))
      (compiled_elements (parseDocument html))
  /\ (forall e ancestors,
        (e, ancestors) ∈ compiled_elements (parseDocument html) ->
        exists outer,
          (e, ancestors ++ outer) ∈ document_elements (parseDocument html)
          /\ has_form_ancestor (ancestors ++ outer) = has_form_ancestor ancestors)
  /\ (forall e tag,
        tag ∈ ["input"; "textarea"; "select"; "label"] ->
        getWebflowType tag e false = Own "Block"
        /\ exists t, getWebflowType tag e true = Own t /\ JS.startsWith "Form" t = true)
  /\ (forall e,
        attr e "type" = Some "text" ->
        getWebflowType "input" e false = Own "Block"
        /\ getWebflowType "input" e true = Own "FormTextInput").
Proof.
  split; [|split; [|split]].
  - rewrite node_type_contents, compile_contents.
    induction (compiled_elements (parseDocument html)) as [|ea l IH]; [done|].
    cbn. by rewrite IH.
  - intros e ancestors. apply compiled_elements_context.
  - intros e tag H. split; [by apply form_tag_outside|by apply form_tag_inside].
  - intros e H. unfold getWebflowType. rewrite H. done.
Qed.

Lemma form_context_classification_witness :
  omap node_type (nodes (compileHTMLToNodes (fun _ => dom_form) 0 "" ∅)) =
  [ Own "Block"; Own "FormForm"; Own "Block"; Own "FormTextInput" ]
  /\ getWebflowType "label" (mkElement "label" [] []) false = Own "Block"
  /\ getWebflowType "input" (mkElement "input" [("type", "text")] []) true = Own "FormTextInput".
Proof.
  pose proof (form_context_classification (fun _ => dom_form) 0 "" ∅) as (H1 & _ & H2 & H3).
  split; [|split].
  - rewrite H1. reflexivity.
  - apply (H2 (mkElement "label" [] []) "label").
    apply list_elem_of_further, list_elem_of_further, list_elem_of_further, list_elem_of_here.
  - apply (H3 (mkElement "input" [("type", "text")] [])). reflexivity.
Defined.

(** ** Custom elements (C5) *)

Lemma assoc_None_key key table k v :
  assoc key table = None -> (k, v) ∈ table -> String.eqb key k = false.
Proof.
  induction table as [|[k' v'] table IH]; intros Hn Hin; [by apply elem_of_nil in Hin|].
  cbn in Hn. destruct (String.eqb_spec k' key) as [->|Hne]; [done|].
  apply elem_of_cons in Hin as [[= -> ->]|Hin]; [|by apply IH].
  destruct (String.eqb_spec key k'); congruence.
Qed.

Lemma unmapped_tag_type tag e f :
  assoc tag TAG_TO_TYPE_MAP = None -> mem tag object_prototype_keys = false ->
  getWebflowType tag e f = Own "DOM".
Proof.
  intros Ht Hp. unfold getWebflowType, table_get.
  rewrite (assoc_None_key tag TAG_TO_TYPE_MAP "input" "FormTextInput" Ht) by set_solver.
  rewrite (assoc_None_key tag TAG_TO_TYPE_MAP "textarea" "FormTextarea" Ht) by set_solver.
  rewrite (assoc_None_key tag TAG_TO_TYPE_MAP "select" "FormSelect" Ht) by set_solver.
  rewrite (assoc_None_key tag TAG_TO_TYPE_MAP "label" "FormBlockLabel" Ht) by set_solver.
  by rewrite Ht, Hp.
Qed.

Lemma domData_spaced e tag :
  domData e tag =
  [ ("editable", JBool true); ("tag", JStr tag); ("attributes", JArr (spaced_attributes e)) ].
Proof. reflexivity. Qed.

(** C5, as the code has it: an attribute with an empty value is not
    reproduced verbatim, its value becomes one space. *)
Lemma custom_element_not_verbatim :
  let r := compileHTMLToNodes (fun _ => [NElement video_controls]) 0 "" ∅ in
  map node_data (nodes r) =
    [ [ ("editable", JBool true); ("tag", JStr "video");
        ("attributes", JArr [ JObj [("name", JStr "controls"); ("value", JStr " ")] ]) ] ]
  /\ verbatim_attributes video_controls =
       [ JObj [("name", JStr "controls"); ("value", JStr "")] ]
  /\ map (obj_get "attributes") (map node_data (nodes r))
     <> [ Some (JArr (verbatim_attributes video_controls)) ].
Proof. repeat split. discriminate. Qed.

(** C5, amended. The element nodes of a compilation are, in document order,
    the nodes of the visited elements.  An element whose lower-cased tag is
    not a key of the tag-to-type table (which rules out the four tags of the
    form-context override), and not the name of a member that objects
    inherit, gets the type [DOM]; its data holds the lower-cased tag and
    every attribute other than [class] and [id] as a name/value pair, in
    order, the value as it is when it is not empty and one space when it is
    empty; the [tag] of the node itself is [div]. *)
Theorem custom_element_preserved (parseDocument : string -> list DomNode) (k : nat)
    (html : string) (classToIdMap : gmap string string) :
  omap contents (nodes (compileHTMLToNodes parseDocument k html classToIdMap)) =
  map (fun ea => element_node (fst ea) classToIdMap (has_form_ancestor (snd ea)) "" [])
      (compiled_elements (parseDocument html))
  /\ forall e insideForm nodeId childIds,
       assoc (JS.toLowerCase (name e)) TAG_TO_TYPE_MAP = None ->
       mem (JS.toLowerCase (name e)) object_prototype_keys = false ->
       element_node e classToIdMap insideForm nodeId childIds =
       ElementNode nodeId
         (omap (fun className => classToIdMap !! className) (extractClassNames e))
         (Own "DOM") "div"
         [ ("editable", JBool true);
           ("tag", JStr (JS.toLowerCase (name e)));
           ("attributes", JArr (spaced_attributes e)) ]
         childIds.
Proof.
  split; [apply compile_contents|].
  intros e f i cs Ht Hp. unfold element_node.
  rewrite (unmapped_tag_type _ e f Ht Hp). cbn [is_type String.eqb]. done.
Qed.

Lemma custom_element_preserved_witness :
  element_node video_controls ∅ false "n" [] =
  ElementNode "n" [] (Own "DOM") "div"
    [ ("editable", JBool true); ("tag", JStr "video");
      ("attributes", JArr [ JObj [("name", JStr "controls"); ("value", JStr " ")] ]) ]
    [].
Proof.
  pose proof (custom_element_preserved (fun _ => []) 0 "" ∅) as [_ H].
  rewrite (H video_controls false "n" [] eq_refl eq_refl). reflexivity.
Defined.

(** ** The maxlength attribute (C10) *)

Lemma parseInt_undefined : JS.parseInt "undefined" = None.
Proof. reflexivity. Qed.

Lemma number_or_rule value dflt :
  JS.number_or (JS.parseInt_arg value) dflt = maxlength_rule value dflt.
Proof.
  unfold JS.parseInt_arg, maxlength_rule. destruct value as [v|]; [done|].
  cbn [default]. by rewrite parseInt_undefined.
Qed.

Lemma digit_value_decimal c :
  JS.is_digit c = true ->
  JS.digit_value 10 c = Some (Z.of_N (JS.code c) - 48)%Z.
Proof.
  intros H. unfold JS.digit_value. rewrite H.
  unfold JS.is_digit in H. apply andb_true_iff in H as [H1 H2].
  apply N.leb_le in H1, H2.
  destruct (Z.ltb_spec (Z.of_N (JS.code c) - 48) 10); [done|lia].
Qed.

Lemma read_digits_decimal s : forall acc,
  all_digits s = true ->
  JS.read_digits 10 s (Some acc) = Some (decimal_from acc s).
Proof.
  induction s as [|c r IH]; intros acc H; [done|].
  cbn in H. apply andb_true_iff in H as [Hc Hr].
  cbn [JS.read_digits decimal_from]. rewrite (digit_value_decimal c Hc). cbn [default].
  rewrite IH by done. unfold id.
  by replace (acc * 10 + (Z.of_N (JS.code c) - 48))%Z
    with (10 * acc + (Z.of_N (JS.code c) - 48))%Z by lia.
Qed.

Lemma digit_not_ws c : JS.is_digit c = true -> JS.is_ws c = false.
Proof.
  unfold JS.is_digit, JS.is_ws. intros H. apply andb_true_iff in H as [H1 H2].
  apply N.leb_le in H1, H2.
  repeat match goal with
  | |- context [(?a <=? ?b)%N] => destruct (N.leb_spec a b)
  | |- context [(?a =? ?b)%N] => destruct (N.eqb_spec a b)
  end; try done; lia.
Qed.

(** [parseInt] reads a decimal numeral as its value. *)
Lemma parseInt_numeral s :
  s <> "" -> all_digits s = true -> JS.parseInt s = Some (decimal_value s).
Proof.
  intros Hne Hd. destruct s as [|c r]; [done|].
  pose proof Hd as Hd'. cbn in Hd'. apply andb_true_iff in Hd' as [Hc Hr].
  unfold JS.parseInt. cbn [JS.trimStart]. rewrite (digit_not_ws c Hc).
  destruct (ascii_dec c "-") as [->|_]; [done|].
  destruct (ascii_dec c "+") as [->|_]; [done|].
  assert (Hx : JS.startsWith "0x" (String c r) || JS.startsWith "0X" (String c r) = false).
  { cbn [JS.startsWith]. destruct (ascii_dec "0" c); [|done].
    destruct r as [|c' r']; [done|].
    cbn in Hr. apply andb_true_iff in Hr as [Hc' _].
    destruct (ascii_dec "x" c') as [<-|]; [done|].
    destruct (ascii_dec "X" c') as [<-|]; done. }
  rewrite Hx. cbn [JS.read_digits]. rewrite (digit_value_decimal c Hc). cbn [default].
  rewrite read_digits_decimal by done.
  unfold decimal_value. cbn [decimal_from]. f_equal.
  destruct (decimal_from _ r); done.
Qed.

(** C10, as the code has it: a [maxlength] attribute of zero is parsed as
    the integer 0 and replaced by the default. *)
Lemma maxlength_zero_defaults :
  attr input_zero "maxlength" = Some "0"
  /\ JS.parseInt "0" = Some 0%Z
  /\ obj_get "maxlength" (extractAttributes input_zero "input") = Some (JNum 256).
Proof. repeat split. Qed.

(** C10, amended. For an [input] whose type is none of submit, button, radio
    and checkbox, the attribute bag holds a [maxlength]: the integer that
    [parseInt] reads from the attribute when there is one and it is not
    zero, and 256 when the attribute is absent, starts with no integer, or
    is read as zero; for a [textarea] the same with 5000.  A decimal numeral
    (of at most 15 digits, for which the number is exact) that is not zero
    is read as its value. *)
Theorem maxlength_attribute (e : Element) :
  (or_else (attr e "type") "text" ∉ ["submit"; "button"; "radio"; "checkbox"] ->
   obj_get "maxlength" (extractAttributes e "input")
   = Some (JNum (maxlength_rule (attr e "maxlength") 256)))
  /\ obj_get "maxlength" (extractAttributes e "textarea")
     = Some (JNum (maxlength_rule (attr e "maxlength") 5000))
  /\ (forall v dflt,
        v <> "" -> all_digits v = true -> String.length v <= 15 -> decimal_value v <> 0%Z ->
        maxlength_rule (Some v) dflt = decimal_value v)
  /\ (forall dflt, maxlength_rule None dflt = dflt)
  /\ (forall v dflt, JS.parseInt v = None -> maxlength_rule (Some v) dflt = dflt)
  /\ (forall v dflt, JS.parseInt v = Some 0%Z -> maxlength_rule (Some v) dflt = dflt).
Proof.
  repeat split.
  - intros Ht. unfold extractAttributes. cbn [String.eqb Ascii.eqb Bool.eqb].
    destruct (String.eqb_spec (or_else (attr e "type") "text") "submit") as [E|_];
      [rewrite E in Ht; set_solver|].
    destruct (String.eqb_spec (or_else (attr e "type") "text") "button") as [E|_];
      [rewrite E in Ht; set_solver|].
    destruct (String.eqb_spec (or_else (attr e "type") "text") "radio") as [E|_];
      [rewrite E in Ht; set_solver|].
    destruct (String.eqb_spec (or_else (attr e "type") "text") "checkbox") as [E|_];
      [rewrite E in Ht; set_solver|].
    cbn. by rewrite number_or_rule.
  - unfold extractAttributes. cbn. by rewrite number_or_rule.
  - intros v dflt Hne Hd _ Hz. unfold maxlength_rule.
    rewrite (parseInt_numeral v Hne Hd). by destruct (Z.eqb_spec (decimal_value v) 0).
  - intros v dflt H. unfold maxlength_rule. by rewrite H.
  - intros v dflt H. unfold maxlength_rule. by rewrite H.
Qed.

Lemma maxlength_attribute_witness :
  obj_get "maxlength" (extractAttributes input_forty "input") = Some (JNum 40)
  /\ maxlength_rule (Some "abc") 256 = 256%Z.
Proof.
  pose proof (maxlength_attribute input_forty) as (H1 & _ & H3 & _ & H5 & _).
  split.
  - rewrite H1.
    + change (attr input_forty "maxlength") with (Some "40").
      rewrite (H3 "40" 256%Z); [reflexivity|discriminate|reflexivity|simpl; lia|discriminate].
    + change (or_else (attr input_forty "type") "text") with "text".
      intros H. repeat (apply elem_of_cons in H as [H|H]; [discriminate|]).
      by apply elem_of_nil in H.
  - apply (H5 "abc" 256%Z). reflexivity.
Defined.

(** ** Media queries (C9) *)

(** C9, on the style sheet of the repository's own test: the closing brace
    of each media block is indented, the media-query regex asks for a brace
    directly after the line break, and so no block is found and the style of
    [responsive] has no variant at all, where the test expects
    [variants.small] and [variants.tiny]. *)
Theorem media_variant_missing (depth drawn : nat) :
  parseMediaQueries css_responsive = []
  /\ (fun r => map (fun s => (styleLess s, variants s)) (styles r))
       <$> parseCSSWithMediaQueries (S depth) drawn css_responsive ["responsive"]
     = Some [ ("font-size: 16px; padding: 20px", []) ].
Proof. split; vm_compute; reflexivity. Qed.

(** With the closing brace in the first column the variant is found. *)
Lemma media_variant_found (depth drawn : nat) :
  (fun r => map (fun s => (styleLess s, variants s)) (styles r))
    <$> parseCSSWithMediaQueries (S depth) drawn css_unindented ["t"]
  = Some [ ("color: red", [("small", "color: blue")]) ].
Proof. vm_compute. reflexivity. Qed.

(** ** A variable defined by itself (C3) *)

Lemma scan_var_a :
  Regex.scan match_var "var(--a)" = [inr ("var(--a)", "a", None)].
Proof. reflexivity. Qed.

Lemma resolve_self_reference (variables : gmap string string) :
  variables !! "a" = Some "var(--a)" ->
  forall depth, resolveCSSVariables depth "var(--a)" variables = None.
Proof.
  intros Ha. induction depth as [|depth IH]; [done|].
  cbn [resolveCSSVariables]. rewrite scan_var_a. cbn [fold_right].
  rewrite Ha. change (JS.includes "var(" "var(--a)") with true. cbn iota.
  rewrite IH. done.
Qed.

Lemma resolve_failing_piece depth variables (pieces : list (ascii + (string * string * option string)))
    matched varName fallback value :
  variables !! varName = Some value -> JS.includes "var(" value = true ->
  resolveCSSVariables depth value variables = None ->
  inr (matched, varName, fallback) ∈ pieces ->
  fold_right
    (fun piece rest =>
       out ← rest;
       match piece with
       | inl c => Some (String c out)
       | inr (matched, varName, fallback) =>
           replacement ←
             match variables !! varName with
             | Some value =>
                 if JS.includes "var(" value
                 then resolveCSSVariables depth value variables
                 else Some value
             | None =>
                 match fallback with
                 | Some f => if nonempty f then Some (JS.trim f) else Some matched
                 | None => Some matched
                 end
             end;
           Some (replacement +:+ out)
       end)
    (Some "") pieces = None.
Proof.
  intros Hv Hi Hr. induction pieces as [|p pieces IH]; intros Hin; [by apply elem_of_nil in Hin|].
  cbn [fold_right]. apply elem_of_cons in Hin as [<-|Hin].
  - destruct (fold_right _ _ pieces); [|done]. cbn. by rewrite Hv, Hi, Hr.
  - by rewrite IH.
Qed.

Lemma resolve_declaration_of_cycle (variables : gmap string string) :
  variables !! "a" = Some "var(--a)" ->
  forall depth, resolveCSSVariables depth "color: var(--a)" variables = None.
Proof.
  intros Ha [|depth]; [done|]. cbn [resolveCSSVariables].
  apply (resolve_failing_piece depth variables _ "var(--a)" "a" None "var(--a)");
    [done|done|by apply resolve_self_reference|].
  apply list_elem_of_In. vm_compute. repeat (first [left; reflexivity | right]).
Qed.

(** C3, at a style sheet whose custom property refers to itself: whatever
    call depth is available, [parseCSSToWebflow] runs out of it resolving
    the declaration of [x], so it raises and returns no style record. *)
Theorem parseCSSToWebflow_raises_on_cycle (depth drawn : nat) :
  parseCSSToWebflow depth drawn css_cycle ["x"] = None.
Proof.
  unfold parseCSSToWebflow.
  assert (Hrule : findRuleForClass (parseCSSRules css_cycle) "x"
                  = Some (mkRule ".x" ["color: var(--a)"])) by reflexivity.
  assert (Hvar : extractCSSVariables css_cycle !! "a" = Some "var(--a)")
    by (vm_compute; reflexivity).
  cbn [fold_left mbind option_bind]. rewrite Hrule. cbn [properties mapM].
  rewrite (resolve_declaration_of_cycle _ Hvar depth). reflexivity.
Qed.

(** ** Strings and scans *)

Lemma app_cons c s t : String c s +:+ t = String c (s +:+ t).
Proof. reflexivity. Qed.

Lemma app_empty_l s : "" +:+ s = s.
Proof. reflexivity. Qed.

Lemma app_empty_r s : s +:+ "" = s.
Proof. induction s as [|c s IH]; [done|]. by rewrite app_cons, IH. Qed.

Lemma app_assoc_s s t u : (s +:+ t) +:+ u = s +:+ t +:+ u.
Proof. induction s as [|c s IH]; [done|]. by rewrite !app_cons, IH. Qed.

Lemma length_app_s s t : String.length (s +:+ t) = String.length s + String.length t.
Proof. induction s as [|c s IH]; [done|]. rewrite app_cons. cbn. by rewrite IH. Qed.


Lemma drop_app_s s t : JS.drop (String.length s) (s +:+ t) = t.
Proof. induction s as [|c s IH]; [done|]. rewrite app_cons. by cbn. Qed.

Lemma startsWith_app p t : JS.startsWith p (p +:+ t) = true.
Proof.
  induction p as [|c p IH]; [done|]. rewrite app_cons. cbn.
  by destruct (ascii_dec c c).
Qed.




(** ** References in declarations (C6) *)




Lemma ws_not_word_dash c : JS.is_ws c = true -> JS.is_word_dash c = false.
Proof. destruct c as [[] [] [] [] [] [] [] []]; done. Qed.








Lemma resolve_step depth s variables :
  resolveCSSVariables (S depth) s variables =
  resolve_pieces depth variables (Regex.scan match_var s).
Proof. reflexivity. Qed.





(** *** Resolution ends when references go down in rank *)

Lemma resolve_pieces_is_Some depth variables pieces :
  (forall m n fb v,
     inr (m, n, fb) ∈ pieces -> variables !! n = Some v -> JS.includes "var(" v = true ->
     is_Some (resolveCSSVariables depth v variables)) ->
  is_Some (resolve_pieces depth variables pieces).
Proof.
  induction pieces as [|p pieces IH]; intros H; [by eexists|].
  unfold resolve_pieces in *. cbn [fold_right].
  destruct IH as [out Hout].
  { intros m n fb v Hin. apply (H m n fb v). by apply list_elem_of_further. }
  rewrite Hout. destruct p as [c|[[m n] fb]]; [by eexists|].
  unfold replace_piece. cbn [mbind option_bind]. destruct (variables !! n) as [v|] eqn:Hv.
  - destruct (JS.includes "var(" v) eqn:Hi; [|by eexists].
    destruct (H m n fb v (list_elem_of_here _ _) Hv Hi) as [a ->]. by eexists.
  - destruct fb as [f|]; [destruct (nonempty f)|]; by eexists.
Qed.

Lemma piece_reference s m n fb :
  inr (m, n, fb) ∈ Regex.scan match_var s -> n ∈ references_of s.
Proof.
  intros Hin. unfold references_of, Regex.exec_all.
  apply list_elem_of_fmap. exists (m, n, fb). split; [done|].
  apply list_elem_of_omap. exists (inr (m, n, fb)). by split.
Qed.

Lemma ranked_value_resolves variables rank :
  ranked variables rank ->
  forall k n v depth,
    variables !! n = Some v -> rank n <= k -> k < depth ->
    is_Some (resolveCSSVariables depth v variables).
Proof.
  intros Hr. induction k as [|k IH]; intros n v depth Hv Hk Hd;
    (destruct depth as [|depth]; [lia|]);
    rewrite resolve_step; apply resolve_pieces_is_Some;
    intros m n' fb v' Hin Hv' _; apply piece_reference in Hin;
    pose proof (Hr n v n' Hv Hin (mk_is_Some _ _ Hv')) as Hlt.
  - lia.
  - apply (IH n' v' depth Hv'); lia.
Qed.

Lemma ranked_resolves_from variables rank s bound depth :
  ranked variables rank ->
  (forall n, n ∈ references_of s -> rank n <= bound) ->
  bound + 2 <= depth ->
  is_Some (resolveCSSVariables depth s variables).
Proof.
  intros Hr Hb Hd. destruct depth as [|depth]; [lia|].
  rewrite resolve_step. apply resolve_pieces_is_Some.
  intros m n fb v Hin Hv _. apply piece_reference in Hin.
  apply (ranked_value_resolves variables rank Hr bound n v); [done| |lia].
  by apply Hb.
Qed.




(** C6, at a reference whose fallback holds parentheses: the reference
    stands in the declaration [color: var(--c, rgb(0,0,0))], where resolution
    as the documentation words it gives [color: red]; the regex of
    [resolveCSSVariables] ends the reference at the first closing
    parenthesis, so the code leaves the last one behind and returns
    [color: red)], which is the declaration string that [parseCSSToWebflow]
    gives to class [x] of [css_fallback].  For the same reason a reference
    that stands in a fallback is cut before its end and is not resolved,
    though its variable is in the table: [color: var(--x, var(--c))] is
    returned as [color: var(--c)]. *)
Theorem fallback_parenthesis_left_over (depth : nat) :
  declaration_text fallback_declaration = "color: var(--c, rgb(0,0,0))"
  /\ resolve_declaration depth {[ "c" := "red" ]} fallback_declaration = Some "color: red"
  /\ resolveCSSVariables (S depth) "color: var(--c, rgb(0,0,0))" {[ "c" := "red" ]}
     = Some "color: red)"
  /\ (forall drawn,
        (fun r => map styleLess (styles r))
          <$> parseCSSToWebflow (S depth) drawn css_fallback ["x"]
        = Some [ "color: red)" ])
  /\ resolveCSSVariables (S depth) "color: var(--x, var(--c))" {[ "c" := "red" ]}
     = Some "color: var(--c)".
Proof.
  split; [reflexivity|]. split; [vm_compute; reflexivity|].
  split; [vm_compute; reflexivity|]. split; [intros drawn; vm_compute; reflexivity|].
  vm_compute. reflexivity.
Qed.

(** ** The chunker on a compiled forest (C2) *)

Lemma laid_out_app k l1 l2 :
  laid_out k (l1 ++ l2) <-> laid_out k l1 /\ laid_out (k + length l1) l2.
Proof.
  unfold laid_out. rewrite map_app, length_app, seq_app, map_app. split.
  - intros H. apply app_inj_1 in H; [done|]. by rewrite !length_map, length_seq.
  - by intros [-> ->].
Qed.

Lemma embedded_laid_out_lookup m nodes k j t i n :
  embedded m nodes k j t -> flatten m j t !! i = Some n -> nodes !! (j - k + i) = Some n.
Proof.
  intros (pre & post & -> & ->) Hi.
  replace (k + length pre - k + i) with (length pre + i) by lia.
  rewrite lookup_app_r by lia. replace (length pre + i - length pre) with i by lia.
  by apply lookup_app_l_Some.
Qed.

Lemma embedded_find m nodes k j t i n :
  laid_out k nodes -> embedded m nodes k j t -> flatten m j t !! i = Some n ->
  find_node nodes (uuidv4 (j + i)) = Some n.
Proof.
  intros Hl He Hi. pose proof He as (pre & post & _ & Hj).
  replace (j + i) with (k + (j - k + i)) by lia.
  apply find_node_laid_out; [done|]. by eapply embedded_laid_out_lookup.
Qed.

Lemma embedded_kid m nodes k j e f ks1 kid ks2 :
  embedded m nodes k j (WElem e f (ks1 ++ kid :: ks2)) ->
  embedded m nodes k (S j + forest_size ks1) kid.
Proof.
  intros (pre & post & -> & ->). cbn [flatten].
  rewrite flatten_forest_app. cbn [flatten_forest].
  exists (pre ++ [element_node e m f (uuidv4 (k + length pre))
                    (root_ids (S (k + length pre)) (ks1 ++ kid :: ks2))]
              ++ flatten_forest (flatten m) (S (k + length pre)) ks1),
         (flatten_forest (flatten m) (S (k + length pre) + forest_size ks1 + tree_size kid) ks2
          ++ post).
  split.
  - rewrite <- !app_assoc. cbn [app]. by rewrite <- !app_assoc.
  - rewrite !length_app, length_flatten_forest. cbn [length]. lia.
Qed.

Lemma embedded_forest_tree m k ts1 t ts2 :
  embedded m (flatten_forest (flatten m) k (ts1 ++ t :: ts2)) k (k + forest_size ts1) t.
Proof.
  rewrite flatten_forest_app. cbn [flatten_forest].
  eexists _, _. split; [done|]. by rewrite length_flatten_forest.
Qed.

Lemma tree_size_le_forest t ts : t ∈ ts -> tree_size t <= forest_size ts.
Proof.
  induction ts as [|t' ts IH]; intros H; [by apply elem_of_nil in H|].
  rewrite forest_size_cons. apply elem_of_cons in H as [->|H]; [lia|].
  apply IH in H. lia.
Qed.

Lemma idset_S j n : idset j (S n) = {[ uuidv4 j ]} ∪ idset (S j) n.
Proof. reflexivity. Qed.

Lemma idset_add j a b : idset j (a + b) = idset j a ∪ idset (j + a) b.
Proof. unfold idset. by rewrite seq_app, map_app, list_to_set_app_L. Qed.

Lemma elem_of_idset x j n : x ∈ idset j n <-> exists i, x = uuidv4 i /\ j <= i < j + n.
Proof.
  unfold idset. rewrite elem_of_list_to_set, list_elem_of_fmap. split.
  - intros (i & -> & Hi). apply elem_of_seq in Hi. eauto.
  - intros (i & -> & Hi). exists i. split; [done|]. by apply elem_of_seq.
Qed.

Lemma size_idset j n : size (idset j n) = n.
Proof.
  unfold idset. rewrite size_list_to_set by apply NoDup_uuids.
  by rewrite length_map, length_seq.
Qed.

Lemma flatten_root m j t :
  exists n, flatten m j t !! 0 = Some n
    /\ node_children n = match t with
                         | WText _ => []
                         | WElem _ _ kids => root_ids (S j) kids
                         end.
Proof. destruct t; eexists; split; reflexivity. Qed.

(** [countNodesInSubtree] on the root of an embedded tree counts the nodes of
    the tree, when the call depth exceeds the size of the tree. *)
Lemma count_embedded m nodes k :
  laid_out k nodes ->
  forall t j depth,
    embedded m nodes k j t -> tree_size t < depth ->
    countNodesInSubtree depth nodes (uuidv4 j) = Some (tree_size t).
Proof.
  intros Hl t. induction t as [v|e f kids IH] using WTree_kids_ind;
    intros j depth He Hd; (destruct depth as [|depth]; [lia|]);
    cbn [countNodesInSubtree];
    match type of He with
    | embedded _ _ _ _ ?t => destruct (flatten_root m j t) as (n & Hn & Hc)
    end;
    pose proof (embedded_find m nodes k j _ 0 n Hl He Hn) as Hf;
    rewrite Nat.add_0_r in Hf; rewrite Hf, Hc; [done|].
  cbn [tree_size] in *. fold (forest_size kids) in *.
  assert (Hloop : forall ks2 ks1 c,
    kids = ks1 ++ ks2 ->
    fold_left
      (fun count childId =>
         c ← count; k ← countNodesInSubtree depth nodes childId; Some (c + k))
      (root_ids (S j + forest_size ks1) ks2) (Some c) = Some (c + forest_size ks2)).
  { induction ks2 as [|kid ks2 IHks]; intros ks1 c Hk.
    - cbn. f_equal. unfold forest_size. cbn. lia.
    - cbn [root_ids fold_left mbind option_bind].
      assert (Hin : kid ∈ kids) by (rewrite Hk; set_solver).
      rewrite Forall_forall in IH. rewrite (IH kid Hin (S j + forest_size ks1) depth).
      + cbn [mbind option_bind].
        replace (S j + forest_size ks1 + tree_size kid)
          with (S j + forest_size (ks1 ++ [kid]))
          by (rewrite forest_size_app; unfold forest_size; cbn; lia).
        rewrite (IHks (ks1 ++ [kid])) by by rewrite <- app_assoc.
        f_equal. rewrite forest_size_cons. lia.
      + subst kids. by apply (embedded_kid m nodes k j e f ks1 kid ks2).
      + apply tree_size_le_forest in Hin. lia. }
  rewrite <- (Nat.add_0_r (S j)). change 0 with (forest_size []) at 1.
  rewrite (Hloop kids [] 1 eq_refl). done.
Qed.

(** [collectSubtreeNodes] on the root of an embedded tree adds the
    identifiers of the tree. *)
Lemma collect_embedded m nodes k :
  laid_out k nodes ->
  forall t j depth collected,
    embedded m nodes k j t -> tree_size t < depth ->
    collectSubtreeNodes depth nodes (uuidv4 j) collected
    = Some (idset j (tree_size t) ∪ collected).
Proof.
  intros Hl t. induction t as [v|e f kids IH] using WTree_kids_ind;
    intros j depth collected He Hd; (destruct depth as [|depth]; [lia|]);
    cbn [collectSubtreeNodes];
    match type of He with
    | embedded _ _ _ _ ?t => destruct (flatten_root m j t) as (n & Hn & Hc)
    end;
    pose proof (embedded_find m nodes k j _ 0 n Hl He Hn) as Hf;
    rewrite Nat.add_0_r in Hf; rewrite Hf, Hc.
  { cbn [fold_left tree_size]. rewrite idset_S. f_equal. unfold idset. cbn. set_solver. }
  cbn [tree_size] in *. fold (forest_size kids) in *.
  assert (Hloop : forall ks2 ks1 acc,
    kids = ks1 ++ ks2 ->
    fold_left
      (fun acc childId => c ← acc; collectSubtreeNodes depth nodes childId c)
      (root_ids (S j + forest_size ks1) ks2) (Some acc)
    = Some (idset (S j + forest_size ks1) (forest_size ks2) ∪ acc)).
  { induction ks2 as [|kid ks2 IHks]; intros ks1 acc Hk.
    - cbn. f_equal. unfold idset. cbn. set_solver.
    - cbn [root_ids fold_left mbind option_bind].
      assert (Hin : kid ∈ kids) by (rewrite Hk; set_solver).
      rewrite Forall_forall in IH. rewrite (IH kid Hin (S j + forest_size ks1) depth).
      + replace (S j + forest_size ks1 + tree_size kid)
          with (S j + forest_size (ks1 ++ [kid]))
          by (rewrite forest_size_app; unfold forest_size; cbn; lia).
        rewrite (IHks (ks1 ++ [kid])) by by rewrite <- app_assoc.
        f_equal. rewrite forest_size_cons, idset_add.
        replace (S j + forest_size (ks1 ++ [kid]))
          with (S j + forest_size ks1 + tree_size kid)
          by (rewrite forest_size_app; unfold forest_size; cbn; lia).
        set_solver.
      + subst kids. by apply (embedded_kid m nodes k j e f ks1 kid ks2).
      + apply tree_size_le_forest in Hin. lia. }
  rewrite <- (Nat.add_0_r (S j)). change 0 with (forest_size []) at 1.
  rewrite (Hloop kids [] _ eq_refl). f_equal.
  rewrite idset_S. change (forest_size []) with 0. rewrite Nat.add_0_r. set_solver.
Qed.

(** Filtering a laid-out list by a range of identifiers cuts the range
    out. *)
Lemma laid_out_elem k nodes n :
  laid_out k nodes -> n ∈ nodes ->
  exists i, node_id n = uuidv4 i /\ k <= i < k + length nodes.
Proof.
  intros Hl Hn. apply list_elem_of_lookup in Hn as [i Hi]. exists (k + i).
  split; [by eapply laid_out_lookup|]. apply lookup_lt_Some in Hi. lia.
Qed.

Lemma filter_all {A} (f : A -> bool) l :
  (forall x, x ∈ l -> f x = true) -> List.filter f l = l.
Proof.
  induction l as [|x l IH]; intros H; [done|]. cbn.
  rewrite (H x) by apply list_elem_of_here. f_equal. apply IH.
  intros y Hy. apply H. by apply list_elem_of_further.
Qed.

Lemma filter_none {A} (f : A -> bool) l :
  (forall x, x ∈ l -> f x = false) -> List.filter f l = [].
Proof.
  induction l as [|x l IH]; intros H; [done|]. cbn.
  rewrite (H x) by apply list_elem_of_here. apply IH.
  intros y Hy. apply H. by apply list_elem_of_further.
Qed.

Lemma chunk_of_inside j nodes a n :
  laid_out j nodes -> a <= j -> j + length nodes <= a + n ->
  chunk_of nodes (idset a n) = nodes.
Proof.
  intros Hl H1 H2. apply filter_all. intros x Hx.
  destruct (laid_out_elem j nodes x Hl Hx) as (i & Hi & Hr).
  apply bool_decide_eq_true. rewrite Hi. apply elem_of_idset. exists i. split; [done|lia].
Qed.

Lemma chunk_of_outside j nodes a n :
  laid_out j nodes -> (j + length nodes <= a \/ a + n <= j) ->
  chunk_of nodes (idset a n) = [].
Proof.
  intros Hl H. apply filter_none. intros x Hx.
  destruct (laid_out_elem j nodes x Hl Hx) as (i & Hi & Hr).
  apply bool_decide_eq_false. rewrite Hi. intros Hin.
  apply elem_of_idset in Hin as (i' & E & Hr'). apply uuidv4_inj in E. lia.
Qed.

Lemma chunk_of_segment k pre mid post :
  laid_out k (pre ++ mid ++ post) ->
  chunk_of (pre ++ mid ++ post) (idset (k + length pre) (length mid)) = mid.
Proof.
  intros Hl. apply laid_out_app in Hl as [Hpre Hl]. apply laid_out_app in Hl as [Hmid Hpost].
  unfold chunk_of. rewrite !List.filter_app.
  fold (chunk_of pre (idset (k + length pre) (length mid))).
  fold (chunk_of mid (idset (k + length pre) (length mid))).
  fold (chunk_of post (idset (k + length pre) (length mid))).
  rewrite (chunk_of_outside k pre) by (try done; lia).
  rewrite (chunk_of_inside (k + length pre) mid) by (try done; lia).
  rewrite (chunk_of_outside (k + length pre + length mid) post) by (try done; lia).
  by rewrite app_nil_r.
Qed.

Lemma group_nodes_app m k gs1 gs2 :
  group_nodes m k (gs1 ++ gs2) =
  group_nodes m k gs1 ++ group_nodes m (k + forest_size (concat gs1)) gs2.
Proof.
  revert k. induction gs1 as [|g gs1 IH]; intros k; cbn [group_nodes app concat].
  - by rewrite Nat.add_0_r.
  - rewrite IH, forest_size_app. by rewrite Nat.add_assoc.
Qed.

Lemma group_roots_app k gs1 gs2 :
  group_roots k (gs1 ++ gs2) =
  group_roots k gs1 ++ group_roots (k + forest_size (concat gs1)) gs2.
Proof.
  revert k. induction gs1 as [|g gs1 IH]; intros k; cbn [group_roots app concat].
  - by rewrite Nat.add_0_r.
  - rewrite IH, forest_size_app. by rewrite Nat.add_assoc.
Qed.



Lemma forest_size_pos ts : ts <> [] -> 0 < forest_size ts.
Proof. destruct ts as [|t ts]; [done|]. intros _. pose proof (tree_size_pos t).
  rewrite forest_size_cons. lia. Qed.




(** *** Reaching the nodes of a tree from its root *)

Lemma forest_index_split ts : forall o i,
  o <= i < o + forest_size ts ->
  exists ts1 t ts2,
    ts = ts1 ++ t :: ts2
    /\ o + forest_size ts1 <= i < o + forest_size ts1 + tree_size t.
Proof.
  induction ts as [|t ts IH]; intros o i Hi; [cbn in Hi; lia|].
  rewrite forest_size_cons in Hi.
  destruct (decide (i < o + tree_size t)) as [Hlt|Hge].
  - exists [], t, ts. split; [done|]. change (forest_size []) with 0. lia.
  - destruct (IH (o + tree_size t) i ltac:(lia)) as (ts1 & t' & ts2 & -> & Hr).
    exists (t :: ts1), t', ts2. split; [done|]. rewrite forest_size_cons. lia.
Qed.

Lemma root_ids_split o ts r :
  r ∈ root_ids o ts <->
  exists ts1 t ts2, ts = ts1 ++ t :: ts2 /\ r = uuidv4 (o + forest_size ts1).
Proof.
  split.
  - revert o. induction ts as [|t ts IH]; intros o Hr; [by apply elem_of_nil in Hr|].
    cbn [root_ids] in Hr. apply elem_of_cons in Hr as [->|Hr].
    + exists [], t, ts. split; [done|]. change (forest_size []) with 0. by rewrite Nat.add_0_r.
    + destruct (IH _ Hr) as (ts1 & t' & ts2 & -> & ->).
      exists (t :: ts1), t', ts2. split; [done|]. rewrite forest_size_cons. f_equal. lia.
  - intros (ts1 & t & ts2 & -> & ->). rewrite root_ids_app. cbn [root_ids]. set_solver.
Qed.

Lemma embedded_base m nodes k j t : embedded m nodes k j t -> k <= j.
Proof. intros (pre & post & _ & ->). lia. Qed.

Lemma embedded_node_in m nodes k j t i n :
  embedded m nodes k j t -> flatten m j t !! i = Some n -> n ∈ nodes.
Proof.
  intros He Hi. apply list_elem_of_lookup. eexists. by eapply embedded_laid_out_lookup.
Qed.

(** Every node of an embedded tree is reached from the root of the tree. *)
Lemma reach_embedded m nodes k :
  laid_out k nodes ->
  forall t j i,
    embedded m nodes k j t -> j <= i < j + tree_size t ->
    rtc (child_of nodes) (uuidv4 j) (uuidv4 i).
Proof.
  intros Hl t. induction t as [v|e f kids IH] using WTree_kids_ind; intros j i He Hi.
  - cbn in Hi. by replace i with j by lia.
  - cbn [tree_size] in Hi. fold (forest_size kids) in Hi.
    destruct (decide (i = j)) as [->|Hne]; [done|].
    destruct (forest_index_split kids (S j) i ltac:(lia)) as (ks1 & kid & ks2 & Hk & Hr).
    apply rtc_l with (uuidv4 (S j + forest_size ks1)).
    + exists (element_node e m f (uuidv4 j) (root_ids (S j) kids)).
      split; [by apply (embedded_node_in m nodes k j _ 0 _ He)|]. split; [done|].
      rewrite element_node_children. apply root_ids_split. eauto.
    + rewrite Forall_forall in IH. apply (IH kid); [rewrite Hk; set_solver| |done].
      subst kids. by eapply embedded_kid.
Qed.

(** And nothing else is. *)
Lemma child_of_embedded m nodes k j t a b :
  laid_out k nodes -> embedded m nodes k j t ->
  child_of nodes a b ->
  (exists i, a = uuidv4 i /\ j <= i < j + tree_size t) ->
  exists i, b = uuidv4 i /\ j <= i < j + tree_size t.
Proof.
  intros Hl He (n & Hn & Hid & Hb) (i & -> & Hi).
  pose proof (embedded_base _ _ _ _ _ He) as Hkj.
  apply list_elem_of_lookup in Hn as [idx Hidx].
  rewrite (laid_out_lookup k nodes idx n Hl Hidx) in Hid. apply uuidv4_inj in Hid.
  destruct (lookup_lt_is_Some_2 (flatten m j t) (i - j)) as [n' Hn'];
    [rewrite length_flatten; lia|].
  pose proof (embedded_laid_out_lookup m nodes k j t (i - j) n' He Hn') as Hlook.
  replace (j - k + (i - j)) with idx in Hlook by lia.
  rewrite Hidx in Hlook. injection Hlook as <-.
  destruct (children_range m t j (i - j) n b Hn' Hb) as (i' & -> & Hi').
  exists i'. split; [done|lia].
Qed.

Lemma reach_embedded_inv m nodes k j t x :
  laid_out k nodes -> embedded m nodes k j t ->
  rtc (child_of nodes) (uuidv4 j) x ->
  exists i, x = uuidv4 i /\ j <= i < j + tree_size t.
Proof.
  intros Hl He.
  assert (Hgen : forall a b,
    rtc (child_of nodes) a b ->
    (exists i, a = uuidv4 i /\ j <= i < j + tree_size t) ->
    exists i, b = uuidv4 i /\ j <= i < j + tree_size t).
  { induction 1 as [a|a b c Hab _ IHr]; intros Ha; [done|].
    apply IHr. by eapply child_of_embedded. }
  intros Hr. apply (Hgen _ _ Hr). exists j. split; [done|].
  pose proof (tree_size_pos t). lia.
Qed.

(** The nodes of a group of trees are the nodes reached from its roots. *)
Lemma group_members m k ts1 g ts3 n :
  n ∈ flatten_forest (flatten m) k (ts1 ++ g ++ ts3) ->
  n ∈ flatten_forest (flatten m) (k + forest_size ts1) g <->
  exists root,
    root ∈ root_ids (k + forest_size ts1) g
    /\ rtc (child_of (flatten_forest (flatten m) k (ts1 ++ g ++ ts3))) root (node_id n).
Proof.
  set (nodes := flatten_forest (flatten m) k (ts1 ++ g ++ ts3)). intros Hn.
  pose proof (laid_out_flatten_forest m k (ts1 ++ g ++ ts3)) as Hl. fold nodes in Hl.
  assert (Hemb : forall g1 t g2, g = g1 ++ t :: g2 ->
            embedded m nodes k (k + forest_size ts1 + forest_size g1) t).
  { intros g1 t g2 ->. unfold nodes.
    replace (ts1 ++ (g1 ++ t :: g2) ++ ts3) with ((ts1 ++ g1) ++ t :: (g2 ++ ts3))
      by (by rewrite <- !app_assoc).
    rewrite <- Nat.add_assoc, <- forest_size_app. apply embedded_forest_tree. }
  split.
  - intros Hin.
    destruct (laid_out_elem _ _ n (laid_out_flatten_forest m (k + forest_size ts1) g) Hin)
      as (i & Hi & Hr).
    rewrite length_flatten_forest in Hr.
    destruct (forest_index_split g _ i Hr) as (g1 & t & g2 & Hg & Ht).
    exists (uuidv4 (k + forest_size ts1 + forest_size g1)). split.
    + apply root_ids_split. eauto.
    + rewrite Hi. apply (reach_embedded m nodes k Hl t); [by eapply Hemb|done].
  - intros (root & Hroot & Hreach).
    apply root_ids_split in Hroot as (g1 & t & g2 & Hg & ->).
    destruct (reach_embedded_inv m nodes k _ t _ Hl (Hemb g1 t g2 Hg) Hreach) as (i & Hi & Hr).
    unfold nodes in Hn, Hl. rewrite !flatten_forest_app in Hn, Hl.
    apply laid_out_app in Hl as [Hl1 Hl]. apply laid_out_app in Hl as [Hl2 Hl3].
    rewrite !length_flatten_forest in *.
    apply elem_of_app in Hn as [Hn|Hn]; [|apply elem_of_app in Hn as [Hn|Hn]]; [|done|].
    + destruct (laid_out_elem _ _ n Hl1 Hn) as (i' & Hi' & Hr').
      rewrite Hi in Hi'. apply uuidv4_inj in Hi'. rewrite length_flatten_forest in Hr'. lia.
    + destruct (laid_out_elem _ _ n Hl3 Hn) as (i' & Hi' & Hr').
      rewrite Hi in Hi'. apply uuidv4_inj in Hi'. subst g.
      rewrite forest_size_app, forest_size_cons in Hr'. lia.
Qed.









(** ** One record per requested class, when [parseCSSToWebflow] returns *)

Lemma parseCSSToWebflow_unfold depth drawn css classNames :
  parseCSSToWebflow depth drawn css classNames =
  '(_, classToIdMap, styles) ←
    fold_left (class_step depth (extractCSSVariables css) (parseCSSRules css))
              classNames (Some (drawn, ∅, []));
  Some (mkParsed classToIdMap styles (Some (extractAdvancedCSS css))).
Proof. reflexivity. Qed.

Lemma class_loop_None depth vars rules classNames :
  fold_left (class_step depth vars rules) classNames None = None.
Proof. induction classNames as [|c cs IH]; [done|]. apply IH. Qed.

Lemma class_loop_records depth vars rules classNames :
  forall drawn ids styles drawn' ids' styles',
    fold_left (class_step depth vars rules) classNames (Some (drawn, ids, styles))
    = Some (drawn', ids', styles') ->
    map style_name styles' = map style_name styles ++ classNames
    /\ map _id styles' = map _id styles ++ map uuidv4 (seq drawn (length classNames))
    /\ dom ids' = dom ids ∪ list_to_set classNames
    /\ (forall i s, i < length styles -> styles' !! i = Some s -> styles !! i = Some s)
    /\ (forall i c s,
          classNames !! i = Some c -> styles' !! (length styles + i) = Some s ->
          findRuleForClass rules c = None -> styleLess s = "").
Proof.
  induction classNames as [|c cs IH]; intros drawn ids styles drawn' ids' styles' H.
  - cbn in H. injection H as <- <- <-. rewrite !app_nil_r. repeat split; try done.
    cbn. set_solver.
  - cbn [fold_left] in H.
    destruct (class_step depth vars rules (Some (drawn, ids, styles)) c)
      as [[[d1 ids1] styles1]|] eqn:Hstep; [|by rewrite class_loop_None in H].
    assert (Hone : d1 = S drawn /\ ids1 = <[c := uuidv4 drawn]> ids
              /\ exists sl, styles1 = styles ++ [classStyle (uuidv4 drawn) c sl []]
                   /\ (findRuleForClass rules c = None -> sl = "")).
    { unfold class_step in Hstep. cbn [mbind option_bind] in Hstep.
      destruct (findRuleForClass rules c) as [rule|].
      - destruct (mapM _ (properties rule)) as [ps|]; [|done]. cbn in Hstep.
        injection Hstep as <- <- <-. repeat split. eexists. by split.
      - injection Hstep as <- <- <-. repeat split. eexists. by split. }
    destruct Hone as (-> & -> & sl & -> & Hsl).
    destruct (IH _ _ _ _ _ _ H) as (Hn & Hi & Hd & Hkeep & Hempty).
    rewrite length_app in Hkeep, Hempty. cbn [length] in Hkeep, Hempty.
    repeat split.
    + rewrite Hn, map_app, <- app_assoc. done.
    + rewrite Hi, map_app, <- app_assoc. done.
    + rewrite Hd, dom_insert_L. cbn [list_to_set]. set_solver.
    + intros i s Hlt Hs. pose proof (Hkeep i s ltac:(lia) Hs) as Hk.
      by rewrite lookup_app_l in Hk.
    + intros i c' s Hc' Hs Hnone. destruct i as [|i]; cbn in Hc'.
      * injection Hc' as <-. rewrite Nat.add_0_r in Hs.
        pose proof (Hkeep (length styles) s ltac:(lia) Hs) as Hk.
        rewrite lookup_app_r, Nat.sub_diag in Hk by lia. injection Hk as <-.
        cbn. by apply Hsl.
      * apply (Hempty i c' s Hc'); [|done].
        by replace (length styles + 1 + i) with (length styles + S i) by lia.
Qed.

(** When [parseCSSToWebflow] returns, it returns one style record per
    requested class name, in order and with fresh identifiers, a map entry
    for every requested name, and an empty declaration string for a class
    that no rule matches. *)
Lemma parseCSSToWebflow_records depth drawn css classNames r :
  parseCSSToWebflow depth drawn css classNames = Some r ->
  map style_name (styles r) = classNames
  /\ map _id (styles r) = map uuidv4 (seq drawn (length classNames))
  /\ dom (classToIdMap r) = list_to_set classNames
  /\ (forall i c s,
        classNames !! i = Some c -> styles r !! i = Some s ->
        findRuleForClass (parseCSSRules css) c = None -> styleLess s = "").
Proof.
  rewrite parseCSSToWebflow_unfold. intros H.
  destruct (fold_left _ classNames _) as [[[d ids] sts]|] eqn:Hloop; [|done].
  cbn in H. injection H as <-. cbn [styles classToIdMap].
  destruct (class_loop_records _ _ _ _ _ _ _ _ _ _ Hloop) as (Hn & Hi & Hd & _ & Hempty).
  split; [done|]. split; [done|]. split; [rewrite Hd, dom_empty_L; set_solver|].
  intros i c s. apply (Hempty i c s).
Qed.

(** And it returns, for every list of class names, once the call depth is
    large enough, when the references of the root table go down in rank. *)
Lemma class_loop_returns depth vars rules classNames :
  (forall rule prop, rule ∈ rules -> prop ∈ properties rule ->
     is_Some (resolveCSSVariables depth prop vars)) ->
  forall acc, is_Some (fold_left (class_step depth vars rules) classNames (Some acc)).
Proof.
  intros Hprop. induction classNames as [|c cs IH]; intros acc; [by eexists|].
  cbn [fold_left]. destruct acc as [[drawn ids] sts]. unfold class_step at 2.
  cbn [mbind option_bind].
  destruct (findRuleForClass rules c) as [rule|] eqn:Hrule; [|apply IH].
  assert (Hin : rule ∈ rules).
  { unfold findRuleForClass in Hrule. apply find_some in Hrule as [Hin _].
    by apply list_elem_of_In. }
  destruct (proj2 (mapM_is_Some (fun prop => resolveCSSVariables depth prop vars)
                     (properties rule))) as [ps ->]; [|apply IH].
  apply Forall_forall. intros prop Hp. by apply (Hprop rule).
Qed.

Lemma parseCSSToWebflow_returns css rank :
  ranked (extractCSSVariables css) rank ->
  exists depth0, forall depth drawn classNames,
    depth0 <= depth -> is_Some (parseCSSToWebflow depth drawn css classNames).
Proof.
  intros Hr.
  set (props := flat_map properties (parseCSSRules css)).
  exists (max_list (map rank (flat_map references_of props)) + 2).
  intros depth drawn classNames Hd. rewrite parseCSSToWebflow_unfold.
  destruct (class_loop_returns depth (extractCSSVariables css) (parseCSSRules css) classNames)
    with (acc := (drawn, (∅ : gmap string string), ([] : list WebflowStyle)))
    as [[[d ids] sts] ->]; [|by eexists].
  intros rule prop Hrule Hin.
  apply (ranked_resolves_from _ rank prop (max_list (map rank (flat_map references_of props))));
    [done| |done].
  intros n Hn. apply max_list_elem_of_le, list_elem_of_fmap. exists n. split; [done|].
  apply list_elem_of_In, in_flat_map. exists prop. split; [|by apply list_elem_of_In].
  apply in_flat_map. exists rule. split; by apply list_elem_of_In.
Qed.

(** * Further properties *)

(** ** Roots and children of a compilation *)

Lemma length_root_ids k ts : length (root_ids k ts) = length ts.
Proof. revert k. induction ts as [|t ts IH]; intros k; [done|]. cbn. by rewrite IH. Qed.

(** X1. Every node of a compilation is either a root or the child of exactly
    one node: the root identifiers followed by all the [children] arrays
    list every node identifier exactly once.  There is one root per content
    element of the document. *)
Theorem compile_roots_and_children (parseDocument : string -> list DomNode) (k : nat)
    (html : string) (classToIdMap : gmap string string) :
  let r := compileHTMLToNodes parseDocument k html classToIdMap in
  rootNodeIds r ++ concat (map node_children (nodes r)) ≡ₚ map node_id (nodes r)
  /\ NoDup (rootNodeIds r ++ concat (map node_children (nodes r)))
  /\ length (rootNodeIds r) = length (extractContentElements (parseDocument html)).
Proof.
  cbn zeta. rewrite compileHTMLToNodes_spec. cbn [nodes rootNodeIds].
  set (ts := content_trees (parseDocument html)).
  pose proof (laid_out_flatten_forest classToIdMap k ts) as Hl. unfold laid_out in Hl.
  rewrite length_flatten_forest in Hl.
  assert (Hp := children_perm_forest classToIdMap ts k).
  split; [by rewrite Hl|]. split.
  - rewrite Hp. apply NoDup_uuids.
  - rewrite length_root_ids. unfold ts, content_trees. by rewrite length_map.
Qed.

(** ** Text nodes *)

Lemma element_texts_unfold n a cs : element_texts (mkElement n a cs) = child_texts cs.
Proof. reflexivity. Qed.

Lemma texts_of_tree m e : forall f k,
  omap text_of (flatten m k (tree_of e f)) = element_texts e.
Proof.
  induction e as [n a cs IH] using Element_children_ind. intros f k.
  rewrite tree_of_unfold, element_texts_unfold. cbn [flatten].
  change (omap text_of (?x :: ?l)) with
    (match text_of x with Some y => y :: omap text_of l | None => omap text_of l end).
  cbn [text_of element_node].
  generalize (String.eqb (JS.toLowerCase n) "form" || f) as g. intros g.
  generalize (S k) as j. induction IH as [|c cs Hc _ IHcs]; intros j; [done|].
  destruct c as [e|data|]; cbn [child_trees child_texts];
    fold (child_trees g); fold child_texts.
  - cbn [flatten_forest]. by rewrite omap_app, Hc, IHcs.
  - destruct (0 <? String.length (JS.trim data))%nat; [|apply IHcs].
    cbn [flatten_forest flatten app]. 
    change (omap text_of (?x :: ?l)) with
      (match text_of x with Some y => y :: omap text_of l | None => omap text_of l end).
    cbn [text_of]. by rewrite IHcs.
  - apply IHcs.
Qed.

(** X2. The text nodes of a compilation are, in document order, the trimmed
    text children of the compiled elements that are not empty: no text is
    lost, duplicated or moved. *)
Theorem compile_texts (parseDocument : string -> list DomNode) (k : nat)
    (html : string) (classToIdMap : gmap string string) :
  omap text_of (nodes (compileHTMLToNodes parseDocument k html classToIdMap))
  = flat_map element_texts (extractContentElements (parseDocument html)).
Proof.
  rewrite compileHTMLToNodes_spec. cbn [nodes]. unfold content_trees.
  generalize (extractContentElements (parseDocument html)) as es. intros es. revert k.
  induction es as [|e es IH]; intros k; [done|].
  cbn [map flatten_forest flat_map]. by rewrite omap_app, texts_of_tree, IH.
Qed.

(** ** Content elements *)

Lemma traverse_app node : forall acc, traverse node acc = acc ++ traverse node [].
Proof.
  induction node as [n a cs IH] using Element_children_ind. intros acc. cbn [traverse].
  destruct (String.eqb (JS.toLowerCase n) "body").
  - clear IH. revert acc. induction cs as [|c cs IHcs]; intros acc; cbn [fold_left].
    + by rewrite app_nil_r.
    + rewrite IHcs. rewrite (IHcs (match c with NElement _ => _ | _ => _ end)).
      rewrite app_assoc. f_equal.
      destruct c as [c|d|]; rewrite ?app_nil_r; try done.
      destruct (negb _ && negb _); by rewrite ?app_nil_r.
  - destruct (mem (JS.toLowerCase n) DOCUMENT_STRUCTURE_TAGS); [|done].
    revert acc. induction IH as [|c cs Hc _ IHcs]; intros acc.
    + by rewrite app_nil_r.
    + destruct c as [c|d|]; try apply IHcs.
      rewrite IHcs, (IHcs (traverse c [])), app_assoc. f_equal. apply Hc.
Qed.

Lemma extractContentElements_cons c dom :
  extractContentElements (c :: dom) =
  match c with NElement e => traverse e [] | _ => [] end ++ extractContentElements dom.
Proof.
  unfold extractContentElements. cbn [fold_left].
  assert (H : forall l acc,
    fold_left (fun acc child => match child with NElement e => traverse e acc | _ => acc end)
      l acc
    = acc ++ fold_left
               (fun acc child => match child with NElement e => traverse e acc | _ => acc end)
               l []).
  { induction l as [|x l IHl]; intros acc; cbn [fold_left]; [by rewrite app_nil_r|].
    rewrite IHl, (IHl (match x with NElement _ => _ | _ => _ end)), app_assoc. f_equal.
    destruct x as [e|d|]; rewrite ?app_nil_r; try done. apply traverse_app. }
  apply H.
Qed.

(** X3. The content elements of a document made of two parts are those of
    the first part followed by those of the second; and a fragment whose
    top-level elements carry no document-structure tag has exactly its
    top-level elements as content elements, in order. *)
Theorem content_elements_compose (dom1 dom2 : list DomNode) :
  extractContentElements (dom1 ++ dom2)
  = extractContentElements dom1 ++ extractContentElements dom2
  /\ (Forall (fun e => mem (tag_of e) DOCUMENT_STRUCTURE_TAGS = false) (top_elements dom1) ->
      extractContentElements dom1 = top_elements dom1).
Proof.
  split.
  - induction dom1 as [|c dom1 IH]; [done|].
    cbn [app]. by rewrite !extractContentElements_cons, IH, app_assoc.
  - induction dom1 as [|c dom1 IH]; intros H; [done|].
    rewrite extractContentElements_cons.
    destruct c as [e|d|]; cbn [top_elements omap] in *; fold top_elements in *;
      [|by apply IH..].
    apply Forall_cons in H as [He H]. rewrite (IH H). cbn [app].
    destruct e as [n a cs]. cbn [traverse]. unfold tag_of in He. cbn [name] in He.
    rewrite He.
    destruct (String.eqb_spec (JS.toLowerCase n) "body") as [E|_]; [|done].
    by rewrite E in He.
Qed.

Lemma content_elements_compose_witness :
  extractContentElements (dom_hello ++ dom_blank) = top_elements (dom_hello ++ dom_blank).
Proof.
  destruct (content_elements_compose dom_hello dom_blank) as [H1 _].
  destruct (content_elements_compose dom_hello []) as [_ H2].
  destruct (content_elements_compose dom_blank []) as [_ H3].
  rewrite H1, H2, H3; [reflexivity| |]; repeat constructor.
Defined.

Lemma structure_tag_script tag :
  mem tag DOCUMENT_STRUCTURE_TAGS = false -> tag <> "script" /\ tag <> "style".
Proof. intros H. split; intros ->; discriminate. Qed.

Lemma traverse_no_script node : forall acc x,
  x ∈ traverse node acc -> x ∈ acc \/ (tag_of x <> "script" /\ tag_of x <> "style").
Proof.
  induction node as [n a cs IH] using Element_children_ind. intros acc x. cbn [traverse].
  destruct (String.eqb (JS.toLowerCase n) "body").
  - clear IH. revert acc. induction cs as [|c cs IHcs]; intros acc Hx; [by left|].
    cbn [fold_left] in Hx. apply IHcs in Hx as [Hx|Hx]; [|by right].
    destruct c as [c|d|]; [|by left..].
    destruct (String.eqb_spec (JS.toLowerCase (name c)) "script") as [|H1];
      cbn [negb andb] in Hx; [by left|].
    destruct (String.eqb_spec (JS.toLowerCase (name c)) "style") as [|H2];
      cbn [negb andb] in Hx; [by left|].
    apply elem_of_app in Hx as [Hx|Hx]; [by left|].
    apply list_elem_of_singleton in Hx as ->. by right.
  - destruct (mem (JS.toLowerCase n) DOCUMENT_STRUCTURE_TAGS) eqn:Hs.
    + revert acc. induction IH as [|c cs Hc _ IHcs]; intros acc Hx; [by left|].
      destruct c as [c|d|]; apply IHcs in Hx as [Hx|Hx]; try (by left); try (by right).
      by apply Hc.
    + intros Hx. apply elem_of_app in Hx as [Hx|Hx]; [by left|].
      apply list_elem_of_singleton in Hx as ->. right.
      by apply structure_tag_script.
Qed.

(** X4. No content element is a [script] or a [style] element, and every
    content element is an element of the document that stands under
    document-structure elements only. *)
Theorem content_elements_no_script (dom : list DomNode) (e : Element) :
  e ∈ extractContentElements dom ->
  tag_of e <> "script" /\ tag_of e <> "style"
  /\ exists outer, (e, outer) ∈ document_elements dom /\ Forall structure_tag outer.
Proof.
  intros He.
  enough (tag_of e <> "script" /\ tag_of e <> "style") as [H1 H2]
    by (split; [done|split; [done|by apply content_elements_context]]).
  induction dom as [|c dom IHdom]; [by apply elem_of_nil in He|].
  rewrite extractContentElements_cons in He. apply elem_of_app in He as [He|He];
    [|by apply IHdom].
  destruct c as [x|d|]; [|by apply elem_of_nil in He..].
  apply traverse_no_script in He as [He|He]; [by apply elem_of_nil in He|done].
Qed.

Lemma content_elements_no_script_witness :
  extractContentElements dom_page = [ mkElement "div" [] [] ]
  /\ tag_of (mkElement "div" [] []) <> "script".
Proof.
  split; [reflexivity|].
  apply (content_elements_no_script dom_page (mkElement "div" [] [])).
  change (extractContentElements dom_page) with [ mkElement "div" [] [] ].
  apply list_elem_of_here.
Defined.

(** ** Node types and data of element nodes *)

(** Each element node of a compilation is the node of a compiled element. *)
Lemma compiled_node_element parseDocument k html m n c :
  n ∈ nodes (compileHTMLToNodes parseDocument k html m) ->
  contents n = Some c ->
  exists e anc,
    (e, anc) ∈ compiled_elements (parseDocument html)
    /\ c = element_node e m (has_form_ancestor anc) "" [].
Proof.
  intros Hn Hc.
  assert (Hin : c ∈ omap contents (nodes (compileHTMLToNodes parseDocument k html m))).
  { apply list_elem_of_omap. by exists n. }
  rewrite compile_contents in Hin. apply list_elem_of_fmap in Hin as ([e anc] & -> & Hin).
  by exists e, anc.
Qed.

Lemma mem_elem_of x l : mem x l = true <-> x ∈ l.
Proof.
  unfold mem. rewrite existsb_exists. split.
  - intros (y & Hy & E). apply String.eqb_eq in E as ->. by apply list_elem_of_In.
  - intros H. exists x. split; [by apply list_elem_of_In|apply String.eqb_refl].
Qed.

(** The ancestors listed with an element are themselves listed elements, or
    ancestors of the starting point. *)
Lemma ancestors_listed e : forall anc x a t,
  (x, a) ∈ elements_in_context e anc -> t ∈ a ->
  t ∈ anc \/ exists y b, (y, b) ∈ elements_in_context e anc /\ tag_of y = t.
Proof.
  induction e as [n at_ cs IH] using Element_children_ind. intros anc x a t Hx Ht.
  rewrite elements_in_context_unfold in Hx |- *.
  apply elem_of_cons in Hx as [[= -> ->]|Hx]; [by left|].
  apply child_elements_in_context_elem in Hx as (c & Hc & Hx).
  rewrite Forall_forall in IH.
  destruct (IH (NElement c) Hc (JS.toLowerCase n :: anc) x a t Hx Ht) as [Hin|(y & b & Hy & E)].
  - apply elem_of_cons in Hin as [->|Hin]; [|by left].
    right. exists (mkElement n at_ cs), anc. split; [apply list_elem_of_here|done].
  - right. exists y, b. split; [|done]. apply list_elem_of_further.
    apply child_elements_in_context_elem. by exists c.
Qed.

Lemma document_ancestors_listed dom x a t :
  (x, a) ∈ document_elements dom -> t ∈ a ->
  exists y b, (y, b) ∈ document_elements dom /\ tag_of y = t.
Proof.
  unfold document_elements. intros Hx Ht.
  apply child_elements_in_context_elem in Hx as (c & Hc & Hx).
  destruct (ancestors_listed c [] x a t Hx Ht) as [Hin|(y & b & Hy & E)];
    [by apply elem_of_nil in Hin|].
  exists y, b. split; [|done]. apply child_elements_in_context_elem. by exists c.
Qed.

(** Outside a form, only the [form] element itself gets a form type. *)
Lemma form_type_needs_form tag e t :
  getWebflowType tag e false = Own t -> JS.startsWith "Form" t = true -> tag = "form".
Proof.
  unfold getWebflowType.
  destruct (String.eqb_spec tag "input") as [|Hinput].
  { repeat match goal with |- context [if ?b then _ else _] => destruct b end;
      intros [= <-] Hs; discriminate Hs. }
  destruct (String.eqb_spec tag "textarea"); [intros [= <-] Hs; discriminate Hs|].
  destruct (String.eqb_spec tag "select"); [intros [= <-] Hs; discriminate Hs|].
  destruct (String.eqb_spec tag "label"); [intros [= <-] Hs; discriminate Hs|].
  unfold table_get, TAG_TO_TYPE_MAP. cbn [assoc].
  repeat match goal with
         | |- context [String.eqb ?k tag] =>
             destruct (String.eqb_spec k tag) as [<-|?];
             [intros [= <-] Hs; first [reflexivity|discriminate Hs|congruence]|]
         end.
  destruct (mem tag object_prototype_keys); [intros [=]|].
  intros [= <-] Hs. discriminate Hs.
Qed.

(** X5. Form types are only given inside forms: when no element of the
    document is a [form], no node of the compilation has a type whose name
    starts with [Form]. *)
Theorem no_form_no_form_type (parseDocument : string -> list DomNode) (k : nat)
    (html : string) (classToIdMap : gmap string string) (n : WebflowNode) (t : string) :
  Forall (fun ea => tag_of (fst ea) <> "form") (document_elements (parseDocument html)) ->
  n ∈ nodes (compileHTMLToNodes parseDocument k html classToIdMap) ->
  node_type n = Some (Own t) ->
  JS.startsWith "Form" t = false.
Proof.
  intros Hdoc Hn Ht. rewrite Forall_forall in Hdoc.
  destruct n as [i cl ty tg d cs|i v]; [|done]. cbn in Ht. injection Ht as ->.
  destruct (compiled_node_element parseDocument k html classToIdMap _ _ Hn eq_refl)
    as (e & anc & He & Hc).
  injection Hc as _ Hty _ _.
  destruct (compiled_elements_context _ _ _ He) as (outer & Hin & Hform).
  assert (Hout : has_form_ancestor anc = false).
  { destruct (has_form_ancestor anc) eqn:E; [|done]. exfalso.
    unfold has_form_ancestor in Hform. apply mem_elem_of in Hform.
    destruct (document_ancestors_listed _ _ _ _ Hin Hform) as (y & b & Hy & Etag).
    by apply (Hdoc (y, b) Hy). }
  rewrite Hout in Hty. destruct (JS.startsWith "Form" t) eqn:Hs; [|done]. exfalso.
  apply (Hdoc (e, anc ++ outer) Hin). cbn [fst].
  by apply (form_type_needs_form _ e t).
Qed.

Lemma no_form_no_form_type_witness :
  JS.startsWith "Form" "Heading" = false.
Proof.
  apply (no_form_no_form_type (fun _ => [NElement h1_element]) 0 "" ∅ h1_node).
  - repeat constructor. discriminate.
  - apply list_elem_of_here.
  - reflexivity.
Defined.

(** *** The order of the fields of [data] *)

Lemma NoDup_strings (l : list string) : bool_decide (NoDup l) = true -> NoDup l.
Proof. apply bool_decide_eq_true_1. Qed.

Lemma standardData_fields attributes e tag type :
  let d := standardData attributes e tag type in
  take 2 d = [ ("attr", JObj attributes); ("xattr", JArr []) ]
  /\ drop (length d - 4) d = closing_fields (is_type type "FormWrapper")
  /\ NoDup (map fst d).
Proof.
  cbn zeta. unfold standardData, getTypeSpecificData, type_in.
  destruct type as [ty|key].
  - cbn [existsb is_type].
    repeat match goal with
           | |- context [String.eqb ty ?s] =>
               destruct (String.eqb_spec ty s) as [->|?]
           end;
      cbn; (split; [reflexivity|split; [reflexivity|]]);
      apply NoDup_strings; reflexivity.
  - cbn. split; [reflexivity|split; [reflexivity|]]. apply NoDup_strings; reflexivity.
Qed.

(** X6. The [data] of every element node has its fields in the order the
    target format asks for: a custom element (type [DOM]) has [editable],
    [tag], [attributes]; every other element starts with [attr] and [xattr],
    ends with [devlink], [displayName], [search] and [visibility], and names
    no field twice. *)
Theorem compile_data_fields (parseDocument : string -> list DomNode) (k : nat)
    (html : string) (classToIdMap : gmap string string) (n : WebflowNode) (ty : Member) :
  n ∈ nodes (compileHTMLToNodes parseDocument k html classToIdMap) ->
  node_type n = Some ty ->
  if is_type ty "DOM"
  then map fst (node_data n) = [ "editable"; "tag"; "attributes" ]
  else take 2 (map fst (node_data n)) = [ "attr"; "xattr" ]
       /\ (exists front,
             node_data n = front ++ closing_fields (is_type ty "FormWrapper"))
       /\ NoDup (map fst (node_data n)).
Proof.
  intros Hn Ht. destruct n as [i cl ty' tg d cs|i v]; [|done]. cbn in Ht. injection Ht as ->.
  destruct (compiled_node_element parseDocument k html classToIdMap _ _ Hn eq_refl)
    as (e & anc & He & Hc).
  injection Hc as _ Hty _ Hd. cbn [node_data]. rewrite <- Hty in Hd.
  destruct (is_type ty "DOM"); [by subst d|].
  destruct (standardData_fields (extractAttributes e (JS.toLowerCase (name e))) e
              (JS.toLowerCase (name e)) ty) as (H1 & H2 & H3).
  cbn zeta in *. rewrite <- Hd in H1, H2, H3. split; [|split; [|done]].
  - by rewrite <- fmap_take, H1.
  - exists (take (length d - 4) d). by rewrite <- H2, take_drop.
Qed.

Lemma compile_data_fields_witness :
  take 2 (map fst (node_data h1_node)) = [ "attr"; "xattr" ]
  /\ (exists front, node_data h1_node = front ++ closing_fields false)
  /\ NoDup (map fst (node_data h1_node)).
Proof.
  exact (compile_data_fields (fun _ => [NElement h1_element]) 0 "" ∅ h1_node (Own "Heading")
           (list_elem_of_here _ _) eq_refl).
Defined.

(** ** The chunker on any node list *)

Lemma collect_loop_None depth (nodes : list WebflowNode) l :
  fold_left (fun acc childId => c ← acc; collectSubtreeNodes depth nodes childId c) l None
  = None.
Proof. induction l as [|x l IH]; [done|]. apply IH. Qed.

(** [collectSubtreeNodes] adds the identifier it is called on, and removes
    nothing. *)
Lemma collect_grows depth nodes : forall nodeId collected collected',
  collectSubtreeNodes depth nodes nodeId collected = Some collected' ->
  nodeId ∈ collected' /\ collected ⊆ collected'.
Proof.
  induction depth as [|depth IH]; intros nodeId collected collected'; [done|].
  cbn [collectSubtreeNodes].
  destruct (find_node nodes nodeId) as [node|]; [|intros [= <-]; set_solver].
  enough (forall l acc, fold_left
            (fun acc childId => c ← acc; collectSubtreeNodes depth nodes childId c)
            l (Some acc) = Some collected' -> acc ⊆ collected') as Hloop.
  { intros H. apply Hloop in H. set_solver. }
  induction l as [|x l IHl]; intros acc H; cbn [fold_left] in H.
  - injection H as <-. set_solver.
  - cbn [mbind option_bind] in H.
    destruct (collectSubtreeNodes depth nodes x acc) as [acc'|] eqn:E;
      [|by rewrite collect_loop_None in H].
    apply IH in E as [_ E]. apply IHl in H. set_solver.
Qed.

Lemma size_pos_member (x : string) (X : gset string) : x ∈ X -> 0 < size X.
Proof.
  intros Hx. destruct (size X) eqn:E; [|lia].
  apply size_empty_inv in E. set_solver.
Qed.

Lemma sublist_filter_list {A} (f : A -> bool) (l : list A) : sublist (List.filter f l) l.
Proof.
  induction l as [|x l IH]; [constructor|]. cbn [List.filter].
  destruct (f x); by constructor.
Qed.

Lemma chunk_loop_None depth (nodes : list WebflowNode) maxNodesPerChunk l :
  fold_left (fun acc rootId => st ← acc; chunk_step depth nodes maxNodesPerChunk st rootId)
    l None = None.
Proof. induction l as [|x l IH]; [done|]. apply IH. Qed.

Lemma chunk_loop_snoc depth (nodes : list WebflowNode) maxNodesPerChunk l x st0 :
  fold_left (fun acc rootId => st ← acc; chunk_step depth nodes maxNodesPerChunk st rootId)
    (l ++ [x]) (Some st0)
  = st ← fold_left
           (fun acc rootId => st ← acc; chunk_step depth nodes maxNodesPerChunk st rootId)
           l (Some st0);
    chunk_step depth nodes maxNodesPerChunk st x.
Proof. by rewrite fold_left_app. Qed.

(** What holds of the loop variables of [splitIntoChunks] after the roots
    [done]. *)
Lemma chunk_loop_shape depth nodes maxNodesPerChunk done st :
  fold_left (fun acc rootId => st ← acc; chunk_step depth nodes maxNodesPerChunk st rootId)
    done (Some (mkChunkState [] ∅ [] 1)) = Some st ->
  chunkIndex st = S (length (chunks st))
  /\ length (chunks st) + length (take 1 (currentChunkRoots st)) <= length done
  /\ (currentChunkRoots st = [] -> currentChunkNodes st = ∅ /\ done = [])
  /\ (currentChunkRoots st <> [] -> 0 < size (currentChunkNodes st))
  /\ Forall (fun c => nodeCount c = length (chunk_nodes c) /\ sublist (chunk_nodes c) nodes)
       (chunks st)
  /\ (forall i c, chunks st !! i = Some c ->
        label c = Own ("Chunk " +:+ pretty (S i))
        \/ exists root, root ∈ done /\ label c = getNodeLabel nodes root)
  /\ (forall root, root ∈ currentChunkRoots st -> root ∈ done).
Proof.
  revert st. induction done as [|rootId done IH] using rev_ind; intros st H.
  - cbn in H. injection H as <-. cbn. repeat split; try done; try lia.
  - rewrite chunk_loop_snoc in H.
    destruct (fold_left _ done _) as [st0|] eqn:Hloop; [|done]. cbn [mbind option_bind] in H.
    destruct (IH st0 eq_refl) as (Hidx & Hlen & Hnone & Hsome & Hch & Hlab & Hroots).
    clear IH Hloop. unfold chunk_step in H.
    destruct (countNodesInSubtree depth nodes rootId) as [subtreeSize|]; [|done].
    cbn [mbind option_bind] in H.
    destruct ((0 <? size (currentChunkNodes st0))%nat
              && (maxNodesPerChunk
                    <? Z.of_nat (size (currentChunkNodes st0) + subtreeSize))%Z) eqn:Hcond.
    + cbn [currentChunkNodes currentChunkRoots chunks chunkIndex] in H.
      destruct (collectSubtreeNodes depth nodes rootId ∅) as [collected|] eqn:Hcol; [|done].
      cbn in H. injection H as <-. cbn [chunks currentChunkNodes currentChunkRoots chunkIndex].
      apply andb_true_iff in Hcond as [Hpos _]. apply Nat.ltb_lt in Hpos.
      assert (Hne : currentChunkRoots st0 <> []).
      { intros E. destruct (Hnone E) as [E' _]. rewrite E', size_empty in Hpos. lia. }
      apply collect_grows in Hcol as [Hin _].
      rewrite !length_app. cbn [length app take]. repeat split.
      * lia.
      * destruct (currentChunkRoots st0); [done|]. cbn in Hlen. lia.
      * done.
      * done.
      * intros _. by apply (size_pos_member rootId).
      * apply Forall_app. split; [done|]. constructor; [|done]. cbn. split; [done|].
        apply sublist_filter_list.
      * intros i c Hc. apply lookup_app_Some in Hc as [Hc|[Hi Hc]].
        -- destruct (Hlab i c Hc) as [?|(root & Hr & ?)]; [by left|].
           right. exists root. split; [|done]. apply elem_of_app. by left.
        -- destruct (i - length (chunks st0)) as [|j] eqn:Ej; [|by destruct j].
           injection Hc as <-. cbn [label].
           unfold chunk_label. destruct (currentChunkRoots st0) as [|root [|root' rest]] eqn:Er.
           ++ done.
           ++ right. exists root. split; [|done]. apply elem_of_app. left.
              apply Hroots. apply list_elem_of_here.
           ++ left. rewrite Hidx. do 3 f_equal. lia.
      * intros root Hr. apply list_elem_of_singleton in Hr as ->.
        apply elem_of_app. right. apply list_elem_of_here.
    + destruct (collectSubtreeNodes depth nodes rootId (currentChunkNodes st0))
        as [collected|] eqn:Hcol; [|done].
      cbn in H. injection H as <-. cbn [chunks currentChunkNodes currentChunkRoots chunkIndex].
      apply collect_grows in Hcol as [Hin _].
      rewrite !length_app. cbn [length]. repeat split.
      * done.
      * destruct (currentChunkRoots st0); cbn [app take length] in *; rewrite ?take_0; cbn [length]; lia.
      * by destruct (currentChunkRoots st0).
      * by destruct (currentChunkRoots st0).
      * intros _. by apply (size_pos_member rootId).
      * done.
      * intros i c Hc. destruct (Hlab i c Hc) as [?|(root & Hr & ?)]; [by left|].
        right. exists root. split; [|done]. apply elem_of_app. by left.
      * intros root Hr. apply elem_of_app in Hr as [Hr|Hr].
        -- apply elem_of_app. left. by apply Hroots.
        -- apply elem_of_app. by right.
Qed.

(** X7. Whatever the node list and the roots, when [splitIntoChunks]
    returns: there are at most as many chunks as roots, and at least one when
    there is a root; every chunk counts its nodes, and its nodes are nodes of
    the list in their order. *)
Theorem chunks_shape (depth : nat) (nodes : list WebflowNode) (rootNodeIds : list string)
    (maxNodesPerChunk : Z) (result : list WebflowChunk) :
  splitIntoChunks depth nodes rootNodeIds maxNodesPerChunk = Some result ->
  length result <= length rootNodeIds
  /\ (rootNodeIds <> [] -> result <> [])
  /\ Forall (fun c => nodeCount c = length (chunk_nodes c) /\ sublist (chunk_nodes c) nodes)
       result.
Proof.
  unfold splitIntoChunks. intros H.
  destruct (fold_left _ rootNodeIds _) as [st|] eqn:Hloop; [|done]. cbn [mbind option_bind] in H.
  destruct (chunk_loop_shape _ _ _ _ _ Hloop) as (Hidx & Hlen & Hnone & Hsome & Hch & _ & _).
  destruct (0 <? size (currentChunkNodes st))%nat eqn:Hpos; injection H as <-.
  - apply Nat.ltb_lt in Hpos.
    assert (Hne : currentChunkRoots st <> []).
    { intros E. destruct (Hnone E) as [E' _]. rewrite E', size_empty in Hpos. lia. }
    rewrite length_app. cbn [length]. repeat split.
    + destruct (currentChunkRoots st); [done|]. cbn in Hlen. lia.
    + intros _. by destruct (chunks st).
    + apply Forall_app. split; [done|]. constructor; [|done]. cbn. split; [done|].
      apply sublist_filter_list.
  - apply Nat.ltb_ge in Hpos. repeat split; [lia| |done].
    intros Hr. exfalso. destruct (currentChunkRoots st) as [|root rest] eqn:Er.
    + destruct (Hnone eq_refl) as [_ E]. done.
    + assert (0 < size (currentChunkNodes st)) by (by apply Hsome). lia.
Qed.

Lemma chunks_shape_witness :
  exists result,
    splitIntoChunks 5 stray_nodes ["a"] 100 = Some result /\ length result <= 1.
Proof.
  eexists. split; [reflexivity|].
  apply (chunks_shape 5 stray_nodes ["a"] 100 _ eq_refl).
Defined.

(** X8. Whatever the input, the label of the chunk at position [i] (counted
    from 1) is the label of one of the roots, or [Chunk i], or
    [Complete Page], which only the single chunk of a result carries. *)
Theorem chunk_labels (depth : nat) (nodes : list WebflowNode) (rootNodeIds : list string)
    (maxNodesPerChunk : Z) (result : list WebflowChunk) (i : nat) (c : WebflowChunk) :
  splitIntoChunks depth nodes rootNodeIds maxNodesPerChunk = Some result ->
  result !! i = Some c ->
  label c = Own ("Chunk " +:+ pretty (S i))
  \/ (exists root, root ∈ rootNodeIds /\ label c = getNodeLabel nodes root)
  \/ (label c = Own "Complete Page" /\ result = [c]).
Proof.
  unfold splitIntoChunks. intros H Hc.
  destruct (fold_left _ rootNodeIds _) as [st|] eqn:Hloop; [|done]. cbn [mbind option_bind] in H.
  destruct (chunk_loop_shape _ _ _ _ _ Hloop) as (Hidx & _ & _ & _ & _ & Hlab & Hroots).
  destruct (0 <? size (currentChunkNodes st))%nat eqn:Hpos; injection H as <-.
  - apply lookup_app_Some in Hc as [Hc|[Hi Hc]].
    + destruct (Hlab i c Hc) as [?|?]; [by left|by right; left].
    + destruct (i - length (chunks st)) as [|j] eqn:Ej; [|by destruct j].
      injection Hc as <-. cbn [label]. unfold chunk_label.
      destruct (currentChunkRoots st) as [|root [|root' rest]] eqn:Er.
      * rewrite Hidx. destruct (chunks st) as [|c0 cs]; cbn.
        -- right. right. split; [done|]. done.
        -- left. do 3 f_equal. cbn in Hi, Ej. lia.
      * right. left. exists root. split; [|done]. apply Hroots. apply list_elem_of_here.
      * rewrite Hidx. destruct (chunks st) as [|c0 cs]; cbn.
        -- right. right. split; [done|]. done.
        -- left. do 3 f_equal. cbn in Hi, Ej. lia.
  - destruct (Hlab i c Hc) as [?|?]; [by left|by right; left].
Qed.

Lemma chunk_labels_witness :
  exists c, splitIntoChunks 5 stray_nodes ["a"; "b"] 100 = Some [c]
            /\ label c = Own "Complete Page".
Proof.
  eexists. split; [reflexivity|].
  destruct (chunk_labels 5 stray_nodes ["a"; "b"] 100 _ 0 _ eq_refl eq_refl)
    as [H|[(root & _ & H)|[H _]]]; [discriminate H| |exact H].
  reflexivity.
Defined.

(** ** The chunker on a compilation: the groups of roots *)

Lemma chunk_step_packed m k maxNodesPerChunk depth ts gs cur t rest st :
  ts = concat gs ++ cur ++ t :: rest ->
  forest_size ts < depth ->
  packed m k gs cur st ->
  exists st',
    chunk_step depth (flatten_forest (flatten m) k ts) maxNodesPerChunk st
      (uuidv4 (k + forest_size (concat gs ++ cur))) = Some st'
    /\ packed m k (fst (pack_step maxNodesPerChunk (gs, cur) t))
              (snd (pack_step maxNodesPerChunk (gs, cur) t)) st'.
Proof.
  intros Hts Hd (Hch & Hcnt & Hset & Hroots & Hidx).
  pose proof (laid_out_flatten_forest m k ts) as Hl.
  assert (He : embedded m (flatten_forest (flatten m) k ts) k
                 (k + forest_size (concat gs ++ cur)) t).
  { rewrite Hts, app_assoc. apply embedded_forest_tree. }
  assert (Ht : tree_size t < depth).
  { rewrite Hts, !forest_size_app, forest_size_cons in Hd. lia. }
  unfold chunk_step, pack_step. rewrite (count_embedded m _ k Hl t _ depth He Ht).
  cbn [mbind option_bind]. rewrite Hset, size_idset.
  destruct ((0 <? forest_size cur)%nat
            && (maxNodesPerChunk <? Z.of_nat (forest_size cur + tree_size t))%Z) eqn:Hcond.
  - cbn [currentChunkNodes currentChunkRoots chunks chunkIndex fst snd].
    rewrite (collect_embedded m _ k Hl t _ depth ∅ He Ht).
    eexists. split; [reflexivity|].
    repeat split; cbn [chunks currentChunkNodes currentChunkRoots chunkIndex].
    + rewrite map_app, group_nodes_app, Hch. cbn [map group_nodes chunk_nodes]. do 2 f_equal.
      assert (Hsplit : flatten_forest (flatten m) k ts =
                flatten_forest (flatten m) k (concat gs)
                ++ flatten_forest (flatten m) (k + forest_size (concat gs)) cur
                ++ flatten_forest (flatten m)
                     (k + forest_size (concat gs) + forest_size cur) (t :: rest))
        by (by rewrite Hts, !flatten_forest_app).
      rewrite Hsplit in Hl |- *.
      pose proof (chunk_of_segment k _ _ _ Hl) as Hseg.
      by rewrite !length_flatten_forest in Hseg.
    + apply Forall_app. split; [done|]. by constructor.
    + rewrite concat_app. cbn [concat]. rewrite app_nil_r.
      rewrite forest_size_cons. change (forest_size []) with 0. rewrite Nat.add_0_r.
      set_solver.
    + rewrite concat_app. cbn [concat]. rewrite app_nil_r. cbn. done.
    + rewrite length_app. cbn [length]. lia.
  - rewrite (collect_embedded m _ k Hl t _ depth _ He Ht). cbn [fst snd].
    eexists. split; [reflexivity|].
    repeat split; cbn [chunks currentChunkNodes currentChunkRoots chunkIndex]; try done.
    + rewrite !forest_size_app, forest_size_cons. change (forest_size []) with 0.
      rewrite Nat.add_0_r, idset_add, Nat.add_assoc. set_solver.
    + rewrite Hroots, root_ids_app. cbn. by rewrite forest_size_app, Nat.add_assoc.
Qed.

Lemma pack_step_concat maxNodesPerChunk gs cur t :
  let acc := pack_step maxNodesPerChunk (gs, cur) t in
  concat (fst acc) ++ snd acc = concat gs ++ cur ++ [t].
Proof.
  cbn zeta. unfold pack_step. destruct (_ && _); cbn [fst snd].
  - rewrite concat_app. cbn [concat]. by rewrite app_nil_r, <- app_assoc.
  - by rewrite app_assoc.
Qed.

Lemma chunk_loop_packed m k maxNodesPerChunk depth ts :
  forest_size ts < depth ->
  forall rest gs cur st,
    ts = concat gs ++ cur ++ rest ->
    packed m k gs cur st ->
    exists st',
      fold_left
        (fun acc rootId =>
           st ← acc;
           chunk_step depth (flatten_forest (flatten m) k ts) maxNodesPerChunk st rootId)
        (root_ids (k + forest_size (concat gs ++ cur)) rest) (Some st) = Some st'
      /\ packed m k (fst (fold_left (pack_step maxNodesPerChunk) rest (gs, cur)))
                (snd (fold_left (pack_step maxNodesPerChunk) rest (gs, cur))) st'.
Proof.
  intros Hd. induction rest as [|t rest IH]; intros gs cur st Hts Hst.
  - by exists st.
  - cbn [root_ids fold_left mbind option_bind].
    destruct (chunk_step_packed m k maxNodesPerChunk depth ts gs cur t rest st Hts Hd Hst)
      as (st' & -> & Hst').
    pose proof (pack_step_concat maxNodesPerChunk gs cur t) as Hcat. cbn zeta in Hcat.
    destruct (pack_step maxNodesPerChunk (gs, cur) t) as [gs' cur'] eqn:Hstep.
    cbn [fst snd] in *.
    replace (k + forest_size (concat gs ++ cur) + tree_size t)
      with (k + forest_size (concat gs' ++ cur')).
    + apply IH; [|done]. rewrite app_assoc, Hcat, Hts, <- !app_assoc. done.
    + rewrite Hcat, !forest_size_app, forest_size_cons. change (forest_size []) with 0. lia.
Qed.

Lemma pack_loop_concat maxNodesPerChunk rest : forall gs cur,
  let acc := fold_left (pack_step maxNodesPerChunk) rest (gs, cur) in
  concat (fst acc) ++ snd acc = concat gs ++ cur ++ rest.
Proof.
  induction rest as [|t rest IH]; intros gs cur; cbn zeta.
  - cbn [fold_left fst snd]. by rewrite app_nil_r.
  - cbn [fold_left]. pose proof (pack_step_concat maxNodesPerChunk gs cur t) as Hcat.
    cbn zeta in Hcat. destruct (pack_step maxNodesPerChunk (gs, cur) t) as [gs' cur'].
    cbn [fst snd] in Hcat. specialize (IH gs' cur'). cbn zeta in IH.
    rewrite IH, app_assoc, Hcat, <- !app_assoc. done.
Qed.

(** The result of [splitIntoChunks] on a flattened forest, from the groups
    that the loop forms. *)
Lemma splitIntoChunks_packed m k ts maxNodesPerChunk depth :
  forest_size ts < depth ->
  let acc := fold_left (pack_step maxNodesPerChunk) ts ([], []) in
  let gs := fst acc ++ match snd acc with [] => [] | _ :: _ => [snd acc] end in
  exists result,
    splitIntoChunks depth (flatten_forest (flatten m) k ts) (root_ids k ts) maxNodesPerChunk
      = Some result
    /\ map chunk_nodes result = group_nodes m k gs
    /\ Forall (fun c => nodeCount c = length (chunk_nodes c)) result
    /\ concat gs = ts
    /\ (fst acc = [] ->
        (exists c, result = [c]
           /\ label c = chunk_label (flatten_forest (flatten m) k ts) (root_ids k ts)
                          "Complete Page")
        \/ (result = [] /\ ts = [])).
Proof.
  intros Hd. cbn zeta. unfold splitIntoChunks.
  destruct (chunk_loop_packed m k maxNodesPerChunk depth ts Hd ts [] []
              (mkChunkState [] ∅ [] 1) eq_refl)
    as (st & Hfold & (Hch & Hcnt & Hset & Hroots & Hidx)).
  { repeat split; try done. }
  change (forest_size (concat [] ++ [])) with 0 in Hfold. rewrite Nat.add_0_r in Hfold.
  rewrite Hfold. cbn [mbind option_bind]. rewrite Hset, size_idset.
  pose proof (pack_loop_concat maxNodesPerChunk ts [] []) as Hcat. cbn zeta in Hcat.
  cbn [concat app] in Hcat.
  destruct (fold_left (pack_step maxNodesPerChunk) ts ([], [])) as [gs cur] eqn:Hpack.
  cbn [fst snd] in *.
  destruct cur as [|t cur].
  - cbn. eexists. split; [reflexivity|]. rewrite !app_nil_r in *.
    repeat split; try done. intros ->. right. cbn in Hch. split; [|done].
    by destruct (chunks st).
  - assert (Hpos : (0 <? forest_size (t :: cur))%nat = true).
    { apply Nat.ltb_lt. pose proof (tree_size_pos t). rewrite forest_size_cons. lia. }
    rewrite Hpos. eexists. split; [reflexivity|]. repeat split.
    + rewrite map_app, group_nodes_app, Hch. cbn [map group_nodes chunk_nodes]. do 2 f_equal.
      assert (Hsplit : flatten_forest (flatten m) k ts =
                flatten_forest (flatten m) k (concat gs)
                ++ flatten_forest (flatten m) (k + forest_size (concat gs)) (t :: cur) ++ [])
        by (by rewrite <- Hcat, flatten_forest_app, app_nil_r).
      pose proof (laid_out_flatten_forest m k ts) as Hl. rewrite Hsplit in Hl |- *.
      pose proof (chunk_of_segment k _ _ _ Hl) as Hseg.
      by rewrite !length_flatten_forest in Hseg.
    + apply Forall_app. split; [done|]. by constructor.
    + rewrite concat_app. cbn [concat]. by rewrite app_nil_r.
    + intros ->. left. cbn in Hch. destruct (chunks st) as [|c0 cs]; [|done].
      eexists. split; [reflexivity|]. cbn [label app]. rewrite Hidx, Hroots. cbn.
      cbn in Hcat. subst ts. rewrite Nat.add_0_r. reflexivity.
Qed.

(** *** The limit *)

Lemma pack_step_within maxNodesPerChunk gs cur t :
  Forall (within maxNodesPerChunk) gs -> within maxNodesPerChunk cur ->
  Forall (fun g => g <> []) gs ->
  let acc := pack_step maxNodesPerChunk (gs, cur) t in
  Forall (within maxNodesPerChunk) (fst acc) /\ within maxNodesPerChunk (snd acc)
  /\ Forall (fun g => g <> []) (fst acc) /\ snd acc <> [].
Proof.
  intros Hgs Hcur Hne. cbn zeta. unfold pack_step.
  destruct ((0 <? forest_size cur)%nat
            && (maxNodesPerChunk <? Z.of_nat (forest_size cur + tree_size t))%Z) eqn:Hcond;
    cbn [fst snd].
  - apply andb_true_iff in Hcond as [Hpos _]. apply Nat.ltb_lt in Hpos.
    repeat split; try done.
    + apply Forall_app. split; [done|]. by constructor.
    + left. cbn. lia.
    + apply Forall_app. split; [done|]. constructor; [|done]. intros ->. cbn in Hpos. lia.
  - repeat split; try done; [|by destruct cur].
    apply andb_false_iff in Hcond as [Hc|Hc].
    + apply Nat.ltb_ge in Hc. destruct cur as [|t0 cur]; [left; cbn; lia|].
      pose proof (tree_size_pos t0). rewrite forest_size_cons in Hc. lia.
    + apply Z.ltb_ge in Hc. right.
      rewrite forest_size_app, forest_size_cons. change (forest_size []) with 0. lia.
Qed.

Lemma pack_loop_within maxNodesPerChunk rest : forall gs cur,
  Forall (within maxNodesPerChunk) gs -> within maxNodesPerChunk cur ->
  Forall (fun g => g <> []) gs ->
  let acc := fold_left (pack_step maxNodesPerChunk) rest (gs, cur) in
  Forall (within maxNodesPerChunk) (fst acc) /\ within maxNodesPerChunk (snd acc)
  /\ Forall (fun g => g <> []) (fst acc).
Proof.
  induction rest as [|t rest IH]; intros gs cur Hgs Hcur Hne; cbn zeta; [done|].
  cbn [fold_left].
  destruct (pack_step_within maxNodesPerChunk gs cur t Hgs Hcur Hne) as (H1 & H2 & H3 & _).
  destruct (pack_step maxNodesPerChunk (gs, cur) t) as [gs' cur']. by apply IH.
Qed.

Lemma group_nodes_lookup m gs : forall k i g,
  gs !! i = Some g ->
  group_nodes m k gs !! i
  = Some (flatten_forest (flatten m) (k + forest_size (concat (take i gs))) g).
Proof.
  induction gs as [|g0 gs IH]; intros k i g Hg; [done|].
  destruct i as [|i].
  - cbn in Hg |- *. injection Hg as ->. change (forest_size []) with 0.
    by rewrite Nat.add_0_r.
  - change ((g0 :: gs) !! S i) with (gs !! i) in Hg.
    change (group_nodes m k (g0 :: gs) !! S i)
      with (group_nodes m (k + forest_size g0) gs !! i).
    rewrite (IH _ i g Hg). cbn [take concat]. by rewrite forest_size_app, Nat.add_assoc.
Qed.

Lemma length_group_nodes m k gs : length (group_nodes m k gs) = length gs.
Proof. revert k. induction gs as [|g gs IH]; intros k; [done|]. cbn. by rewrite IH. Qed.

Lemma concat_split {A} (gs : list (list A)) i g :
  gs !! i = Some g -> concat gs = concat (take i gs) ++ g ++ concat (drop (S i) gs).
Proof.
  intros Hg. rewrite <- (take_drop_middle gs i g Hg) at 1.
  rewrite concat_app. done.
Qed.

(** X9. On the nodes and roots of a compilation, with call depth above the
    number of nodes, [splitIntoChunks] returns, and every chunk either has at
    most [maxNodesPerChunk] nodes or is made of the nodes reached from one
    root only: the limit is exceeded by no chunk that joins several roots. *)
Theorem chunks_within_limit (parseDocument : string -> list DomNode) (k : nat)
    (html : string) (classToIdMap : gmap string string) (maxNodesPerChunk : Z)
    (depth : nat) :
  let r := compileHTMLToNodes parseDocument k html classToIdMap in
  length (nodes r) < depth ->
  exists result,
    splitIntoChunks depth (nodes r) (rootNodeIds r) maxNodesPerChunk = Some result
    /\ forall c, c ∈ result ->
         (Z.of_nat (nodeCount c) <= maxNodesPerChunk)%Z
         \/ exists root,
              root ∈ rootNodeIds r
              /\ forall n, n ∈ chunk_nodes c -> rtc (child_of (nodes r)) root (node_id n).
Proof.
  rewrite compileHTMLToNodes_spec. cbn [nodes rootNodeIds].
  set (ts := content_trees (parseDocument html)).
  intros Hd. rewrite length_flatten_forest in Hd.
  destruct (splitIntoChunks_packed classToIdMap k ts maxNodesPerChunk depth Hd)
    as (result & Hsplit & Hmap & Hcnt & Hcat & _).
  destruct (pack_loop_within maxNodesPerChunk ts [] []) as (Hgs & Hcur & Hne);
    [constructor|left; cbn; lia|constructor|].
  destruct (fold_left (pack_step maxNodesPerChunk) ts ([], [])) as [gs cur].
  cbn [fst snd] in *.
  set (groups := gs ++ match cur with [] => [] | _ :: _ => [cur] end) in *.
  assert (Hall : Forall (fun g => within maxNodesPerChunk g /\ g <> []) groups).
  { unfold groups. apply Forall_app. split.
    - apply Forall_forall. intros g Hg. rewrite Forall_forall in Hgs. rewrite Forall_forall in Hne. by split; auto.
    - destruct cur; constructor; [by split|constructor]. }
  exists result. split; [done|]. intros c Hc.
  apply list_elem_of_lookup in Hc as [i Hi].
  assert (Hnodes : map chunk_nodes result !! i = Some (chunk_nodes c))
    by (by rewrite list_lookup_fmap, Hi).
  rewrite Hmap in Hnodes.
  destruct (groups !! i) as [g|] eqn:Hg.
  2:{ apply lookup_ge_None in Hg. apply lookup_lt_Some in Hnodes.
      rewrite length_group_nodes in Hnodes. lia. }
  rewrite (group_nodes_lookup _ _ _ _ _ Hg) in Hnodes. injection Hnodes as Hnodes.
  rewrite Forall_forall in Hall. rewrite Forall_forall in Hcnt.
  destruct (Hall g) as [[Hone|Hsize] Hnonempty]; [by eapply list_elem_of_lookup_2| |].
  - right. destruct g as [|t [|t' g]]; [done| |cbn in Hone; lia].
    pose proof (concat_split groups i [t] Hg) as Hts. rewrite Hcat in Hts.
    exists (uuidv4 (k + forest_size (concat (take i groups)))). split.
    + rewrite Hts, root_ids_app. apply elem_of_app. right. apply list_elem_of_here.
    + intros n Hn. rewrite <- Hnodes in Hn.
      assert (HnN : n ∈ flatten_forest (flatten classToIdMap) k
                        (concat (take i groups) ++ [t] ++ concat (drop (S i) groups))).
      { rewrite !flatten_forest_app. apply elem_of_app. right. apply elem_of_app. by left. }
      destruct (proj1 (group_members classToIdMap k _ [t] _ n HnN) Hn) as (root & Hr & Hreach).
      cbn in Hr. apply list_elem_of_singleton in Hr as ->. by rewrite Hts.
  - left. rewrite (Hcnt c) by (by eapply list_elem_of_lookup_2).
    by rewrite <- Hnodes, length_flatten_forest.
Qed.

Lemma chunks_within_limit_witness :
  let r := compileHTMLToNodes (fun _ => dom_two_roots) 0 "" ∅ in
  exists result,
    splitIntoChunks 10 (nodes r) (rootNodeIds r) 3 = Some result
    /\ forall c, c ∈ result ->
         (Z.of_nat (nodeCount c) <= 3)%Z
         \/ exists root,
              root ∈ rootNodeIds r
              /\ forall n, n ∈ chunk_nodes c -> rtc (child_of (nodes r)) root (node_id n).
Proof.
  apply (chunks_within_limit (fun _ => dom_two_roots) 0 "" ∅ 3 10).
  vm_compute. lia.
Defined.

Lemma pack_fits maxNodesPerChunk rest : forall cur,
  (Z.of_nat (forest_size (cur ++ rest)) <= maxNodesPerChunk)%Z ->
  fold_left (pack_step maxNodesPerChunk) rest ([], cur) = ([], cur ++ rest).
Proof.
  induction rest as [|t rest IH]; intros cur H; [by rewrite app_nil_r|].
  cbn [fold_left pack_step].
  assert ((maxNodesPerChunk <? Z.of_nat (forest_size cur + tree_size t))%Z = false) as ->.
  { apply Z.ltb_ge. rewrite forest_size_app, forest_size_cons in H. lia. }
  rewrite andb_false_r, IH; rewrite <- app_assoc; done.
Qed.

(** X10. When the nodes of a compilation fit the limit, [splitIntoChunks]
    returns them all as one chunk, in order; the chunk carries the label of the
    root when there is one root, and [Complete Page] otherwise.  A compilation
    without nodes gives no chunk. *)
Theorem chunks_single_when_fits (parseDocument : string -> list DomNode) (k : nat)
    (html : string) (classToIdMap : gmap string string) (maxNodesPerChunk : Z)
    (depth : nat) :
  let r := compileHTMLToNodes parseDocument k html classToIdMap in
  length (nodes r) < depth ->
  (Z.of_nat (length (nodes r)) <= maxNodesPerChunk)%Z ->
  splitIntoChunks depth (nodes r) (rootNodeIds r) maxNodesPerChunk
  = Some match nodes r with
         | [] => []
         | _ :: _ =>
             [ mkChunk match rootNodeIds r with
                       | [root] => getNodeLabel (nodes r) root
                       | _ => Own "Complete Page"
                       end
                       (nodes r) (length (nodes r)) ]
         end.
Proof.
  rewrite compileHTMLToNodes_spec. cbn [nodes rootNodeIds].
  set (ts := content_trees (parseDocument html)).
  intros Hd Hfit. rewrite length_flatten_forest in Hd, Hfit.
  destruct (splitIntoChunks_packed classToIdMap k ts maxNodesPerChunk depth Hd)
    as (result & Hsplit & Hmap & Hcnt & _ & Hfirst).
  rewrite (pack_fits maxNodesPerChunk ts []) in Hmap, Hfirst by done.
  cbn [fst snd app] in Hmap, Hfirst. rewrite Hsplit. f_equal.
  destruct (Hfirst eq_refl) as [(c & -> & Hlabel)|[-> ->]]; [|done].
  destruct ts as [|t ts'] eqn:Ets; [done|]. rewrite <- Ets in *.
  cbn [map group_nodes] in Hmap. injection Hmap as Hnodes.
  apply Forall_cons in Hcnt as [Hc _].
  destruct (flatten_forest (flatten classToIdMap) k ts) as [|n0 ns] eqn:Eflat.
  { pose proof (length_flatten_forest classToIdMap k ts) as Hlen. rewrite Eflat, Ets in Hlen.
    pose proof (tree_size_pos t). rewrite forest_size_cons in Hlen. cbn in Hlen. lia. }
  destruct c as [lab cn cnt]. cbn in *. by subst.
Qed.

Lemma chunks_single_when_fits_witness :
  let r := compileHTMLToNodes (fun _ => dom_two_roots) 0 "" ∅ in
  splitIntoChunks 10 (nodes r) (rootNodeIds r) 25
  = Some [ mkChunk (Own "Complete Page") (nodes r) 5 ].
Proof.
  apply (chunks_single_when_fits (fun _ => dom_two_roots) 0 "" ∅ 25 10);
    vm_compute; [lia|discriminate].
Defined.

(** ** Scans and character classes *)

(** Every match of a scan is a match of the anchored matcher at some
    position of the text. *)
Lemma scan_from_inr {A} (m : string -> option (nat * A)) s : forall skip x,
  inr x ∈ Regex.scan_from m skip s ->
  exists n len, m (JS.drop n s) = Some (len, x).
Proof.
  induction s as [|c r IH]; intros skip x H; [by apply elem_of_nil in H|].
  cbn [Regex.scan_from] in H. destruct skip as [|k].
  - destruct (m (String c r)) as [[len y]|] eqn:Hm.
    + apply elem_of_cons in H as [[= ->]|H]; [by exists 0, len|].
      destruct (IH _ _ H) as (n & len' & Hn). by exists (S n), len'.
    + apply elem_of_cons in H as [[=]|H].
      destruct (IH _ _ H) as (n & len' & Hn). by exists (S n), len'.
  - destruct (IH _ _ H) as (n & len' & Hn). by exists (S n), len'.
Qed.

Lemma exec_all_match {A} (m : string -> option (nat * A)) s x :
  x ∈ Regex.exec_all m s -> exists n len, m (JS.drop n s) = Some (len, x).
Proof.
  unfold Regex.exec_all, Regex.scan. intros H.
  apply list_elem_of_omap in H as ([c|y] & Hin & Hy); [done|]. injection Hy as ->.
  by apply (scan_from_inr m s 0).
Qed.

Lemma exec_all_none {A} (m : string -> option (nat * A)) s :
  (forall n, m (JS.drop n s) = None) -> Regex.exec_all m s = [].
Proof.
  intros H. destruct (Regex.exec_all m s) as [|x l] eqn:E; [done|]. exfalso.
  destruct (exec_all_match m s x) as (n & len & Hn); [rewrite E; apply list_elem_of_here|].
  by rewrite H in Hn.
Qed.

Lemma includes_drop p s : forall n,
  JS.startsWith p (JS.drop n s) = true -> JS.includes p s = true.
Proof.
  induction s as [|c r IH]; intros n H.
  - destruct n; cbn in H |- *; by rewrite H.
  - destruct n as [|n]; cbn [JS.drop] in H; cbn [JS.includes].
    + by rewrite H.
    + rewrite (IH n H). apply orb_true_r.
Qed.

Lemma span_all p s : all_chars p (fst (Regex.span p s)) = true.
Proof.
  induction s as [|c r IH]; [done|]. cbn [Regex.span].
  destruct (p c) eqn:Hc; [|done]. destruct (Regex.span p r) as [a b]. cbn in *.
  by rewrite Hc, IH.
Qed.

Lemma all_chars_trimStart p s : all_chars p s = true -> all_chars p (JS.trimStart s) = true.
Proof.
  induction s as [|c r IH]; [done|]. intros H. cbn [JS.trimStart].
  destruct (JS.is_ws c); [|done]. cbn in H. apply andb_true_iff in H as [_ H]. by apply IH.
Qed.

Lemma all_chars_trimEnd p s : all_chars p s = true -> all_chars p (JS.trimEnd s) = true.
Proof.
  induction s as [|c r IH]; [done|]. intros H. cbn in H. apply andb_true_iff in H as [Hc H].
  cbn [JS.trimEnd]. specialize (IH H). destruct (JS.trimEnd r) as [|c' r'].
  - destruct (JS.is_ws c); [done|]. cbn. by rewrite Hc.
  - cbn [all_chars] in *. by rewrite Hc, IH.
Qed.

Lemma all_chars_trim p s : all_chars p s = true -> all_chars p (JS.trim s) = true.
Proof. intros H. by apply all_chars_trimEnd, all_chars_trimStart. Qed.

Lemma all_chars_app p s t :
  all_chars p (s +:+ t) = all_chars p s && all_chars p t.
Proof.
  induction s as [|c s IH]; [done|]. rewrite app_cons. cbn. by rewrite IH, andb_assoc.
Qed.

(** The pieces of a split hold no separator, and keep what holds of every
    character of the text. *)
Lemma split_pieces sep p s piece :
  piece ∈ JS.split sep s ->
  all_chars (Regex.is_not sep) piece = true
  /\ (all_chars p s = true -> all_chars p piece = true).
Proof.
  revert piece. induction s as [|c r IH]; intros piece H.
  - cbn in H. apply list_elem_of_singleton in H as ->. done.
  - cbn [JS.split] in H. destruct (ascii_dec c sep) as [->|Hne].
    + apply elem_of_cons in H as [->|H]; [done|].
      destruct (IH piece H) as [H1 H2]. split; [done|]. intros Hp. cbn in Hp.
      apply andb_true_iff in Hp as [_ Hp]. by apply H2.
    + destruct (JS.split sep r) as [|h t] eqn:E.
      * apply list_elem_of_singleton in H as ->. cbn. unfold Regex.is_not.
        destruct (ascii_dec c sep); [done|]. split; [done|]. intros Hp.
        cbn in Hp. apply andb_true_iff in Hp as [Hc _]. by rewrite Hc.
      * apply elem_of_cons in H as [->|H].
        -- destruct (IH h) as [H1 H2]; [apply list_elem_of_here|]. cbn. unfold Regex.is_not at 1.
           destruct (ascii_dec c sep); [done|]. split; [done|]. intros Hp.
           cbn in Hp. apply andb_true_iff in Hp as [Hc Hp]. by rewrite Hc, H2.
        -- destruct (IH piece) as [H1 H2]; [by apply list_elem_of_further|].
           split; [done|]. intros Hp. cbn in Hp. apply andb_true_iff in Hp as [_ Hp].
           by apply H2.
Qed.

(** ** The rules that [parseCSSRules] returns *)

Lemma match_rule_groups s len g1 g2 :
  match_rule s = Some (len, (g1, g2)) ->
  all_chars (Regex.is_not "{") g1 = true /\ all_chars (Regex.is_not "}") g2 = true.
Proof.
  unfold match_rule. pose proof (span_all (Regex.is_not "{") s) as H1.
  destruct (Regex.span (Regex.is_not "{") s) as [a r1]. cbn [fst] in H1.
  destruct a as [|ca a]; [done|]. destruct r1 as [|c1 r2]; [done|].
  pose proof (span_all (Regex.is_not "}") r2) as H2.
  destruct (Regex.span (Regex.is_not "}") r2) as [b r3]. cbn [fst] in H2.
  destruct b as [|cb b]; [done|]. destruct r3 as [|c3 r4]; [done|].
  by intros [= <- <- <-].
Qed.

(** X11. In every rule that [parseCSSRules] returns, the selector is trimmed
    and holds no opening brace, and every declaration is not empty, is
    trimmed, and holds neither a semicolon nor a closing brace. *)
Theorem parseCSSRules_wellformed (cssString : string) (rule : CSSRule) :
  rule ∈ parseCSSRules cssString ->
  JS.trim (selector rule) = selector rule
  /\ all_chars (Regex.is_not "{") (selector rule) = true
  /\ Forall (fun prop =>
               prop <> "" /\ JS.trim prop = prop
               /\ all_chars (Regex.is_not ";") prop = true
               /\ all_chars (Regex.is_not "}") prop = true)
       (properties rule).
Proof.
  unfold parseCSSRules. intros H.
  apply list_elem_of_fmap in H as ([g1 g2] & -> & H). cbn [selector properties fst snd].
  apply exec_all_match in H as (n & len & Hm). apply match_rule_groups in Hm as [H1 H2].
  split; [apply trim_idem|]. split; [by apply all_chars_trim|].
  apply Forall_forall. intros prop Hp.
  apply list_elem_of_In, filter_In in Hp as [Hp Hne]. apply list_elem_of_In in Hp.
  apply list_elem_of_fmap in Hp as (piece & -> & Hp).
  destruct (split_pieces ";" (Regex.is_not "}") _ _ Hp) as [Hs Hb].
  split; [|split; [apply trim_idem|split]].
  - intros E. by rewrite E in Hne.
  - by apply all_chars_trim.
  - by apply all_chars_trim, Hb, all_chars_trim.
Qed.

Lemma parseCSSRules_wellformed_witness :
  Forall (fun prop => prop <> "" /\ JS.trim prop = prop
                      /\ all_chars (Regex.is_not ";") prop = true
                      /\ all_chars (Regex.is_not "}") prop = true)
    [ "color: var(--c)" ].
Proof.
  apply (parseCSSRules_wellformed css_red (mkRule ".x" [ "color: var(--c)" ])).
  assert (E : parseCSSRules css_red
              = [ mkRule ":root" [ "--c: red" ]; mkRule ".x" [ "color: var(--c)" ] ])
    by (vm_compute; reflexivity).
  rewrite E. apply list_elem_of_further, list_elem_of_here.
Defined.

(** ** Declaration strings hold no brace *)

Lemma remove_braces_free s : all_chars no_brace (remove_braces s) = true.
Proof.
  induction s as [|c r IH]; [done|]. cbn [remove_braces].
  destruct (ascii_dec c "{") as [|H1]; [done|]. destruct (ascii_dec c "}") as [|H2]; [done|].
  cbn [all_chars]. rewrite IH, andb_true_r. unfold no_brace, Regex.is_not.
  destruct (ascii_dec c "{"); [done|]. by destruct (ascii_dec c "}").
Qed.

Lemma match_colon_Some s rest :
  match_colon s = Some rest ->
  exists r, JS.trimStart s = String ":" r /\ rest = JS.trimStart r.
Proof.
  unfold match_colon. destruct (JS.trimStart s) as [|c r]; [done|].
  destruct c as [[] [] [] [] [] [] [] []]; try discriminate. intros [= <-]. by exists r.
Qed.

Lemma remove_final_semicolon_cons c r :
  remove_final_semicolon (String c r) =
  if ascii_dec c ";"
  then match r with "" => "" | String _ _ => String c (remove_final_semicolon r) end
  else String c (remove_final_semicolon r).
Proof.
  destruct (ascii_dec c ";") as [->|Hne]; [by destruct r|].
  destruct c as [[] [] [] [] [] [] [] []]; try reflexivity. congruence.
Qed.

Lemma space_colon_keeps p s :
  p ":"%char = true -> p " "%char = true ->
  all_chars p s = true -> all_chars p (space_colon s) = true.
Proof.
  intros Hcolon Hspace. induction s as [|c r IH]; intros H; [done|].
  cbn [space_colon]. destruct (match_colon (String c r)) as [rest|] eqn:Hm.
  - apply match_colon_Some in Hm as (r' & Ht & ->).
    pose proof (all_chars_trimStart p _ H) as Hall. rewrite Ht in Hall.
    cbn [all_chars] in Hall. apply andb_true_iff in Hall as [_ Hall].
    rewrite !app_cons, app_empty_l. cbn [all_chars].
    by rewrite Hcolon, Hspace, all_chars_trimStart.
  - cbn [all_chars] in H |- *. apply andb_true_iff in H as [Hc H]. by rewrite Hc, IH.
Qed.

Lemma remove_final_semicolon_keeps p s :
  all_chars p s = true -> all_chars p (remove_final_semicolon s) = true.
Proof.
  induction s as [|c r IH]; [done|]. intros H. cbn [all_chars] in H.
  apply andb_true_iff in H as [Hc H]. rewrite remove_final_semicolon_cons.
  destruct (ascii_dec c ";"); [destruct r; [done|]|]; cbn [all_chars]; by rewrite Hc, IH.
Qed.

Lemma join_keeps p sep parts :
  all_chars p sep = true -> Forall (fun s => all_chars p s = true) parts ->
  all_chars p (JS.join sep parts) = true.
Proof.
  intros Hsep. induction 1 as [|s parts Hs _ IH]; [done|]. cbn [JS.join].
  destruct parts as [|s' parts']; [done|].
  by rewrite !all_chars_app, Hs, Hsep, IH.
Qed.

Lemma convertToStyleLess_free properties :
  all_chars no_brace (convertToStyleLess properties) = true.
Proof.
  unfold convertToStyleLess. apply join_keeps; [done|].
  apply Forall_forall. intros s Hs. apply list_elem_of_In, filter_In in Hs as [Hs _].
  apply in_map_iff in Hs as (prop & <- & _).
  apply remove_final_semicolon_keeps, space_colon_keeps; try done.
  apply remove_braces_free.
Qed.

(** ** Loops that may raise *)

Lemma fold_left_option_inv {A B} (f : option A -> B -> option A) (P : A -> Prop) l :
  (forall b, f None b = None) ->
  (forall a b a', f (Some a) b = Some a' -> P a -> P a') ->
  forall a a', fold_left f l (Some a) = Some a' -> P a -> P a'.
Proof.
  intros Hnone Hstep. induction l as [|b l IH]; intros a a' H Ha.
  - cbn in H. by injection H as <-.
  - cbn [fold_left] in H. destruct (f (Some a) b) as [a1|] eqn:E.
    + apply (IH a1 a' H). by apply (Hstep a b).
    + exfalso. clear -H Hnone. induction l as [|b' l IHl]; [done|].
      cbn [fold_left] in H. rewrite Hnone in H. by apply IHl.
Qed.

Lemma fold_left_inv {A B} (f : A -> B -> A) (P : A -> Prop) l :
  (forall a b, P a -> P (f a b)) -> forall a, P a -> P (fold_left f l a).
Proof.
  intros Hstep. induction l as [|b l IH]; intros a Ha; [done|]. cbn. by apply IH, Hstep.
Qed.

(** ** Assignments to an object *)

Lemma obj_set_elem {V} key (v : V) fields x :
  x ∈ obj_set key v fields -> x = (key, v) \/ x ∈ fields.
Proof.
  induction fields as [|[k w] rest IH]; cbn [obj_set]; intros H.
  - apply list_elem_of_singleton in H. by left.
  - destruct (String.eqb_spec k key) as [->|Hne].
    + apply elem_of_cons in H as [->|H]; [by left|]. right. by apply list_elem_of_further.
    + apply elem_of_cons in H as [->|H]; [right; apply list_elem_of_here|].
      destruct (IH H) as [?|?]; [by left|right; by apply list_elem_of_further].
Qed.

Lemma obj_set_key {V} key (v : V) fields k :
  k ∈ map fst (obj_set key v fields) -> k = key \/ k ∈ map fst fields.
Proof.
  intros H. apply list_elem_of_fmap in H as ([k' w] & -> & H).
  apply obj_set_elem in H as [[= -> ->]|H]; [by left|]. right.
  apply list_elem_of_fmap. by exists (k', w).
Qed.

Lemma obj_set_NoDup {V} key (v : V) fields :
  NoDup (map fst fields) -> NoDup (map fst (obj_set key v fields)).
Proof.
  induction fields as [|[k w] rest IH]; cbn [obj_set map fst]; intros H.
  - repeat constructor. by intros ?%elem_of_nil.
  - apply NoDup_cons in H as [Hk H]. destruct (String.eqb_spec k key) as [->|Hne].
    + cbn [map fst]. by apply NoDup_cons.
    + cbn [map fst]. apply NoDup_cons. split; [|by apply IH].
      intros Hin. apply obj_set_key in Hin as [->|Hin]; done.
Qed.

(** ** The style records *)

(** X12. The declaration string of every style record that
    [parseCSSToWebflow] or [parseCSSWithMediaQueries] returns, and of every
    variant, holds no curly brace. *)
Theorem styleLess_no_brace (depth drawn : nat) (cssString : string)
    (classNames : list string) (r : ParsedCSSResult) (s : WebflowStyle) :
  parseCSSToWebflow depth drawn cssString classNames = Some r
  \/ parseCSSWithMediaQueries depth drawn cssString classNames = Some r ->
  s ∈ styles r ->
  all_chars no_brace (styleLess s) = true
  /\ Forall (fun variant => all_chars no_brace (snd variant) = true) (variants s).
Proof.
  set (ok := fun s : WebflowStyle =>
               all_chars no_brace (styleLess s) = true
               /\ Forall (fun variant => all_chars no_brace (snd variant) = true)
                    (variants s)).
  set (P := fun acc : nat * gmap string string * list WebflowStyle => Forall ok (snd acc)).
  intros [H|H] Hs.
  - rewrite parseCSSToWebflow_unfold in H.
    destruct (fold_left _ classNames _) as [[[d ids] sts]|] eqn:Hloop; [|done].
    cbn in H. injection H as <-. cbn [styles] in Hs.
    assert (HP : P (d, ids, sts)).
    { refine (fold_left_option_inv _ P classNames (fun _ => eq_refl) _ _ _ Hloop _);
        [|by constructor].
      intros [[d0 ids0] sts0] c [[d1 ids1] sts1] Hstep Hacc. unfold P in *. cbn [snd] in *.
      unfold class_step in Hstep. cbn [mbind option_bind] in Hstep.
      destruct (findRuleForClass _ c) as [rule|].
      - destruct (mapM _ (properties rule)) as [ps|]; [|done]. cbn in Hstep.
        injection Hstep as <- <- <-. apply Forall_app. split; [done|].
        constructor; [|done]. split; [apply convertToStyleLess_free|constructor].
      - injection Hstep as <- <- <-. apply Forall_app. split; [done|].
        constructor; [|done]. split; [done|constructor]. }
    unfold P in HP. cbn [snd] in HP. rewrite Forall_forall in HP. by apply HP.
  - unfold parseCSSWithMediaQueries in H.
    destruct (fold_left _ classNames _) as [[[d ids] sts]|] eqn:Hloop; [|done].
    cbn in H. injection H as <-. cbn [styles] in Hs.
    assert (HP : P (d, ids, sts)).
    { refine (fold_left_option_inv _ P classNames (fun _ => eq_refl) _ _ _ Hloop _);
        [|by constructor].
      intros [[d0 ids0] sts0] c [[d1 ids1] sts1] Hstep Hacc. unfold P in *. cbn [snd] in *.
      cbn [mbind option_bind] in Hstep.
      match type of Hstep with
      | context [match findRuleForClass ?rules c with _ => _ end] =>
          destruct (match findRuleForClass rules c with
                    | Some baseRule =>
                        convertToStyleLess <$>
                          mapM (fun prop => resolveCSSVariables depth prop
                                              (extractCSSVariables cssString))
                               (properties baseRule)
                    | None => Some ""
                    end) as [base|] eqn:Hbase; [|done]
      end.
      cbn [mbind option_bind] in Hstep.
      destruct (fold_left _ (parseMediaQueries cssString) (Some []))
        as [vs|] eqn:Hvs; [|done].
      cbn in Hstep. injection Hstep as <- <- <-. apply Forall_app. split; [done|].
      constructor; [|done]. split; cbn [styleLess variants classStyle].
      - destruct (findRuleForClass _ c); [|by injection Hbase as <-].
        destruct (mapM _ _); [|done]. cbn in Hbase. injection Hbase as <-.
        apply convertToStyleLess_free.
      - refine (fold_left_option_inv _
                 (fun vs => Forall (fun variant => all_chars no_brace (snd variant) = true) vs)
                 _ (fun _ => eq_refl) _ _ _ Hvs _); [|constructor].
        intros vs0 entry vs1 Hv Hacc0. cbn [mbind option_bind] in Hv.
        destruct (findRuleForClass (snd entry) c) as [rule|]; [|by injection Hv as <-].
        destruct (mapM _ (properties rule)) as [ps|]; [|done]. cbn in Hv.
        injection Hv as <-. apply Forall_forall. intros x Hx.
        apply obj_set_elem in Hx as [->|Hx]; [apply convertToStyleLess_free|].
        rewrite Forall_forall in Hacc0. by apply Hacc0. }
    unfold P in HP. cbn [snd] in HP. rewrite Forall_forall in HP. by apply HP.
Qed.

Lemma css_red_parsed : parseCSSToWebflow 5 0 css_red ["x"] = Some css_red_result.
Proof. vm_compute. reflexivity. Qed.

Lemma styleLess_no_brace_witness : all_chars no_brace "color: red" = true.
Proof.
  apply (styleLess_no_brace 5 0 css_red ["x"] css_red_result
           (classStyle (uuidv4 0) "x" "color: red" [])).
  - left. apply css_red_parsed.
  - apply list_elem_of_here.
Defined.

(** ** Breakpoints *)

Lemma mapMediaQueryToBreakpoint_range condition b :
  mapMediaQueryToBreakpoint condition = Some b -> b ∈ breakpoints.
Proof.
  unfold mapMediaQueryToBreakpoint, breakpoints.
  repeat match goal with |- context [if ?c then _ else _] => destruct c end;
    intros [= <-]; set_solver.
Qed.

Lemma parseMediaQueries_keys cssString :
  NoDup (map fst (parseMediaQueries cssString))
  /\ forall k, k ∈ map fst (parseMediaQueries cssString) -> k ∈ breakpoints.
Proof.
  unfold parseMediaQueries.
  apply (fold_left_inv _
           (fun mq : list (string * list CSSRule) =>
              NoDup (map fst mq) /\ forall k, k ∈ map fst mq -> k ∈ breakpoints)).
  - intros mq m [Hnd Hk].
    destruct (mapMediaQueryToBreakpoint (JS.trim (fst m))) as [b|] eqn:Hb; [|done].
    split; [by apply obj_set_NoDup|].
    intros k Hin. apply obj_set_key in Hin as [->|Hin]; [|by apply Hk].
    by apply (mapMediaQueryToBreakpoint_range _ _ Hb).
  - split; [constructor|]. intros k Hk. by apply elem_of_nil in Hk.
Qed.

(** X13. In every style record that [parseCSSWithMediaQueries] returns, the
    variants are named by breakpoints ([tiny], [small], [medium]), each
    breakpoint at most once, and only breakpoints that a media block of the
    style sheet was mapped to. *)
Theorem variants_are_breakpoints (depth drawn : nat) (cssString : string)
    (classNames : list string) (r : ParsedCSSResult) (s : WebflowStyle) :
  parseCSSWithMediaQueries depth drawn cssString classNames = Some r ->
  s ∈ styles r ->
  NoDup (map fst (variants s))
  /\ forall k, k ∈ map fst (variants s) ->
       k ∈ breakpoints /\ k ∈ map fst (parseMediaQueries cssString).
Proof.
  set (ok := fun s : WebflowStyle =>
               NoDup (map fst (variants s))
               /\ forall k, k ∈ map fst (variants s) ->
                    k ∈ breakpoints /\ k ∈ map fst (parseMediaQueries cssString)).
  set (P := fun acc : nat * gmap string string * list WebflowStyle => Forall ok (snd acc)).
  intros H Hs. unfold parseCSSWithMediaQueries in H.
  destruct (fold_left _ classNames _) as [[[d ids] sts]|] eqn:Hloop; [|done].
  cbn in H. injection H as <-. cbn [styles] in Hs.
  assert (HP : P (d, ids, sts)).
  { refine (fold_left_option_inv _ P classNames (fun _ => eq_refl) _ _ _ Hloop _);
      [|by constructor].
    intros [[d0 ids0] sts0] c [[d1 ids1] sts1] Hstep Hacc. unfold P in *. cbn [snd] in *.
    cbn [mbind option_bind] in Hstep.
    match type of Hstep with
    | context [match findRuleForClass ?rules c with _ => _ end] =>
        destruct (match findRuleForClass rules c with
                  | Some baseRule =>
                      convertToStyleLess <$>
                        mapM (fun prop => resolveCSSVariables depth prop
                                            (extractCSSVariables cssString))
                             (properties baseRule)
                  | None => Some ""
                  end) as [base|]; [|done]
    end.
    cbn [mbind option_bind] in Hstep.
    destruct (fold_left _ (parseMediaQueries cssString) (Some []))
      as [vs|] eqn:Hvs; [|done].
    cbn in Hstep. injection Hstep as <- <- <-. apply Forall_app. split; [done|].
    constructor; [|done]. unfold ok. cbn [variants classStyle].
    destruct (parseMediaQueries_keys cssString) as [_ Hrange].
    revert Hvs. generalize (@eq_refl _ (parseMediaQueries cssString)).
    generalize (parseMediaQueries cssString) at 1 3 as entries. intros entries Hentries Hvs.
    assert (Hsub : forall e, e ∈ entries -> fst e ∈ map fst (parseMediaQueries cssString)).
    { intros e He. rewrite <- Hentries. apply list_elem_of_fmap. by exists e. }
    clear Hentries. revert vs Hvs.
    enough (forall acc vs,
              fold_left
                (fun acc entry =>
                   variants ← acc;
                   match findRuleForClass (snd entry) c with
                   | Some variantRule =>
                       styleLess ←
                         convertToStyleLess <$>
                           mapM (fun prop => resolveCSSVariables depth prop
                                               (extractCSSVariables cssString))
                                (properties variantRule);
                       Some (obj_set (fst entry) styleLess variants)
                   | None => Some variants
                   end) entries (Some acc) = Some vs ->
              (NoDup (map fst acc)
               /\ forall k, k ∈ map fst acc ->
                    k ∈ breakpoints /\ k ∈ map fst (parseMediaQueries cssString)) ->
              NoDup (map fst vs)
              /\ forall k, k ∈ map fst vs ->
                   k ∈ breakpoints /\ k ∈ map fst (parseMediaQueries cssString)) as Hgen.
    { intros vs Hvs. apply (Hgen [] vs Hvs). split; [constructor|].
      intros k Hk. by apply elem_of_nil in Hk. }
    induction entries as [|e entries IH]; intros acc vs Hvs Hacc0.
    - cbn in Hvs. by injection Hvs as <-.
    - cbn [fold_left mbind option_bind] in Hvs.
      destruct (findRuleForClass (snd e) c) as [rule|].
      + destruct (mapM _ (properties rule)) as [ps|].
        * cbn [fmap option_fmap option_map mbind option_bind] in Hvs.
          apply (IH (fun x Hx => Hsub x (list_elem_of_further _ _ _ Hx)) _ _ Hvs).
          destruct Hacc0 as [Hnd Hk]. split; [by apply obj_set_NoDup|].
          intros k Hin. apply obj_set_key in Hin as [->|Hin]; [|by apply Hk].
          split; [apply Hrange|]; apply Hsub, list_elem_of_here.
        * exfalso. cbn in Hvs. clear -Hvs. induction entries as [|e' entries IHe]; [done|].
          by apply IHe.
      + apply (IH (fun x Hx => Hsub x (list_elem_of_further _ _ _ Hx)) _ _ Hvs Hacc0). }
  unfold P in HP. cbn [snd] in HP. rewrite Forall_forall in HP. by apply HP.
Qed.

Lemma css_unindented_parsed :
  parseCSSWithMediaQueries 5 0 css_unindented ["t"] = Some css_unindented_result.
Proof. vm_compute. reflexivity. Qed.

Lemma variants_are_breakpoints_witness :
  NoDup [ "small" ] /\ forall k, k ∈ [ "small" ] ->
    k ∈ breakpoints /\ k ∈ map fst (parseMediaQueries css_unindented).
Proof.
  apply (variants_are_breakpoints 5 0 css_unindented ["t"] css_unindented_result
           (classStyle (uuidv4 0) "t" "color: red" [ ("small", "color: blue") ])).
  - apply css_unindented_parsed.
  - apply list_elem_of_here.
Defined.

(** ** The map of class names and the style records *)

Lemma class_step_Some depth vars rules d ids sts c d1 ids1 sts1 :
  class_step depth vars rules (Some (d, ids, sts)) c = Some (d1, ids1, sts1) ->
  d1 = S d /\ ids1 = <[ c := uuidv4 d ]> ids
  /\ exists sl, sts1 = sts ++ [classStyle (uuidv4 d) c sl []].
Proof.
  unfold class_step. cbn [mbind option_bind]. intros H.
  destruct (findRuleForClass rules c) as [rule|].
  - destruct (mapM _ (properties rule)) as [ps|]; [|done]. cbn in H.
    injection H as <- <- <-. repeat split. by eexists.
  - injection H as <- <- <-. repeat split. by eexists.
Qed.

Lemma class_loop_ids depth vars rules classNames : forall d ids sts d' ids' sts',
  fold_left (class_step depth vars rules) classNames (Some (d, ids, sts))
  = Some (d', ids', sts') ->
  (forall c id, ids' !! c = Some id ->
     ids !! c = Some id \/ exists s, s ∈ sts' /\ style_name s = c /\ _id s = id)
  /\ (forall s, s ∈ sts -> s ∈ sts')
  /\ (forall c, c ∉ classNames -> ids' !! c = ids !! c)
  /\ (NoDup classNames -> forall s, s ∈ sts' ->
        s ∈ sts \/ (style_name s ∈ classNames /\ ids' !! style_name s = Some (_id s))).
Proof.
  induction classNames as [|c cs IH]; intros d ids sts d' ids' sts' H.
  - cbn in H. injection H as <- <- <-. repeat split; auto.
  - cbn [fold_left] in H.
    destruct (class_step depth vars rules (Some (d, ids, sts)) c)
      as [[[d1 ids1] sts1]|] eqn:Hstep; [|by rewrite class_loop_None in H].
    apply class_step_Some in Hstep as (-> & -> & sl & ->).
    destruct (IH _ _ _ _ _ _ H) as (H1 & H2 & H3 & H4).
    assert (Hnew : classStyle (uuidv4 d) c sl [] ∈ sts').
    { apply H2, elem_of_app. right. apply list_elem_of_here. }
    repeat split.
    + intros x id Hx. destruct (H1 x id Hx) as [Hin|?]; [|by right].
      destruct (decide (x = c)) as [->|Hne].
      * rewrite lookup_insert_eq in Hin. injection Hin as <-. right.
        by exists (classStyle (uuidv4 d) c sl []).
      * rewrite lookup_insert_ne in Hin by done. by left.
    + intros s Hs. apply H2, elem_of_app. by left.
    + intros x Hx. rewrite H3 by set_solver. apply lookup_insert_ne. set_solver.
    + intros Hnd s Hs. apply NoDup_cons in Hnd as [Hc Hnd].
      destruct (H4 Hnd s Hs) as [Hin|[Hn Hid]].
      * apply elem_of_app in Hin as [Hin|Hin]; [by left|].
        apply list_elem_of_singleton in Hin as ->. right. cbn [style_name _id classStyle].
        split; [apply list_elem_of_here|]. rewrite (H3 c Hc). apply lookup_insert_eq.
      * right. split; [by apply list_elem_of_further|done].
Qed.

(** X14. The map and the style records that [parseCSSToWebflow] returns
    agree: an identifier that the map gives for a class name is the identifier
    of a style record of that name; and when no class name is requested twice,
    the map sends the name of every style record to the identifier of the
    record. *)
Theorem class_map_agrees_with_styles (depth drawn : nat) (cssString : string)
    (classNames : list string) (r : ParsedCSSResult) :
  parseCSSToWebflow depth drawn cssString classNames = Some r ->
  (forall c id, classToIdMap r !! c = Some id ->
     exists s, s ∈ styles r /\ style_name s = c /\ _id s = id)
  /\ (NoDup classNames ->
      forall s, s ∈ styles r -> classToIdMap r !! style_name s = Some (_id s)).
Proof.
  rewrite parseCSSToWebflow_unfold. intros H.
  destruct (fold_left _ classNames _) as [[[d ids] sts]|] eqn:Hloop; [|done].
  cbn in H. injection H as <-. cbn [styles classToIdMap].
  destruct (class_loop_ids _ _ _ _ _ _ _ _ _ _ Hloop) as (H1 & _ & _ & H4). split.
  - intros c id Hc. by destruct (H1 c id Hc) as [?|?].
  - intros Hnd s Hs. destruct (H4 Hnd s Hs) as [Hin|[_ ?]]; [|done].
    by apply elem_of_nil in Hin.
Qed.

Lemma class_map_agrees_with_styles_witness :
  classToIdMap css_red_result !! "x" = Some (uuidv4 0).
Proof.
  destruct (class_map_agrees_with_styles 5 0 css_red ["x"] css_red_result css_red_parsed)
    as [_ H].
  apply (H ltac:(repeat constructor; by intros ?%elem_of_nil)
           (classStyle (uuidv4 0) "x" "color: red" [])).
  apply list_elem_of_here.
Defined.

(** ** The table of custom properties *)

Lemma indexOf_aux_None sub s : forall pos,
  JS.includes sub s = false -> JS.indexOf_aux sub s pos = None.
Proof.
  induction s as [|c r IH]; intros pos H; cbn [JS.includes JS.indexOf_aux] in *.
  - apply orb_false_iff in H as [-> _]. done.
  - apply orb_false_iff in H as [-> H]. by apply IH.
Qed.

Lemma trimStart_word s :
  all_chars JS.is_word_dash s = true -> JS.trimStart s = s.
Proof.
  destruct s as [|c r]; [done|]. cbn. intros H. apply andb_true_iff in H as [Hc _].
  destruct (JS.is_ws c) eqn:Hw; [|done]. apply ws_not_word_dash in Hw. congruence.
Qed.

Lemma trimEnd_word s :
  all_chars JS.is_word_dash s = true -> JS.trimEnd s = s.
Proof.
  induction s as [|c r IH]; [done|]. cbn [all_chars JS.trimEnd]. intros H.
  apply andb_true_iff in H as [Hc H]. rewrite (IH H). destruct r as [|c' r']; [|done].
  destruct (JS.is_ws c) eqn:Hw; [|done]. apply ws_not_word_dash in Hw. congruence.
Qed.

Lemma all_chars_last_char p s : all_chars p s = true -> all_chars p (Regex.last_char s) = true.
Proof.
  induction s as [|c r IH]; [done|]. cbn [all_chars]. intros H.
  apply andb_true_iff in H as [Hc H]. cbn [Regex.last_char].
  destruct r as [|c' r']; [cbn; by rewrite Hc|]. by apply IH.
Qed.

Lemma all_chars_group_after_ws p s :
  all_chars p s = true -> all_chars p (Regex.group_after_ws s) = true.
Proof.
  intros H. unfold Regex.group_after_ws.
  pose proof (all_chars_trimStart p s H) as Ht.
  destruct (JS.trimStart s); [by apply all_chars_last_char|done].
Qed.

Lemma match_variable_groups s len n v :
  match_variable s = Some (len, (n, v)) ->
  n <> "" /\ all_chars JS.is_word_dash n = true /\ all_chars (Regex.is_not ";") v = true.
Proof.
  unfold match_variable. destruct (JS.startsWith "--" s); [|done].
  pose proof (span_all JS.is_word_dash (JS.drop 2 s)) as H1.
  destruct (Regex.span JS.is_word_dash (JS.drop 2 s)) as [name r1]. cbn [fst] in H1.
  destruct (Regex.span JS.is_ws r1) as [ws r2].
  destruct name as [|cn name]; [done|]. destruct r2 as [|c2 r3]; [done|].
  destruct (ascii_dec c2 ":") as [->|Hne].
  2:{ intros H. exfalso. revert H. clear -Hne.
      destruct c2 as [[] [] [] [] [] [] [] []]; try discriminate. congruence. }
  pose proof (span_all (Regex.is_not ";") r3) as H2.
  destruct (Regex.span (Regex.is_not ";") r3) as [all r4]. cbn [fst] in H2.
  destruct all as [|ca all]; [done|]. destruct r4 as [|c4 r5]; [done|].
  intros [= <- <- <-]. split; [done|]. split; [done|]. by apply all_chars_group_after_ws.
Qed.

Lemma fold_left_inv_elem {A B} (f : A -> B -> A) (P : A -> Prop) l :
  (forall a b, b ∈ l -> P a -> P (f a b)) -> forall a, P a -> P (fold_left f l a).
Proof.
  induction l as [|b l IH]; intros Hstep a Ha; [done|]. cbn. apply IH.
  - intros a' b' Hb'. apply Hstep. by apply list_elem_of_further.
  - apply Hstep; [apply list_elem_of_here|done].
Qed.

(** X15. Every entry of the table that [extractCSSVariables] returns has a
    name made of word characters and dashes, not empty, and a value that is
    trimmed and holds no semicolon; a style sheet without the text [:root]
    (comments removed) gives the empty table. *)
Theorem extractCSSVariables_entries (cssString : string) :
  (forall n v, extractCSSVariables cssString !! n = Some v ->
     n <> "" /\ all_chars JS.is_word_dash n = true
     /\ JS.trim v = v /\ all_chars (Regex.is_not ";") v = true)
  /\ (JS.includes ":root" (removeComments cssString) = false ->
      extractCSSVariables cssString = ∅).
Proof.
  split.
  - unfold extractCSSVariables.
    destruct (JS.indexOf ":root" _ 0) as [rootStart|]; [|by intros n v H].
    destruct (JS.indexOf "{" _ rootStart) as [openBrace|]; [|by intros n v H].
    destruct (find_close _ 1 _) as [closeBrace|]; [|by intros n v H].
    set (rootContent := JS.substring _ _ _).
    assert (Hall : Forall (fun m : string * string =>
                             fst m <> "" /\ all_chars JS.is_word_dash (fst m) = true
                             /\ all_chars (Regex.is_not ";") (snd m) = true)
                     (Regex.exec_all match_variable rootContent)).
    { apply Forall_forall. intros [n v] Hm. apply exec_all_match in Hm as (i & len & Hm).
      by apply match_variable_groups in Hm. }
    revert Hall. generalize (Regex.exec_all match_variable rootContent) as ms. intros ms Hall.
    apply (fold_left_inv_elem _
             (fun variables : gmap string string =>
                forall n v, variables !! n = Some v ->
                  n <> "" /\ all_chars JS.is_word_dash n = true
                  /\ JS.trim v = v /\ all_chars (Regex.is_not ";") v = true)
             ms); [|by intros n v H].
    intros variables [n v] Hm IH n' v' Hl. rewrite Forall_forall in Hall.
    destruct (Hall _ Hm) as (Hn & Hw & Hv). cbn [fst snd] in *.
    assert (Etrim : JS.trim n = n).
    { unfold JS.trim. by rewrite trimStart_word, trimEnd_word. }
    rewrite Etrim in Hl. destruct (decide (n' = n)) as [->|Hne].
    + rewrite lookup_insert_eq in Hl. injection Hl as <-.
      split; [done|]. split; [done|]. split; [apply trim_idem|by apply all_chars_trim].
    + rewrite lookup_insert_ne in Hl by done. by apply IH.
  - intros H. unfold extractCSSVariables, JS.indexOf. cbn [JS.drop].
    by rewrite indexOf_aux_None.
Qed.

Lemma extractCSSVariables_entries_witness :
  "c" <> "" /\ all_chars JS.is_word_dash "c" = true
  /\ JS.trim "red" = "red" /\ all_chars (Regex.is_not ";") "red" = true.
Proof.
  apply (proj1 (extractCSSVariables_entries css_red) "c" "red").
  vm_compute. reflexivity.
Defined.

(** ** Comments and advanced rules *)

Lemma drop_drop k s : forall n, JS.drop k (JS.drop n s) = JS.drop (n + k) s.
Proof.
  induction s as [|c r IH]; intros n.
  - destruct n, k; reflexivity.
  - destruct n as [|n]; [done|]. cbn [JS.drop Nat.add]. apply IH.
Qed.

Lemma startsWith_not_included p s n :
  JS.includes p s = false -> JS.startsWith p (JS.drop n s) = false.
Proof.
  intros H. destruct (JS.startsWith p (JS.drop n s)) eqn:E; [|done].
  apply includes_drop in E. congruence.
Qed.

Lemma includes_suffix p s : forall n,
  JS.includes p s = false -> JS.includes p (JS.drop n s) = false.
Proof.
  induction s as [|c r IH]; intros n H; [by destruct n|].
  destruct n as [|n]; [done|]. cbn [JS.drop]. apply IH.
  cbn [JS.includes] in H. by apply orb_false_iff in H as [_ H].
Qed.

Lemma replace_all_none {A} (m : string -> option (nat * A)) callback s :
  (forall n, m (JS.drop n s) = None) -> Regex.replace_all m callback s = s.
Proof.
  unfold Regex.replace_all, Regex.scan. induction s as [|c r IH]; intros H; [done|].
  cbn [Regex.scan_from]. pose proof (H 0) as H0. cbn [JS.drop] in H0. rewrite H0.
  cbn [fold_right]. f_equal. apply IH.
  intros n. apply (H (S n)).
Qed.

(** X16. [removeComments] leaves a text as it is when the text opens no
    comment, and also when it closes none: a comment that is not closed is
    not removed. *)
Theorem removeComments_unchanged (cssString : string) :
  JS.includes "/*" cssString = false \/ JS.includes "*/" cssString = false ->
  removeComments cssString = cssString.
Proof.
  intros H. unfold removeComments. apply replace_all_none. intros n. unfold match_comment.
  destruct H as [H|H].
  - by rewrite (startsWith_not_included _ _ n H).
  - destruct (JS.startsWith "/*" (JS.drop n cssString)); [|done].
    unfold JS.indexOf. rewrite indexOf_aux_None; [done|].
    rewrite !drop_drop. by apply includes_suffix.
Qed.

Lemma removeComments_unchanged_witness :
  removeComments ".a { color: red; } /* open" = ".a { color: red; } /* open".
Proof. apply removeComments_unchanged. right. reflexivity. Defined.

Lemma find_all_false {A} (f : A -> bool) l :
  Forall (fun x => f x = false) l -> List.find f l = None.
Proof. induction 1 as [|x l Hx _ IH]; [done|]. cbn. by rewrite Hx. Qed.

Lemma match_pseudo_upto_None k s :
  (forall k', match_pseudo_at k' s = None) -> match_pseudo_upto k s = None.
Proof.
  intros H. induction k as [|k IH]; [done|]. cbn [match_pseudo_upto]. by rewrite H.
Qed.

(** X17. A style sheet that, comments removed, holds no [@media], no
    [@keyframes] and none of the pseudo selectors has no advanced rules:
    [extractAdvancedCSS] returns the empty string. *)
Theorem extractAdvancedCSS_none (cssString : string) :
  JS.includes "@media" (removeComments cssString) = false ->
  JS.includes "@keyframes" (removeComments cssString) = false ->
  Forall (fun alt => JS.includes alt (removeComments cssString) = false) pseudo_selectors ->
  extractAdvancedCSS cssString = "".
Proof.
  intros Hmedia Hkey Hpseudo. unfold extractAdvancedCSS.
  set (c := removeComments cssString) in *.
  rewrite (exec_all_none (match_at_rule "@media") c).
  2:{ intros n. unfold match_at_rule. by rewrite (startsWith_not_included _ _ n Hmedia). }
  rewrite (exec_all_none (match_at_rule "@keyframes") c).
  2:{ intros n. unfold match_at_rule. by rewrite (startsWith_not_included _ _ n Hkey). }
  rewrite (exec_all_none match_pseudo c); [done|].
  intros n. unfold match_pseudo. destruct (Regex.span is_selector_char (JS.drop n c)) as [g1 r].
  apply match_pseudo_upto_None. intros k. unfold match_pseudo_at.
  rewrite find_all_false; [done|].
  apply Forall_forall. intros alt Halt. rewrite Forall_forall in Hpseudo.
  rewrite drop_drop. apply startsWith_not_included. by apply Hpseudo.
Qed.

Lemma extractAdvancedCSS_none_witness : extractAdvancedCSS css_red = "".
Proof.
  apply extractAdvancedCSS_none; [vm_compute; reflexivity..|].
  repeat constructor; vm_compute; reflexivity.
Defined.

(** ** Parts of a text *)

Lemma startsWith_split p s : JS.startsWith p s = true -> exists b, s = p +:+ b.
Proof.
  revert s. induction p as [|a p IH]; intros s H; [by exists s|].
  destruct s as [|c s]; [done|]. cbn in H. destruct (ascii_dec a c) as [->|]; [|done].
  destruct (IH s H) as [b ->]. by exists b.
Qed.

Lemma includes_iff p s : JS.includes p s = true <-> exists a b, s = a +:+ p +:+ b.
Proof.
  split.
  - induction s as [|c r IH]; cbn [JS.includes]; intros H.
    + rewrite orb_false_r in H. apply startsWith_split in H as [b ->]. by exists "", b.
    + apply orb_true_iff in H as [H|H].
      * apply startsWith_split in H as [b ->]. by exists "", b.
      * destruct (IH H) as (a & b & ->). by exists (String c a), b.
  - intros (a & b & ->). induction a as [|c a IH].
    + rewrite app_empty_l. pose proof (startsWith_app p b) as H.
      destruct (p +:+ b); cbn [JS.includes]; by rewrite H.
    + rewrite app_cons. cbn [JS.includes]. rewrite IH. apply orb_true_r.
Qed.

Lemma includes_part p a s b : JS.includes p s = true -> JS.includes p (a +:+ s +:+ b) = true.
Proof.
  intros H. apply includes_iff in H as (a' & b' & ->). apply includes_iff.
  exists (a +:+ a'), (b' +:+ b). by rewrite !app_assoc_s.
Qed.

Lemma trimStart_part s : exists w, s = w +:+ JS.trimStart s.
Proof.
  induction s as [|c r [w IH]]; [by exists ""|]. cbn [JS.trimStart].
  destruct (JS.is_ws c); [|by exists ""]. exists (String c w). by rewrite app_cons, <- IH.
Qed.

Lemma trimEnd_part s : exists w, s = JS.trimEnd s +:+ w.
Proof.
  induction s as [|c r [w IH]]; [by exists ""|]. cbn [JS.trimEnd].
  destruct (JS.trimEnd r) as [|c' r'] eqn:E.
  - destruct (JS.is_ws c).
    + exists (String c r). done.
    + exists w. by rewrite app_cons, <- IH.
  - exists w. by rewrite app_cons, <- IH.
Qed.

Lemma trim_part s : exists a b, s = a +:+ JS.trim s +:+ b.
Proof.
  destruct (trimStart_part s) as [a Ha]. destruct (trimEnd_part (JS.trimStart s)) as [b Hb].
  exists a, b. unfold JS.trim. by rewrite <- Hb.
Qed.

Lemma span_part p s : s = fst (Regex.span p s) +:+ snd (Regex.span p s).
Proof.
  induction s as [|c r IH]; [done|]. cbn [Regex.span]. destruct (p c); [|done].
  destruct (Regex.span p r) as [a b]. cbn [fst snd] in *. by rewrite app_cons, <- IH.
Qed.

Lemma take_drop_part n s : s = JS.take n s +:+ JS.drop n s.
Proof.
  revert s. induction n as [|n IH]; intros s; [done|]. destruct s as [|c r]; [done|].
  cbn [JS.take JS.drop]. by rewrite app_cons, <- IH.
Qed.

Lemma includes_trim p s : JS.includes p (JS.trim s) = true -> JS.includes p s = true.
Proof.
  intros H. destruct (trim_part s) as (a & b & E). rewrite E. by apply includes_part.
Qed.

Lemma includes_of_drop p n s : JS.includes p (JS.drop n s) = true -> JS.includes p s = true.
Proof.
  intros H. rewrite (take_drop_part n s), <- (app_empty_r (JS.drop n s)).
  by apply includes_part.
Qed.

Lemma includes_span_fst p q s :
  JS.includes p (fst (Regex.span q s)) = true -> JS.includes p s = true.
Proof.
  intros H. rewrite (span_part q s), <- (app_empty_l (fst _ +:+ _)).
  by apply includes_part.
Qed.

(** ** The class names of a style sheet *)

Lemma set_add_elem x l y : y ∈ set_add x l <-> y = x \/ y ∈ l.
Proof.
  unfold set_add. destruct (mem x l) eqn:E.
  - apply mem_elem_of in E. split; [by right|]. by intros [->|?].
  - rewrite elem_of_app, list_elem_of_singleton. tauto.
Qed.

Lemma set_add_NoDup x l : NoDup l -> NoDup (set_add x l).
Proof.
  intros H. unfold set_add. destruct (mem x l) eqn:E; [done|].
  apply NoDup_app. split; [done|]. split; [|apply NoDup_singleton].
  intros y Hy Hx. apply list_elem_of_singleton in Hx as ->.
  apply mem_elem_of in Hy. congruence.
Qed.

Lemma match_class_name s len n :
  match_class s = Some (len, n) ->
  JS.startsWith ("." +:+ n) s = true
  /\ exists c rest, n = String c rest /\ is_alpha c = true
                    /\ all_chars JS.is_word_dash rest = true.
Proof.
  unfold match_class. destruct s as [|d [|c r]]; try done.
  destruct (ascii_dec d ".") as [->|]; [|done]. destruct (is_alpha c) eqn:Hc; [|done].
  pose proof (span_all JS.is_word_dash r) as Hall. pose proof (span_part JS.is_word_dash r) as Hr.
  destruct (Regex.span JS.is_word_dash r) as [rest r']. cbn [fst snd] in *.
  intros [= <- <-]. split; [|by exists c, rest].
  rewrite Hr. rewrite <- !app_cons. change (String "." (String c rest)) with ("." +:+ String c rest).
  apply startsWith_app.
Qed.

(** X18. The class names that [extractClassNamesFromCSS] returns are
    pairwise distinct; each starts with a letter and goes on with letters,
    digits, underscores and dashes; and each stands after a dot in the style
    sheet (comments removed): no name is made up. *)
Theorem extractClassNamesFromCSS_names (cssString : string) :
  NoDup (extractClassNamesFromCSS cssString)
  /\ Forall (fun n =>
               (exists c rest, n = String c rest /\ is_alpha c = true
                               /\ all_chars JS.is_word_dash rest = true)
               /\ JS.includes ("." +:+ n) (removeComments cssString) = true)
       (extractClassNamesFromCSS cssString).
Proof.
  unfold extractClassNamesFromCSS.
  set (ok := fun n =>
               (exists c rest, n = String c rest /\ is_alpha c = true
                               /\ all_chars JS.is_word_dash rest = true)
               /\ JS.includes ("." +:+ n) (removeComments cssString) = true).
  apply (fold_left_inv_elem _ (fun l => NoDup l /\ Forall ok l)); [|by split; constructor].
  intros l [g1 g2] Hm Hl. cbn [fst].
  apply exec_all_match in Hm as (i & len & Hm).
  assert (Hg1 : forall p, JS.includes p (JS.trim g1) = true ->
                          JS.includes p (removeComments cssString) = true).
  { intros p Hp. apply includes_trim in Hp. apply (includes_of_drop p i).
    unfold match_rule in Hm. pose proof (includes_span_fst p (Regex.is_not "{")
                                           (JS.drop i (removeComments cssString))) as Hspan.
    destruct (Regex.span (Regex.is_not "{") (JS.drop i (removeComments cssString)))
      as [a r1]. cbn [fst] in Hspan.
    destruct a as [|ca a]; [done|]. destruct r1 as [|c1 r2]; [done|].
    destruct (Regex.span (Regex.is_not "}") r2) as [b r3].
    destruct b as [|cb b]; [done|]. destruct r3 as [|c3 r4]; [done|].
    injection Hm as _ <- _. by apply Hspan. }
  apply (fold_left_inv_elem _ (fun l => NoDup l /\ Forall ok l)); [|done].
  intros l' n Hn [Hnd Hall]. split; [by apply set_add_NoDup|].
  apply Forall_forall. intros y Hy. apply set_add_elem in Hy as [->|Hy].
  - apply exec_all_match in Hn as (j & len' & Hn).
    apply match_class_name in Hn as [Hstart Hshape]. split; [done|].
    apply Hg1. by apply (includes_drop _ _ j).
  - rewrite Forall_forall in Hall. by apply Hall.
Qed.

(** ** The whole conversion *)

Lemma extractClassNamesFromCSS_NoDup cssString : NoDup (extractClassNamesFromCSS cssString).
Proof.
  unfold extractClassNamesFromCSS.
  apply (fold_left_inv _ (fun l => NoDup l)); [|constructor].
  intros l m Hl. apply (fold_left_inv _ (fun l => NoDup l)); [|done].
  intros l' n Hl'. by apply set_add_NoDup.
Qed.

(** The classes of a compiled node are identifiers that the map gives. *)
Lemma compiled_classes_mapped parseDocument k html m n id :
  n ∈ nodes (compileHTMLToNodes parseDocument k html m) ->
  id ∈ node_classes n ->
  exists e anc c,
    (e, anc) ∈ compiled_elements (parseDocument html)
    /\ c ∈ extractClassNames e /\ m !! c = Some id.
Proof.
  intros Hn Hid. destruct n as [i cl ty tg d cs|i v]; [|by apply elem_of_nil in Hid].
  destruct (compiled_node_element parseDocument k html m _ _ Hn eq_refl)
    as (e & anc & He & Hc).
  injection Hc as Hcl _ _ _. cbn [node_classes] in Hid. rewrite Hcl in Hid.
  apply list_elem_of_omap in Hid as (c & Hc & Hm). by exists e, anc, c.
Qed.

(** X19. In the clipboard data that [convertToWebflow] returns, every class
    identifier of a node is the identifier of a style record of the payload,
    and no two style records have the same name. *)
Theorem convertToWebflow_styles_cover (parseDocument : string -> list DomNode)
    (depth drawn : nat) (html css : string) (data : WebflowClipboardData) :
  convertToWebflow parseDocument depth drawn html css = Some data ->
  NoDup (map style_name (payload_styles (payload data)))
  /\ forall n id,
       n ∈ payload_nodes (payload data) -> id ∈ node_classes n ->
       exists s, s ∈ payload_styles (payload data) /\ _id s = id.
Proof.
  unfold convertToWebflow. intros H.
  destruct (parseCSSToWebflow depth drawn css (extractClassNamesFromCSS css))
    as [parsed|] eqn:Hparse; [|done].
  cbn in H. injection H as <-. cbn [payload payload_nodes payload_styles].
  split.
  - destruct (parseCSSToWebflow_records _ _ _ _ _ Hparse) as (-> & _).
    apply extractClassNamesFromCSS_NoDup.
  - intros n id Hn Hid.
    destruct (compiled_classes_mapped _ _ _ _ _ _ Hn Hid) as (e & anc & c & _ & _ & Hm).
    rewrite parseCSSToWebflow_unfold in Hparse.
    destruct (fold_left _ (extractClassNamesFromCSS css) _) as [[[d ids] sts]|] eqn:Hloop;
      [|done].
    cbn in Hparse. injection Hparse as <-. cbn [styles classToIdMap] in *.
    destruct (class_loop_ids _ _ _ _ _ _ _ _ _ _ Hloop) as (H1 & _).
    destruct (H1 c id Hm) as [Hin|(s & Hs & _ & Hsid)]; [done|]. by exists s.
Qed.

Lemma convertToWebflow_styles_cover_witness :
  exists data,
    convertToWebflow (fun _ => dom_hello) 5 0 html_hello css_c = Some data
    /\ NoDup (map style_name (payload_styles (payload data))).
Proof.
  destruct (convertToWebflow (fun _ => dom_hello) 5 0 html_hello css_c) as [data|] eqn:E.
  - exists data. split; [reflexivity|].
    apply (convertToWebflow_styles_cover (fun _ => dom_hello) 5 0 html_hello css_c data E).
  - vm_compute in E. discriminate E.
Defined.

(** ** [compileHTMLWithStyles] *)

Lemma set_add_fold_mono {B} (f : B -> string) cs : forall l x,
  x ∈ l -> x ∈ fold_left (fun acc c => set_add (f c) acc) cs l.
Proof.
  induction cs as [|c cs IH]; intros l x Hx; [done|]. cbn [fold_left].
  apply IH, set_add_elem. by right.
Qed.

Lemma set_add_fold_covers {B} (f : B -> string) cs : forall l c,
  c ∈ cs -> f c ∈ fold_left (fun acc c => set_add (f c) acc) cs l.
Proof.
  induction cs as [|c0 cs IH]; intros l c Hc; [by apply elem_of_nil in Hc|].
  cbn [fold_left]. apply elem_of_cons in Hc as [->|Hc]; [|by apply IH].
  apply set_add_fold_mono, set_add_elem. by left.
Qed.

Lemma extractClasses_unfold n a cs acc :
  extractClasses (mkElement n a cs) acc =
  extractClasses_children cs
    (fold_left (fun acc x => set_add x acc) (own_classes (mkElement n a cs)) acc).
Proof.
  cbn [extractClasses]. fold extractClasses_children. f_equal. unfold own_classes.
  destruct (attr (mkElement n a cs) "class") as [ca|]; [|done].
  destruct (String.eqb ca ""); [done|].
  generalize (JS.split_ws ca) as l. intros l. revert acc.
  induction l as [|x l IH]; intros acc; [done|]. cbn. apply IH.
Qed.

Lemma extractClasses_mono e : forall acc x, x ∈ acc -> x ∈ extractClasses e acc.
Proof.
  induction e as [n a cs IH] using Element_children_ind. intros acc x Hx.
  rewrite extractClasses_unfold.
  assert (Hx' : x ∈ fold_left (fun acc x => set_add x acc)
                      (own_classes (mkElement n a cs)) acc)
    by (by apply (set_add_fold_mono (fun x => x))).
  revert Hx'. generalize (fold_left (fun acc x => set_add x acc)
                            (own_classes (mkElement n a cs)) acc) as acc'.
  induction IH as [|c cs' Hc _ IHcs]; intros acc' Hx'; [done|].
  destruct c as [c|d|]; apply IHcs; [by apply Hc|done|done].
Qed.

Lemma extractClasses_children_mono cs : forall acc x,
  x ∈ acc -> x ∈ extractClasses_children cs acc.
Proof.
  induction cs as [|c cs IH]; intros acc x Hx; [done|].
  destruct c as [c|d|]; apply IH; [by apply extractClasses_mono|done|done].
Qed.

Lemma extractClasses_covers e : forall acc anc x a c,
  (x, a) ∈ elements_in_context e anc -> c ∈ own_classes x -> c ∈ extractClasses e acc.
Proof.
  induction e as [n at_ cs IH] using Element_children_ind. intros acc anc x a c Hx Hc.
  rewrite extractClasses_unfold. rewrite elements_in_context_unfold in Hx.
  apply elem_of_cons in Hx as [[= -> ->]|Hx].
  - apply extractClasses_children_mono. by apply (set_add_fold_covers (fun x => x)).
  - generalize (fold_left (fun acc x => set_add x acc)
                  (own_classes (mkElement n at_ cs)) acc) as acc'.
    apply child_elements_in_context_elem in Hx as (c0 & Hc0 & Hx).
    revert Hc0. induction IH as [|c1 cs' Hc1 _ IHcs]; intros Hc0 acc';
      [by apply elem_of_nil in Hc0|].
    apply elem_of_cons in Hc0 as [<-|Hc0].
    + cbn [extractClasses_children]. apply extractClasses_children_mono.
      by apply (Hc1 acc' _ _ _ _ Hx Hc).
    + destruct c1 as [c1|d|]; by apply IHcs.
Qed.

Lemma extractClasses_top dom : forall acc,
  fold_left (fun classNames child =>
               match child with
               | NElement e => extractClasses e classNames
               | _ => classNames
               end) dom acc
  = extractClasses_children dom acc.
Proof.
  induction dom as [|c dom IH]; intros acc; [done|]. cbn [fold_left extractClasses_children].
  destruct c; apply IH.
Qed.

Lemma document_classes_covered dom x a c :
  (x, a) ∈ document_elements dom -> c ∈ own_classes x ->
  c ∈ fold_left (fun classNames child =>
                   match child with
                   | NElement e => extractClasses e classNames
                   | _ => classNames
                   end) dom [].
Proof.
  unfold document_elements. intros Hx Hc. rewrite extractClasses_top.
  apply child_elements_in_context_elem in Hx as (c0 & Hc0 & Hx).
  generalize (@nil string) as acc.
  induction dom as [|c1 dom IH]; intros acc; [by apply elem_of_nil in Hc0|].
  cbn [extractClasses_children]. apply elem_of_cons in Hc0 as [<-|Hc0].
  - apply extractClasses_children_mono.
    by apply (extractClasses_covers c0 acc _ _ _ _ Hx Hc).
  - destruct c1; by apply IH.
Qed.

Lemma extractClassNames_own e c :
  c ∈ extractClassNames e -> c ∈ own_classes e /\ c <> "".
Proof.
  unfold extractClassNames, own_classes.
  destruct (attr e "class") as [ca|]; [|by intros ?%elem_of_nil].
  destruct (String.eqb ca ""); [by intros ?%elem_of_nil|].
  intros H. apply list_elem_of_In, filter_In in H as [H Hne]. split; [by apply list_elem_of_In|].
  intros ->. done.
Qed.

(** What the loop of [assign_ids] keeps: the identifiers handed out are
    draws between the first and the next, different keys have different
    identifiers, no key is empty, and every name seen that is not empty has
    one. *)
Lemma assign_ids_spec drawn classNames :
  let r := assign_ids drawn classNames in
  (forall c, c ∈ classNames -> c <> "" -> is_Some (snd r !! c))
  /\ (forall c id, snd r !! c = Some id ->
        c <> "" /\ exists i, id = uuidv4 i /\ drawn <= i < fst r)
  /\ (forall c1 c2 id, snd r !! c1 = Some id -> snd r !! c2 = Some id -> c1 = c2)
  /\ drawn <= fst r.
Proof.
  cbn zeta. unfold assign_ids.
  induction classNames as [|c cs IH] using rev_ind.
  - cbn. repeat split; try done; try (by intros ? ?%elem_of_nil).
  - rewrite fold_left_app. cbn [fold_left].
    destruct (fold_left _ cs (drawn, ∅)) as [d m]. cbn [fst snd] in *.
    destruct IH as (H1 & H2 & H3 & H4).
    destruct (0 <? String.length c)%nat eqn:Hc; cbn [fst snd].
    + repeat split.
      * intros x Hx Hne. destruct (decide (x = c)) as [->|Hxc];
          [rewrite lookup_insert_eq; by eexists|].
        rewrite lookup_insert_ne by done. apply H1; [|done].
        apply elem_of_app in Hx as [Hx|Hx]; [done|].
        by apply list_elem_of_singleton in Hx.
      * destruct (decide (c0 = c)) as [->|Hxc]; [by intros ->|].
        rewrite lookup_insert_ne in H by done. by apply (H2 c0 id).
      * destruct (decide (c0 = c)) as [->|Hxc].
        -- rewrite lookup_insert_eq in H. injection H as <-. exists d. split; [done|lia].
        -- rewrite lookup_insert_ne in H by done.
           destruct (H2 c0 id H) as (_ & i & -> & Hi). exists i. split; [done|lia].
      * intros x1 x2 id Hx1 Hx2.
        destruct (decide (x1 = c)) as [->|Hn1]; destruct (decide (x2 = c)) as [->|Hn2];
          try done.
        -- rewrite lookup_insert_eq in Hx1. rewrite lookup_insert_ne in Hx2 by done.
           injection Hx1 as <-. destruct (H2 x2 _ Hx2) as (_ & i & E & Hi).
           apply uuidv4_inj in E. lia.
        -- rewrite lookup_insert_eq in Hx2. rewrite lookup_insert_ne in Hx1 by done.
           injection Hx2 as <-. destruct (H2 x1 _ Hx1) as (_ & i & E & Hi).
           apply uuidv4_inj in E. lia.
        -- rewrite lookup_insert_ne in Hx1, Hx2 by done. by apply (H3 x1 x2 id).
      * lia.
    + repeat split; try done.
      * intros x Hx Hne. apply H1; [|done].
        apply elem_of_app in Hx as [Hx|Hx]; [done|].
        apply list_elem_of_singleton in Hx as ->. exfalso.
        destruct c; [done|]. cbn in Hc. done.
      * by apply (H2 c0 id).
      * by apply (H2 c0 id).
Qed.

Lemma omap_all_Some (m : gmap string string) l :
  (forall c, c ∈ l -> is_Some (m !! c)) ->
  Forall2 (fun name id => m !! name = Some id) l (omap (fun c => m !! c) l).
Proof.
  induction l as [|c l IH]; intros H; [constructor|].
  destruct (H c) as [id Hid]; [apply list_elem_of_here|].
  change (omap (fun c => m !! c) (c :: l))
    with (match m !! c with
          | Some y => y :: omap (fun c => m !! c) l
          | None => omap (fun c => m !! c) l
          end).
  rewrite Hid. constructor; [done|].
  apply IH. intros x Hx. apply H. by apply list_elem_of_further.
Qed.

(** The element nodes of a list stand, in order, against the elements that
    their contents come from. *)
Lemma contents_classes (l : list WebflowNode) :
  forall (f : Element * list string -> WebflowNode) es,
    omap contents l = map f es ->
    Forall2 (fun n ea => node_classes n = node_classes (f ea))
            (filter (fun n => is_text n = false) l) es.
Proof.
  induction l as [|n l IH]; intros f es H.
  - destruct es; [constructor|done].
  - destruct n as [i cl ty tg dt cs|i v].
    + change (omap contents (ElementNode i cl ty tg dt cs :: l))
        with (ElementNode "" cl ty tg dt [] :: omap contents l) in H.
      destruct es as [|ea es]; [done|]. cbn [map] in H. injection H as Hea H.
      rewrite filter_cons_True by done. constructor; [by rewrite <- Hea|by apply IH].
    + change (omap contents (TextNode i v :: l)) with (omap contents l) in H.
      rewrite filter_cons_False by done. by apply IH.
Qed.

Lemma Forall2_with {A B} (R R' : A -> B -> Prop) (Q : B -> Prop) l es :
  Forall2 R l es -> Forall Q es -> (forall n ea, R n ea -> Q ea -> R' n ea) ->
  Forall2 R' l es.
Proof.
  intros H HQ Himp. induction H as [|n ea l es Hn _ IH]; [constructor|].
  apply Forall_cons in HQ as [Hq HQ]. constructor; [by apply Himp|by apply IH].
Qed.

(** X20. [compileHTMLWithStyles] drops no class: the element nodes of the
    result stand, in document order, against the elements that the compiler
    visits, one node per element, and each node carries, in order, one
    identifier for each class name of its own element, the one the returned
    map gives for that name; the map gives different identifiers to
    different names, and has no empty name. *)
Theorem compileHTMLWithStyles_classes (parseDocument : string -> list DomNode) (k : nat)
    (html : string) :
  let r := compileHTMLWithStyles parseDocument k html in
  Forall2 (fun n ea =>
             Forall2 (fun name id => ws_classToIdMap r !! name = Some id)
                     (extractClassNames (fst ea)) (node_classes n))
          (filter (fun n => is_text n = false) (ws_nodes r))
          (compiled_elements (parseDocument html))
  /\ (forall c1 c2 id,
        ws_classToIdMap r !! c1 = Some id -> ws_classToIdMap r !! c2 = Some id -> c1 = c2)
  /\ (forall c id, ws_classToIdMap r !! c = Some id -> c <> "").
Proof.
  cbn zeta. unfold compileHTMLWithStyles.
  set (names := fold_left _ (parseDocument html) []).
  pose proof (assign_ids_spec k names) as Hspec. cbn zeta in Hspec.
  destruct (assign_ids k names) as [d m]. cbn [fst snd] in Hspec.
  destruct Hspec as (H1 & H2 & H3 & _).
  cbn [ws_nodes ws_classToIdMap]. split; [|split; [done|]].
  - pose proof (contents_classes _ _ _ (compile_contents parseDocument d html m)) as Hall.
    apply (Forall2_with _ _ (fun ea => ea ∈ compiled_elements (parseDocument html)) _ _ Hall).
    + by apply Forall_forall.
    + intros n [e anc] Hn He. cbn [fst snd element_node node_classes] in Hn |- *.
      rewrite Hn. apply omap_all_Some. intros c Hc.
      apply extractClassNames_own in Hc as [Hown Hne]. apply H1; [|done].
      destruct (compiled_elements_context _ _ _ He) as (outer & Hdoc & _).
      by apply (document_classes_covered _ e (anc ++ outer)).
  - intros c id Hc. by destruct (H2 c id Hc).
Qed.

Lemma compileHTMLWithStyles_classes_witness :
  let r := compileHTMLWithStyles (fun _ => dom_hello) 0 html_hello in
  Forall2 (fun n ea =>
             Forall2 (fun name id => ws_classToIdMap r !! name = Some id)
                     (extractClassNames (fst ea)) (node_classes n))
          (filter (fun n => is_text n = false) (ws_nodes r))
          (compiled_elements dom_hello)
  /\ "c" <> "".
Proof.
  pose proof (compileHTMLWithStyles_classes (fun _ => dom_hello) 0 html_hello)
    as (H1 & _ & H3).
  split; [exact H1|].
  apply (H3 "c" (uuidv4 0)). vm_compute. reflexivity.
Defined.

(** ** Scripts of a document *)

Lemma toLowerCase_drop n : forall s,
  JS.toLowerCase (JS.drop n s) = JS.drop n (JS.toLowerCase s).
Proof.
  induction n as [|n IH]; intros s; [done|]. destruct s as [|c r]; [done|].
  cbn [JS.drop JS.toLowerCase]. apply IH.
Qed.

Lemma toLowerCase_take n : forall s,
  JS.toLowerCase (JS.take n s) = JS.take n (JS.toLowerCase s).
Proof.
  induction n as [|n IH]; intros s; [done|]. destruct s as [|c r]; [done|].
  cbn [JS.take JS.toLowerCase]. by rewrite IH.
Qed.

Lemma toLowerCase_app s t :
  JS.toLowerCase (s +:+ t) = JS.toLowerCase s +:+ JS.toLowerCase t.
Proof.
  induction s as [|c s IH]; [done|]. rewrite app_cons. cbn [JS.toLowerCase].
  by rewrite IH, app_cons.
Qed.

Lemma length_take_le n : forall s, String.length (JS.take n s) <= n.
Proof.
  induction n as [|n IH]; intros s; [done|]. destruct s as [|c r]; cbn; [lia|].
  specialize (IH r). lia.
Qed.

Lemma app_inv_tail_s t : forall s s', s +:+ t = s' +:+ t -> s = s'.
Proof.
  induction s as [|c s IH]; intros s' H.
  - destruct s' as [|c' s']; [done|]. exfalso.
    apply (f_equal String.length) in H. rewrite app_empty_l, length_app_s in H.
    cbn in H. lia.
  - destruct s' as [|c' s'].
    + exfalso. apply (f_equal String.length) in H.
      rewrite app_empty_l, length_app_s in H. cbn in H. lia.
    + rewrite !app_cons in H. injection H as -> H. by rewrite (IH s' H).
Qed.

(** The run of [p] stops before a character that is not in [p]. *)
Lemma span_stop p s :
  match snd (Regex.span p s) with
  | "" => True
  | String c _ => p c = false
  end.
Proof.
  induction s as [|c r IH]; [done|]. cbn [Regex.span].
  destruct (p c) eqn:Hc; [|done]. by destruct (Regex.span p r).
Qed.

(** [indexOf] gives the first place where the text goes on with [p]. *)
Lemma indexOf_aux_first p s : forall pos j,
  JS.indexOf_aux p s pos = Some j ->
  exists i, j = pos + i /\ JS.startsWith p (JS.drop i s) = true
            /\ forall i', i' < i -> JS.startsWith p (JS.drop i' s) = false.
Proof.
  induction s as [|c r IH]; intros pos j H; cbn [JS.indexOf_aux] in H.
  - destruct (JS.startsWith p "") eqn:E; [|done]. injection H as <-.
    exists 0. split; [lia|]. split; [done|]. intros i' Hi. lia.
  - destruct (JS.startsWith p (String c r)) eqn:E.
    + injection H as <-. exists 0. split; [lia|]. split; [done|]. intros i' Hi. lia.
    + destruct (IH _ _ H) as (i & -> & Hi & Hfirst). exists (S i).
      split; [lia|]. split; [done|]. intros [|i'] Hlt; [done|].
      cbn [JS.drop]. apply Hfirst. lia.
Qed.

Lemma includes_take_first p s i :
  p <> "" ->
  (forall i', i' < i -> JS.startsWith p (JS.drop i' s) = false) ->
  JS.includes p (JS.take i s) = false.
Proof.
  intros Hp Hfirst. destruct (JS.includes p (JS.take i s)) eqn:E; [|done]. exfalso.
  apply includes_iff in E as (a & b & E).
  assert (Hlen : String.length a < i).
  { pose proof (length_take_le i s) as Hle. rewrite E, !length_app_s in Hle.
    destruct p; [done|]. cbn in Hle. lia. }
  specialize (Hfirst _ Hlen).
  rewrite (take_drop_part i s), E, !app_assoc_s, drop_app_s, startsWith_app in Hfirst.
  done.
Qed.

Lemma first_match_at {A} (m : string -> option (nat * A)) s x :
  first_match m s = Some x -> exists n len, m (JS.drop n s) = Some (len, x).
Proof.
  unfold first_match. intros H. apply (exec_all_match m s x).
  destruct (Regex.exec_all m s) as [|y l]; [done|]. injection H as ->.
  apply list_elem_of_here.
Qed.

(** A match of the script regex is a script element as it is written. *)
Lemma match_script_written s len attributes content :
  match_script s = Some (len, (attributes, content)) ->
  script_written s attributes content.
Proof.
  unfold match_script. destruct (JS.startsWith "<script" (JS.toLowerCase s)) eqn:Hs; [|done].
  pose proof (span_part (Regex.is_not ">") (JS.drop 7 s)) as Hpart.
  pose proof (span_all (Regex.is_not ">") (JS.drop 7 s)) as Hall.
  pose proof (span_stop (Regex.is_not ">") (JS.drop 7 s)) as Hstop.
  destruct (Regex.span (Regex.is_not ">") (JS.drop 7 s)) as [g1 r1]. cbn [fst snd] in *.
  destruct r1 as [|c r2]; [done|].
  unfold JS.indexOf. cbn [JS.drop Nat.min].
  destruct (JS.indexOf_aux "</script>" (JS.toLowerCase r2) 0) as [j|] eqn:Hj; [|done].
  intros [= _ <- <-].
  apply indexOf_aux_first in Hj as (i & -> & Hi & Hfirst). cbn [Nat.add] in *.
  assert (Hc : c = ">"%char).
  { unfold Regex.is_not in Hstop. by destruct (ascii_dec c ">"). }
  subst c.
  exists "", (JS.take 7 s), (JS.take 9 (JS.drop i r2)), (JS.drop 9 (JS.drop i r2)).
  split; [|split; [|split; [|split]]].
  - rewrite app_empty_l. rewrite (take_drop_part 7 s) at 1. f_equal.
    rewrite Hpart. f_equal. change (String ">" r2) with (">" +:+ r2). f_equal.
    rewrite (take_drop_part i r2) at 1. f_equal. apply take_drop_part.
  - rewrite toLowerCase_take. apply startsWith_split in Hs as [b ->]. reflexivity.
  - rewrite toLowerCase_take, toLowerCase_drop.
    apply startsWith_split in Hi as [b ->]. reflexivity.
  - done.
  - rewrite toLowerCase_take. by apply includes_take_first.
Qed.

(** A match of the regex for the address is an address as it is written. *)
Lemma match_src_written s len url :
  match_src s = Some (len, url) ->
  exists key ws1 ws2 q1 q2 after,
    s = key +:+ ws1 +:+ "=" +:+ ws2 +:+ String q1 url +:+ String q2 after
    /\ JS.toLowerCase key = "src"
    /\ all_chars JS.is_ws ws1 = true /\ all_chars JS.is_ws ws2 = true
    /\ is_quote q1 = true /\ is_quote q2 = true
    /\ url <> "" /\ all_chars (fun c => negb (is_quote c)) url = true.
Proof.
  unfold match_src. destruct (JS.startsWith "src" (JS.toLowerCase s)) eqn:Hs; [|done].
  pose proof (span_part JS.is_ws (JS.drop 3 s)) as Hp1.
  pose proof (span_all JS.is_ws (JS.drop 3 s)) as Ha1.
  destruct (Regex.span JS.is_ws (JS.drop 3 s)) as [ws1 r1]. cbn [fst snd] in *.
  destruct r1 as [|e r2]; [done|]. destruct (ascii_dec e "=") as [->|]; [|done].
  pose proof (span_part JS.is_ws r2) as Hp2.
  pose proof (span_all JS.is_ws r2) as Ha2.
  destruct (Regex.span JS.is_ws r2) as [ws2 r3]. cbn [fst snd] in *.
  destruct r3 as [|q r4]; [done|]. destruct (is_quote q) eqn:Hq; [|done].
  pose proof (span_part (fun c => negb (is_quote c)) r4) as Hp3.
  pose proof (span_all (fun c => negb (is_quote c)) r4) as Ha3.
  pose proof (span_stop (fun c => negb (is_quote c)) r4) as Hstop.
  destruct (Regex.span (fun c => negb (is_quote c)) r4) as [g r5]. cbn [fst snd] in *.
  destruct g as [|cg g]; [done|]. destruct r5 as [|q2 r6]; [done|].
  intros [= _ <-].
  exists (JS.take 3 s), ws1, ws2, q, q2, r6.
  split; [|split; [|repeat split; try done]].
  - rewrite (take_drop_part 3 s) at 1. f_equal. rewrite Hp1. f_equal.
    change (String "=" r2) with ("=" +:+ r2). f_equal. rewrite Hp2. f_equal.
    rewrite app_cons. f_equal. exact Hp3.
  - rewrite toLowerCase_take. apply startsWith_split in Hs as [b ->]. reflexivity.
  - by apply negb_false_iff in Hstop.
Qed.

Lemma script_tag_inj u u' : script_tag u = script_tag u' -> u = u'.
Proof.
  unfold script_tag. intros H. injection H as H. rewrite !app_empty_l in H.
  by apply app_inv_tail_s in H.
Qed.

Lemma script_tag_closes u :
  JS.includes "</script>" (JS.toLowerCase (script_tag u)) = true.
Proof.
  apply includes_iff.
  exists (JS.toLowerCase ("<script src=" +:+ dq +:+ u +:+ dq +:+ ">")), "".
  assert (E : script_tag u = ("<script src=" +:+ dq +:+ u +:+ dq +:+ ">") +:+ "</script>")
    by (unfold script_tag; rewrite !app_assoc_s; reflexivity).
  by rewrite E, toLowerCase_app, app_empty_r.
Qed.

Lemma script_written_at htmlString n attributes content :
  script_written (JS.drop n htmlString) attributes content ->
  script_written htmlString attributes content.
Proof.
  intros (before & opening & closing & after & E & H).
  exists (JS.take n htmlString +:+ before), opening, closing, after. split; [|done].
  rewrite (take_drop_part n htmlString) at 1. by rewrite E, !app_assoc_s.
Qed.

Lemma src_written_at attributes n srcUrl :
  src_written (JS.drop n attributes) srcUrl -> src_written attributes srcUrl.
Proof.
  intros (before & key & ws1 & ws2 & q1 & q2 & after & E & H).
  exists (JS.take n attributes +:+ before), key, ws1, ws2, q1, q2, after. split; [|done].
  rewrite (take_drop_part n attributes) at 1. by rewrite E, !app_assoc_s.
Qed.

(** What each collected part comes from. *)
Lemma scriptParts_origin htmlString part :
  part ∈ scriptParts htmlString ->
  exists attributes content,
    script_written htmlString attributes content
    /\ ((exists srcUrl,
           part = script_tag srcUrl /\ src_written attributes srcUrl
           /\ is_external srcUrl = true)
        \/ (part = JS.trim content /\ part <> "")).
Proof.
  unfold scriptParts. intros Hp.
  apply list_elem_of_In, in_flat_map in Hp as ([attributes content] & Hm & Hp).
  apply list_elem_of_In, exec_all_match in Hm as (n & len & Hm).
  apply match_script_written, script_written_at in Hm.
  exists attributes, content. split; [done|].
  cbn [fst snd] in Hp. apply in_app_iff in Hp as [Hp|Hp].
  - destruct (first_match match_src attributes) as [srcUrl|] eqn:Hsrc; [|done].
    destruct (is_external srcUrl) eqn:Hext; [|done].
    destruct Hp as [<-|[]]. left. exists srcUrl. split; [done|]. split; [|done].
    apply first_match_at in Hsrc as (k & len' & Hk).
    apply match_src_written in Hk as (key & ws1 & ws2 & q1 & q2 & after & E & H).
    apply (src_written_at attributes k). by exists "", key, ws1, ws2, q1, q2, after.
  - destruct (0 <? String.length (JS.trim content))%nat eqn:Hlen; [|done].
    destruct Hp as [<-|[]]. right. split; [done|].
    intros E. by rewrite E in Hlen.
Qed.

(** X21. [extractJavaScriptFromHTML] returns the empty string for a
    document without an opening [script] tag in any case of letters.  Every
    part it collects comes from a script element written in the document: it
    is either a script tag for the address written in the [src] attribute of
    the element, when this address starts with two slashes, [http://] or
    [https://], or the trimmed content of the element, which is not empty.
    No part is a script tag for a local address. *)
Theorem extractJavaScriptFromHTML_parts (htmlString : string) :
  (JS.includes "<script" (JS.toLowerCase htmlString) = false ->
   extractJavaScriptFromHTML htmlString = "")
  /\ (forall part,
        part ∈ scriptParts htmlString ->
        exists attributes content,
          script_written htmlString attributes content
          /\ ((exists srcUrl,
                 part = script_tag srcUrl /\ src_written attributes srcUrl
                 /\ is_external srcUrl = true)
              \/ (part = JS.trim content /\ part <> "")))
  /\ (forall srcUrl,
        script_tag srcUrl ∈ scriptParts htmlString -> is_external srcUrl = true).
Proof.
  split; [|split].
  - intros H. unfold extractJavaScriptFromHTML, scriptParts.
    rewrite (exec_all_none match_script htmlString); [done|].
    intros n. unfold match_script.
    by rewrite toLowerCase_drop, (startsWith_not_included _ _ n H).
  - apply scriptParts_origin.
  - intros srcUrl Hp.
    apply scriptParts_origin in Hp as (attributes & content & Hw & [Htag|[Hc _]]).
    + destruct Htag as (u & Hu & _ & Hext). by rewrite (script_tag_inj _ _ Hu).
    + exfalso. destruct Hw as (_ & _ & _ & _ & _ & _ & _ & _ & Hnone).
      pose proof (script_tag_closes srcUrl) as Hin. rewrite Hc in Hin.
      destruct (trim_part content) as (a & b & E).
      rewrite E, !toLowerCase_app in Hnone.
      by rewrite (includes_part _ _ _ _ Hin) in Hnone.
Qed.

Lemma extractJavaScriptFromHTML_parts_witness :
  extractJavaScriptFromHTML html_hello = ""
  /\ (exists attributes content,
        script_written html_scripts attributes content
        /\ ((exists srcUrl,
               "run()" = script_tag srcUrl /\ src_written attributes srcUrl
               /\ is_external srcUrl = true)
            \/ ("run()" = JS.trim content /\ "run()" <> "")))
  /\ is_external "//cdn.example/x.js" = true.
Proof.
  assert (E : scriptParts html_scripts
              = [ script_tag "//cdn.example/x.js"; "go()"; "run()" ])
    by (vm_compute; reflexivity).
  split; [|split].
  - apply (proj1 (extractJavaScriptFromHTML_parts html_hello)). vm_compute. reflexivity.
  - apply (proj1 (proj2 (extractJavaScriptFromHTML_parts html_scripts)) "run()").
    rewrite E. apply list_elem_of_further, list_elem_of_further, list_elem_of_here.
  - apply (proj2 (proj2 (extractJavaScriptFromHTML_parts html_scripts))).
    rewrite E. apply list_elem_of_here.
Defined.

(** ** Compiling a document in two parts *)

(** X22. Compiling a document made of two parts gives the nodes of the first
    part followed by the nodes of the second part compiled with the
    identifiers that follow, and the roots of the first followed by the roots
    of the second. *)
Theorem compile_in_parts (dom1 dom2 : list DomNode) (k : nat)
    (classToIdMap : gmap string string) :
  let r1 := compileHTMLToNodes (fun _ => dom1) k "" classToIdMap in
  let r2 := compileHTMLToNodes (fun _ => dom2) (k + length (nodes r1)) "" classToIdMap in
  let r := compileHTMLToNodes (fun _ => dom1 ++ dom2) k "" classToIdMap in
  nodes r = nodes r1 ++ nodes r2 /\ rootNodeIds r = rootNodeIds r1 ++ rootNodeIds r2.
Proof.
  cbn zeta. rewrite !compileHTMLToNodes_spec. cbn [nodes rootNodeIds].
  rewrite length_flatten_forest. unfold content_trees.
  assert (E : extractContentElements (dom1 ++ dom2)
              = extractContentElements dom1 ++ extractContentElements dom2).
  { induction dom1 as [|c dom1 IH]; [done|].
    cbn [app]. by rewrite !extractContentElements_cons, IH, app_assoc. }
  rewrite E, map_app. split; [apply flatten_forest_app|apply root_ids_app].
Qed.

(** ** Normalised declarations *)

Lemma trimStart_ws_app w s : all_chars JS.is_ws w = true -> JS.trimStart (w +:+ s) = JS.trimStart s.
Proof.
  induction w as [|c w IH]; [done|]. cbn [all_chars]. intros H.
  apply andb_true_iff in H as [Hc H]. rewrite app_cons. cbn [JS.trimStart].
  rewrite Hc. by apply IH.
Qed.

Lemma trimEnd_app x v : JS.trimEnd v <> "" -> JS.trimEnd (x +:+ v) = x +:+ JS.trimEnd v.
Proof.
  intros Hv. induction x as [|c x IH]; [done|]. rewrite !app_cons. cbn [JS.trimEnd].
  rewrite IH. destruct (x +:+ JS.trimEnd v) as [|c' r'] eqn:E; [|done].
  destruct x; [|done]. by rewrite app_empty_l in E.
Qed.

Lemma remove_braces_id s : all_chars no_brace s = true -> remove_braces s = s.
Proof.
  induction s as [|c r IH]; [done|]. cbn [all_chars remove_braces]. intros H.
  apply andb_true_iff in H as [Hc H]. unfold no_brace, Regex.is_not in Hc.
  destruct (ascii_dec c "{"); [done|]. destruct (ascii_dec c "}"); [done|]. by rewrite IH.
Qed.

Lemma match_colon_other s c r :
  JS.trimStart s = String c r -> c <> ":"%char -> match_colon s = None.
Proof.
  unfold match_colon. intros -> Hc.
  destruct c as [[] [] [] [] [] [] [] []]; try reflexivity. congruence.
Qed.

Lemma match_colon_colon s r :
  JS.trimStart s = String ":" r -> match_colon s = Some (JS.trimStart r).
Proof. unfold match_colon. by intros ->. Qed.

Lemma space_colon_cons c r :
  space_colon (String c r) =
  match match_colon (String c r) with
  | Some rest => ": " +:+ rest
  | None => String c (space_colon r)
  end.
Proof. reflexivity. Qed.

Lemma space_colon_written d :
  written_ok d -> space_colon (written_text d) = normal_text d.
Proof.
  intros (_ & Hname & Hw1 & Hw2 & Hv & Hvs & _). unfold written_text, normal_text.
  revert Hname. generalize (w_name d) as nm.
  induction nm as [|c nm IH]; intros Hname.
  - rewrite !app_empty_l.
    assert (Hm : match_colon (w_space1 d +:+ ":" +:+ w_space2 d +:+ w_value d)
                 = Some (w_value d)).
    { rewrite (match_colon_colon _ (w_space2 d +:+ w_value d)).
      - by rewrite trimStart_ws_app, Hvs.
      - by rewrite trimStart_ws_app. }
    destruct (w_space1 d +:+ ":" +:+ w_space2 d +:+ w_value d) as [|c0 r0] eqn:E;
      cbn [space_colon]; by rewrite Hm.
  - cbn [all_chars] in Hname. apply andb_true_iff in Hname as [Hc Hname].
    unfold name_char in Hc. apply andb_true_iff in Hc as [Hc _].
    apply andb_true_iff in Hc as [Hws Hcolon]. apply negb_true_iff in Hws.
    rewrite (app_cons c nm (w_space1 d +:+ ":" +:+ w_space2 d +:+ w_value d)),
      (app_cons c nm (": " +:+ w_value d)), space_colon_cons.
    rewrite (match_colon_other _ c (nm +:+ w_space1 d +:+ ":" +:+ w_space2 d +:+ w_value d)).
    + by rewrite (IH Hname).
    + cbn [JS.trimStart]. by rewrite Hws.
    + unfold Regex.is_not in Hcolon. by destruct (ascii_dec c ":").
Qed.

Lemma remove_final_semicolon_id s :
  all_chars (Regex.is_not ";") s = true -> remove_final_semicolon s = s.
Proof.
  induction s as [|c r IH]; [done|]. cbn [all_chars]. intros H.
  apply andb_true_iff in H as [Hc H]. rewrite remove_final_semicolon_cons.
  unfold Regex.is_not in Hc. destruct (ascii_dec c ";"); [done|]. by rewrite IH.
Qed.

Lemma remove_final_semicolon_app x v :
  v <> "" -> remove_final_semicolon (x +:+ v) = x +:+ remove_final_semicolon v.
Proof.
  intros Hv. induction x as [|c x IH]; [done|]. rewrite !app_cons.
  rewrite remove_final_semicolon_cons, IH.
  destruct (ascii_dec c ";"); [|done].
  destruct (x +:+ v) as [|c' r'] eqn:E; [|done]. destruct x; [|done].
  by rewrite app_empty_l in E.
Qed.

Lemma all_chars_weaken (p q : ascii -> bool) s :
  (forall c, p c = true -> q c = true) -> all_chars p s = true -> all_chars q s = true.
Proof.
  intros Hpq. induction s as [|c r IH]; [done|]. cbn [all_chars]. intros H.
  apply andb_true_iff in H as [Hc H]. by rewrite (Hpq c Hc), IH.
Qed.

Lemma clean_written d :
  written_ok d ->
  remove_final_semicolon (space_colon (remove_braces (JS.trim (written_text d))))
  = normal_text d.
Proof.
  intros Hd. pose proof Hd as (Hne & Hname & Hw1 & Hw2 & Hv & Hvs & Hve & Hvb & Hvsemi).
  assert (Htrim : JS.trim (written_text d) = written_text d).
  { unfold JS.trim, written_text. destruct (w_name d) as [|c nm] eqn:En; [done|].
    cbn [all_chars] in Hname. apply andb_true_iff in Hname as [Hc _].
    unfold name_char in Hc. apply andb_true_iff in Hc as [Hc _].
    apply andb_true_iff in Hc as [Hws _]. apply negb_true_iff in Hws.
    rewrite app_cons. cbn [JS.trimStart]. rewrite Hws. rewrite <- app_cons.
    rewrite <- !app_assoc_s. rewrite trimEnd_app; [by rewrite Hve|by rewrite Hve]. }
  rewrite Htrim, remove_braces_id, (space_colon_written d Hd).
  - unfold normal_text. rewrite <- app_assoc_s, remove_final_semicolon_app by done.
    by rewrite remove_final_semicolon_id.
  - unfold written_text. rewrite !all_chars_app, Hvb.
    rewrite (all_chars_weaken name_char no_brace (w_name d)); [|  |done].
    + rewrite (all_chars_weaken JS.is_ws no_brace (w_space1 d)); [| |done].
      * rewrite (all_chars_weaken JS.is_ws no_brace (w_space2 d)); [done| |done].
        intros c Hc. unfold no_brace, Regex.is_not.
        destruct (ascii_dec c "{") as [->|]; [done|]. by destruct (ascii_dec c "}") as [->|].
      * intros c Hc. unfold no_brace, Regex.is_not.
        destruct (ascii_dec c "{") as [->|]; [done|]. by destruct (ascii_dec c "}") as [->|].
    + intros c Hc. unfold name_char in Hc. by apply andb_true_iff in Hc as [_ Hc].
Qed.

(** X23. [convertToStyleLess] on declarations written with any white space
    around the colon gives the declarations with the colon directly after the
    name and one space after it, joined by a semicolon and a space. *)
Theorem convertToStyleLess_normalises (ds : list Written) :
  Forall written_ok ds ->
  convertToStyleLess (map written_text ds) = JS.join "; " (map normal_text ds).
Proof.
  intros Hds. unfold convertToStyleLess. rewrite map_map. f_equal.
  induction Hds as [|d ds Hd _ IH]; [done|]. cbn [map List.filter].
  rewrite (clean_written d Hd), IH.
  assert (Hn : nonempty (normal_text d) = true).
  { destruct Hd as (Hne & _). unfold normal_text. destruct (w_name d); done. }
  by rewrite Hn.
Qed.

Lemma convertToStyleLess_normalises_witness :
  convertToStyleLess [ "color :  red"; "margin:0 auto" ] = "color: red; margin: 0 auto".
Proof.
  apply (convertToStyleLess_normalises
           [ mkWritten "color" " " "  " "red"; mkWritten "margin" "" "" "0 auto" ]).
  repeat constructor; done.
Defined.

(** ** The two style parsers agree on the base styles *)






(** ** Style sheets without a cycle of references *)

(** X25. When no chain of references in the root table comes back to a
    variable, [parseCSSToWebflow] returns for every list of class names once
    the call depth is large enough, and it returns one style record per
    requested name, in order, with the identifiers drawn in order, and a map
    with an entry for exactly the requested names. *)
Theorem parseCSSToWebflow_without_cycle (cssString : string) (rank : string -> nat) :
  ranked (extractCSSVariables cssString) rank ->
  exists depth0, forall depth drawn classNames,
    depth0 <= depth ->
    exists r,
      parseCSSToWebflow depth drawn cssString classNames = Some r
      /\ map style_name (styles r) = classNames
      /\ map _id (styles r) = map uuidv4 (seq drawn (length classNames))
      /\ dom (classToIdMap r) = list_to_set classNames.
Proof.
  intros Hr. destruct (parseCSSToWebflow_returns cssString rank Hr) as [depth0 H].
  exists depth0. intros depth drawn classNames Hd.
  destruct (H depth drawn classNames Hd) as [r Hparse]. exists r. split; [done|].
  destruct (parseCSSToWebflow_records _ _ _ _ _ Hparse) as (H1 & H2 & H3 & _). done.
Qed.

Lemma parseCSSToWebflow_without_cycle_witness :
  exists depth0, forall depth drawn classNames,
    depth0 <= depth ->
    exists r,
      parseCSSToWebflow depth drawn css_chain classNames = Some r
      /\ map style_name (styles r) = classNames
      /\ map _id (styles r) = map uuidv4 (seq drawn (length classNames))
      /\ dom (classToIdMap r) = list_to_set classNames.
Proof.
  apply (parseCSSToWebflow_without_cycle css_chain
           (fun n => if String.eqb n "a" then 1 else 0)).
  assert (E : extractCSSVariables css_chain = <[ "b" := "red" ]> {[ "a" := "var(--b)" ]})
    by (vm_compute; reflexivity).
  rewrite E. clear E. intros n v n' Hv Hin _.
  apply lookup_insert_Some in Hv as [[<- <-]|[_ Hv]].
  - assert (En : references_of "red" = []) by (vm_compute; reflexivity).
    rewrite En in Hin. apply elem_of_nil in Hin. destruct Hin.
  - apply lookup_singleton_Some in Hv as [<- <-].
    assert (En : references_of "var(--b)" = [ "b" ]) by (vm_compute; reflexivity).
    rewrite En in Hin. apply list_elem_of_singleton in Hin as ->. cbn. lia.
Defined.
